(** * MonDeployer: a shallow embedding of the deployment scripts

    The repository is a set of Node scripts and MCP plugins that pin the
    Solidity version of a contract source, compile it with solc, deploy it
    through a wallet client, store an artifact document and send ERC20
    tokens to a list of recipients.  This development embeds the functions
    that carry that workflow and proves what they do.

    Conventions of the embedding:
    - a JavaScript string is a list of code units; the code units are the
      256 ones of the Latin-1 range ([ascii]), which covers Solidity
      sources, addresses and hashes;
    - a function that can throw returns [completion]: [Return v] or
      [Throw message];
    - the regular expressions of the sources are values of a small regular
      expression type, run by a backtracking matcher with the priorities
      of the JavaScript one (leftmost start, greedy quantifiers);
    - calls into third-party libraries (ethers, viem, solc, the network)
      are parameters of a [Section]. *)

From Stdlib Require Import String Ascii List ZArith Bool Lia.
From stdpp Require Import base option list gmap strings.
Import ListNotations.
Open Scope list_scope.
Set Warnings "-register-all".

(** ** JavaScript strings and the built-ins the scripts call *)

Module JS.

Definition jsstring : Type := list ascii.

Definition nl : ascii := "010"%char.
Definition backslash : ascii := "\"%char.

(** A literal is read the way the JavaScript sources write it: the two
    characters backslash-n stand for a line feed, backslash-backslash for a
    backslash.  Every other character stands for itself. *)
Fixpoint unescape (s : list ascii) : jsstring :=
  match s with
  | [] => []
  | c :: s' =>
      if Ascii.eqb c backslash then
        match s' with
        | d :: s'' =>
            if Ascii.eqb d "n" then nl :: unescape s''
            else if Ascii.eqb d backslash then backslash :: unescape s''
            else c :: unescape s'
        | [] => [c]
        end
      else c :: unescape s'
  end.

Definition js_of_string (s : string) : jsstring := unescape (list_ascii_of_string s).

(** [js "..."] is the literal, as the list of its code units. *)
Abbreviation js s :=
  (ltac:(let v := eval vm_compute in (js_of_string s) in exact v)) (only parsing).

(** Values a loosely typed parameter can hold: a string, or anything else
    (undefined, null, a number, an object). *)
Inductive js_value :=
| JsString (s : jsstring)
| JsUndefined
| JsNull
| JsOther (shown : jsstring).

(** Outcome of a call that can throw. *)
Inductive completion (A : Type) :=
| Return (v : A)
| Throw (message : jsstring).
Arguments Return {A} v.
Arguments Throw {A} message.

Definition bind {A B} (c : completion A) (f : A -> completion B) : completion B :=
  match c with
  | Return v => f v
  | Throw m => Throw m
  end.

Definition code (c : ascii) : nat := nat_of_ascii c.

Definition between (lo hi : nat) (c : ascii) : bool :=
  Nat.leb lo (code c) && Nat.leb (code c) hi.

(** [String.prototype.toLowerCase] on Latin-1 code units: A-Z, and the
    accented capitals U+00C0..U+00DE except the multiplication sign. *)
Definition lower_char (c : ascii) : ascii :=
  if between 65 90 c then ascii_of_nat (code c + 32)
  else if between 192 222 c && negb (Nat.eqb (code c) 215)
       then ascii_of_nat (code c + 32)
  else c.

Definition toLowerCase (s : jsstring) : jsstring := map lower_char s.

(** [strip_prefix p s] is the rest of [s] after the prefix [p], if [s]
    starts with [p]. *)
Fixpoint strip_prefix (p s : jsstring) : option jsstring :=
  match p with
  | [] => Some s
  | c :: p' =>
      match s with
      | d :: s' => if Ascii.eqb c d then strip_prefix p' s' else None
      | [] => None
      end
  end.

(** [String.prototype.startsWith]. *)
Definition startsWith (s p : jsstring) : bool :=
  match strip_prefix p s with Some _ => true | None => false end.

(** First occurrence of [p] in [s]: the text before it and the text after
    it ([String.prototype.indexOf], with the two sides of the split). *)
Fixpoint find_sub (p s : jsstring) : option (jsstring * jsstring) :=
  match strip_prefix p s with
  | Some r => Some ([], r)
  | None =>
      match s with
      | [] => None
      | c :: s' =>
          match find_sub p s' with
          | Some (a, b) => Some (c :: a, b)
          | None => None
          end
      end
  end.

(** [String.prototype.includes]. *)
Definition includes (s p : jsstring) : bool :=
  match find_sub p s with Some _ => true | None => false end.

(** [Array.prototype.join]. *)
Fixpoint join (sep : jsstring) (l : list jsstring) : jsstring :=
  match l with
  | [] => []
  | [x] => x
  | x :: l' => x ++ sep ++ join sep l'
  end.

Definition is_digit (c : ascii) : bool := between 48 57 c.
Definition digit_val (c : ascii) : nat := code c - 48.

(** The capture with number [n] (from 1), when the match has one. *)
Definition capture_ref (captures : list jsstring) (n : nat) : option jsstring :=
  match n with
  | O => None
  | S i => nth_error captures i
  end.

(** GetSubstitution of ECMAScript, for a match without named groups:
    [$$] is a dollar, [$&] the matched text, [$`] the text before the match,
    [$'] the text after it, [$n] and [$nn] a numbered capture when the match
    has that many; any other dollar stands for itself. *)
Fixpoint expand (captures : list jsstring) (matched before after : jsstring)
    (template : jsstring) : jsstring :=
  match template with
  | [] => []
  | c :: t =>
      if Ascii.eqb c "$" then
        match t with
        | [] => [c]
        | d :: t' =>
            if Ascii.eqb d "$" then "$"%char :: expand captures matched before after t'
            else if Ascii.eqb d "&" then matched ++ expand captures matched before after t'
            else if Ascii.eqb d "`" then before ++ expand captures matched before after t'
            else if Ascii.eqb d "'" then after ++ expand captures matched before after t'
            else if is_digit d then
              let one :=
                match capture_ref captures (digit_val d) with
                | Some cap => cap ++ expand captures matched before after t'
                | None => c :: expand captures matched before after t
                end in
              match t' with
              | e :: t'' =>
                  if is_digit e then
                    match capture_ref captures (10 * digit_val d + digit_val e) with
                    | Some cap => cap ++ expand captures matched before after t''
                    | None => one
                    end
                  else one
              | [] => one
              end
            else c :: expand captures matched before after t
        end
      else c :: expand captures matched before after t
  end.

(** [String.prototype.replace] with a string pattern and a string
    replacement: the first occurrence is replaced, the replacement is
    expanded by GetSubstitution (no captures). *)
Definition replace_string (s pat repl : jsstring) : jsstring :=
  match find_sub pat s with
  | Some (before, after) => before ++ expand [] pat before after repl ++ after
  | None => s
  end.

End JS.
Export JS.

(** ** Regular expressions *)

Module Regex.

(** The expressions of the sources are sequences of literal characters and
    of greedy repetitions of a character class. *)
Inductive atom :=
| Chr (c : ascii)
| Plus (cls : ascii -> bool)
| Star (cls : ascii -> bool).

Definition regex : Type := list atom.

Definition lits (s : jsstring) : regex := map Chr s.

(** [\s] of ECMAScript on Latin-1: tab, line feed, vertical tab, form feed,
    carriage return, space and no-break space. *)
Definition is_space (c : ascii) : bool :=
  between 9 13 c || Nat.eqb (code c) 32 || Nat.eqb (code c) 160.

(** [[^c]]. *)
Definition is_not (c : ascii) (d : ascii) : bool := negb (Ascii.eqb c d).

(** Greedy repetition: take as many characters of the class as possible,
    then give characters back one by one until the continuation [k]
    matches.  The result is the text taken and what [k] returned. *)
Fixpoint greedy {R : Type} (cls : ascii -> bool) (k : jsstring -> option R)
    (s : jsstring) : option (jsstring * R) :=
  match s with
  | c :: s' =>
      if cls c then
        match greedy cls k s' with
        | Some (seg, r) => Some (c :: seg, r)
        | None => match k s with Some r => Some ([], r) | None => None end
        end
      else match k s with Some r => Some ([], r) | None => None end
  | [] => match k s with Some r => Some ([], r) | None => None end
  end.

(** Match the expression at the start of [s]: the text matched by each
    atom, and the rest of [s]. *)
Fixpoint match_here (r : regex) (s : jsstring) : option (list jsstring * jsstring) :=
  match r with
  | [] => Some ([], s)
  | Chr c :: r' =>
      match s with
      | d :: s' =>
          if Ascii.eqb c d then
            match match_here r' s' with
            | Some (segs, rest) => Some ([d] :: segs, rest)
            | None => None
            end
          else None
      | [] => None
      end
  | Plus cls :: r' =>
      match s with
      | d :: s' =>
          if cls d then
            match greedy cls (match_here r') s' with
            | Some (seg, (segs, rest)) => Some ((d :: seg) :: segs, rest)
            | None => None
            end
          else None
      | [] => None
      end
  | Star cls :: r' =>
      match greedy cls (match_here r') s with
      | Some (seg, (segs, rest)) => Some (seg :: segs, rest)
      | None => None
      end
  end.

(** The leftmost match in [s]: the text before it, the text of each atom,
    the text after it. *)
Fixpoint search (r : regex) (s : jsstring) : option (jsstring * list jsstring * jsstring) :=
  match match_here r s with
  | Some (segs, rest) => Some ([], segs, rest)
  | None =>
      match s with
      | [] => None
      | c :: s' =>
          match search r s' with
          | Some (before, segs, rest) => Some (c :: before, segs, rest)
          | None => None
          end
      end
  end.

(** The text of the atoms [from, from + len): a capture group. *)
Definition group (from len : nat) (segs : list jsstring) : jsstring :=
  concat (take len (drop from segs)).

(** [String.prototype.replace] with a regular expression without the g
    flag and a string replacement; [groups] locates the capture groups
    among the atoms. *)
Definition replace_regex (r : regex) (groups : list (nat * nat))
    (s repl : jsstring) : jsstring :=
  match search r s with
  | Some (before, segs, after) =>
      before
      ++ expand (map (fun g => group (fst g) (snd g) segs) groups)
                (concat segs) before after repl
      ++ after
  | None => s
  end.

(** Number of matches of a scan with the g flag: after a match the scan
    goes on in the text that follows it.  [fuel] bounds the number of
    matches; the length of the text is enough when matches are not
    empty. *)
Fixpoint count_matches (fuel : nat) (r : regex) (s : jsstring) : nat :=
  match fuel with
  | O => O
  | S fuel' =>
      match search r s with
      | Some (_, _, after) => S (count_matches fuel' r after)
      | None => O
      end
  end.

(** The texts an atom can match, and the texts of the atoms of an
    expression: what a match is, apart from the order in which the matcher
    tries them. *)
Definition seg_ok (a : atom) (seg : jsstring) : Prop :=
  match a with
  | Chr c => seg = [c]
  | Plus cls => seg <> [] /\ forallb cls seg = true
  | Star cls => forallb cls seg = true
  end.

Definition segs_ok (r : regex) (segs : list jsstring) : Prop := Forall2 seg_ok r segs.

End Regex.
Export Regex.

(** ** Version Normalizer *)

Module VersionNormalizer.

(** [/pragma\s+solidity\s+([^;]+);/] *)
Definition pragmaRegex : regex :=
  lits (js "pragma") ++ [Plus is_space] ++ lits (js "solidity")
  ++ [Plus is_space; Plus (is_not ";"); Chr ";"].

(** The capture group of [pragmaRegex] is its atom 16, the version. *)
Definition pragmaGroups : list (nat * nat) := [(16, 1)].

(** [/(\/\/\s*SPDX-License-Identifier:[^\n]+\n)/] *)
Definition spdxRegex : regex :=
  lits (js "//") ++ [Star is_space] ++ lits (js "SPDX-License-Identifier:")
  ++ [Plus (is_not nl); Chr nl].

Definition requiredPragma : jsstring := js "pragma solidity 0.8.28;".

(** [source.match(pragmaRegex)], reduced to what the callers read: the
    capture, when there is a match. *)
Definition pragmaMatch (source : jsstring) : option jsstring :=
  match search pragmaRegex source with
  | Some (_, segs, _) => Some (group 16 1 segs)
  | None => None
  end.

(** [source.match(spdxRegex)]: element 0, the matched text. *)
Definition spdxMatch (source : jsstring) : option jsstring :=
  match search spdxRegex source with
  | Some (_, segs, _) => Some (concat segs)
  | None => None
  end.

(** [!source || typeof source !== 'string'] *)
Definition usable (source : js_value) : option jsstring :=
  match source with
  | JsString [] => None
  | JsString s => Some s
  | _ => None
  end.

(** [forceVersion] of fixed-solc-plugin.cjs (the same text is in
    multi-tool-plugin-v2.cjs and in two more plugins). *)
Definition fallbackSource : jsstring :=
  js "// SPDX-License-Identifier: MIT\npragma solidity 0.8.28;\n\ncontract SimpleStorage {\n    uint256 private value;\n    function setValue(uint256 _newValue) public { value = _newValue; }\n    function getValue() public view returns (uint256) { return value; }\n}".

Definition forceVersion (source : js_value) : jsstring :=
  match usable source with
  | None => fallbackSource
  | Some s =>
      match pragmaMatch s with
      | Some _ => replace_regex pragmaRegex pragmaGroups s requiredPragma
      | None => js "pragma solidity 0.8.28;\n\n" ++ s
      end
  end.

(** [forceCorrectVersion] of simple-mcp-plugin-v2.cjs. *)
Definition fallbackSourceV2 : jsstring :=
  js "// SPDX-License-Identifier: MIT\npragma solidity 0.8.28;\n\ncontract SimpleStorage {\n    uint256 private value;\n    \n    event ValueChanged(uint256 newValue);\n    \n    function setValue(uint256 _newValue) public {\n        value = _newValue;\n        emit ValueChanged(_newValue);\n    }\n    \n    function getValue() public view returns (uint256) {\n        return value;\n    }\n}".

Definition forceCorrectVersion (source : js_value) : jsstring :=
  match usable source with
  | None => fallbackSourceV2
  | Some s =>
      match pragmaMatch s with
      | Some _ => replace_regex pragmaRegex pragmaGroups s requiredPragma
      | None =>
          match spdxMatch s with
          | Some m => replace_string s m (m ++ js "\npragma solidity 0.8.28;\n")
          | None => js "pragma solidity 0.8.28;\n\n" ++ s
          end
      end
  end.

(** The number of pragma directives of a text: the matches of a scan of
    the text with [pragmaRegex]. *)
Definition count_pragmas (s : jsstring) : nat :=
  count_matches (S (length s)) pragmaRegex s.

(** The text of a directive: white space, white space, and a version
    without semicolon. *)
Definition spaces (w : jsstring) : Prop := w <> [] /\ forallb is_space w = true.

Definition no_semi (x : jsstring) : Prop := forallb (is_not ";") x = true.

Definition directive (w1 w2 x : jsstring) : jsstring :=
  js "pragma" ++ w1 ++ js "solidity" ++ w2 ++ x ++ js ";".

Definition is_directive (m : jsstring) : Prop :=
  exists w1 w2 x, m = directive w1 w2 x /\ spaces w1 /\ spaces w2 /\ x <> [] /\ no_semi x.

(** A text without dollar sign. *)
Definition dollar_free (t : jsstring) : bool := forallb (is_not "$") t.

(** Whether the SPDX license comment of a text, when it has one, is without
    dollar sign. *)
Definition spdx_dollar_free (s : jsstring) : bool :=
  match spdxMatch s with
  | Some m => dollar_free m
  | None => true
  end.

(** The insertion that the specification describes for a text without
    directive: right after the SPDX license comment when there is one, at
    the very top otherwise. *)
Definition insert_after_spdx (s : jsstring) : jsstring :=
  match search spdxRegex s with
  | Some (before, segs, after) =>
      before ++ concat segs ++ js "\npragma solidity 0.8.28;\n" ++ after
  | None => js "pragma solidity 0.8.28;\n\n" ++ s
  end.

End VersionNormalizer.

(** ** JSON documents *)

Module Json.

Inductive json :=
| JNull
| JBool (b : bool)
| JNum (n : Z)
| JStr (s : jsstring)
| JArr (items : list json)
| JObj (fields : list (jsstring * json)).

Definition jsstring_eqb (a b : jsstring) : bool := bool_decide (a = b).

Fixpoint assoc {A : Type} (k : jsstring) (l : list (jsstring * A)) : option A :=
  match l with
  | [] => None
  | (k', v) :: l' => if jsstring_eqb k k' then Some v else assoc k l'
  end.

(** [v.k] on a parsed document: the field of an object, undefined ([None])
    when the object has no such field or [v] is not an object; reading a
    property of null throws. *)
Definition prop (v : json) (k : jsstring) : completion (option json) :=
  match v with
  | JObj fields => Return (assoc k fields)
  | JNull => Throw (js "Cannot read properties of null (reading '" ++ k ++ js "')")
  | _ => Return None
  end.

(** The names of the members that every object inherits from
    [Object.prototype]. *)
Definition prototype_names : list jsstring :=
  [js "constructor"; js "__defineGetter__"; js "__defineSetter__";
   js "hasOwnProperty"; js "__lookupGetter__"; js "__lookupSetter__";
   js "isPrototypeOf"; js "propertyIsEnumerable"; js "toString"; js "valueOf";
   js "__proto__"; js "toLocaleString"].

Definition inherited (name : jsstring) : bool :=
  existsb (jsstring_eqb name) prototype_names.

(** [o[name]] on an object that [JSON.parse] made, whose own members are
    [l]: an own member, else a member inherited from [Object.prototype] (a
    function, or the prototype itself for [__proto__]: an object that is
    truthy and has none of the fields of a document), else undefined. *)
Inductive member (A : Type) :=
| Own (v : A)
| Inherited
| Missing.
Arguments Own {A} v.
Arguments Inherited {A}.
Arguments Missing {A}.

Definition get {A : Type} (name : jsstring) (l : list (jsstring * A)) : member A :=
  match assoc name l with
  | Some v => Own v
  | None => if inherited name then Inherited else Missing
  end.

End Json.
Export Json.

(** ** File system *)

Module FileSystem.

(** The calls into the [fs] module of Node that the deployment code makes,
    over the states of a disk.  A call gives the disk it leaves; a call that
    fails throws the text of its error.  A document is written as its
    [JSON.stringify] text; the call takes the document itself. *)
Record calls (disk : Type) := {
  existsSync : disk -> jsstring -> bool;
  mkdirSync : disk -> jsstring -> disk * completion unit;
  writeFileSync : disk -> jsstring -> json -> disk * completion unit;
  unlinkSync : disk -> jsstring -> disk * completion unit
}.
Arguments existsSync {disk} _ _ _.
Arguments mkdirSync {disk} _ _ _.
Arguments writeFileSync {disk} _ _ _ _.
Arguments unlinkSync {disk} _ _ _.

(** The artifact step, as each deployment code has it:
    [if (!fs.existsSync(artifactsDir)) fs.mkdirSync(artifactsDir, ...)] and
    then [fs.writeFileSync(artifactPath, JSON.stringify(document, null, 2))]. *)
Definition save_document {disk : Type} (node_fs : calls disk) (d : disk)
    (artifactsDir artifactPath : jsstring) (document : json) : disk * completion unit :=
  let made :=
    if existsSync node_fs d artifactsDir
    then (d, Return tt)
    else mkdirSync node_fs d artifactsDir in
  match snd made with
  | Throw e => (fst made, Throw e)
  | Return _ => writeFileSync node_fs (fst made) artifactPath document
  end.

End FileSystem.

(** ** Compiler Adapter *)

Module CompilerAdapter.

Record diagnostic := {
  severity : jsstring;
  message : jsstring;
  formattedMessage : jsstring
}.

(** One compiled contract: [abi] and [evm.bytecode.object]. *)
Record contract_output := {
  abi : json;
  bytecode_object : jsstring
}.

(** The output document of solc: [errors] (warnings included) and
    [contracts], by file name and then by contract name in the order of the
    keys; each of the two can be absent. *)
Record solc_output := {
  errors : option (list diagnostic);
  contracts : option (list (jsstring * list (jsstring * contract_output)))
}.

(** [error.severity === 'error'] *)
Definition is_error (d : diagnostic) : bool := jsstring_eqb (severity d) (js "error").

(** [output.contracts[file][name]] for the file [base + '.sol']: with its
    extension the file name is none that an object inherits, so the file
    is an own member of [output.contracts] or is undefined.  A TypeError
    when [output.contracts] or [output.contracts[file]] is undefined; else
    the member [name] of the file, with the contracts of the file. *)
Definition lookup_contract (output : solc_output) (base name : jsstring)
    : completion (member contract_output * list (jsstring * contract_output)) :=
  let file := base ++ js ".sol" in
  match contracts output with
  | None => Throw (js "Cannot read properties of undefined (reading '" ++ file ++ js "')")
  | Some files =>
      match assoc file files with
      | None => Throw (js "Cannot read properties of undefined (reading '" ++ name ++ js "')")
      | Some cs => Return (get name cs, cs)
      end
  end.

(** The diagnostics reported, and whether one of them is an error. *)
Definition diagnostics (output : solc_output) : list diagnostic :=
  match errors output with
  | Some ds => ds
  | None => []
  end.

Definition has_error (output : solc_output) : bool :=
  existsb is_error (diagnostics output).

(** compileSolidity of fixed-solc-plugin.cjs, from the parsed output of
    [solc.compile] on. *)
Module FixedSolc.

Definition check_errors (output : solc_output) : completion unit :=
  match errors output with
  | Some ds =>
      if existsb is_error ds
      then Throw (js "Compilation failed: " ++ join [nl] (map message ds))
      else Return tt
  | None => Return tt
  end.

(** What compileSolidity returns: a compiled contract, or, for a name that
    every object inherits, the inherited member of that name, which is no
    contract. *)
Inductive compiled_value :=
| Contract (c : contract_output)
| Member (name : jsstring).

Definition find_contract (output : solc_output) (contractName : jsstring)
    : completion compiled_value :=
  bind (lookup_contract output (js "contract") contractName) (fun found =>
    match found with
    | (Own compiledContract, _) => Return (Contract compiledContract)
    | (Inherited, _) => Return (Member contractName)
    | (Missing, []) => Throw (js "No compiled contracts found")
    | (Missing, (contractKey, first) :: _) =>
        match contractKey with
        | [] => Throw (js "No compiled contracts found")
        | _ => Return (Contract first)
        end
    end).

Definition compileSolidity (solc_compile : jsstring -> completion solc_output)
    (source contractName : jsstring) : completion compiled_value :=
  bind (solc_compile source) (fun output =>
  bind (check_errors output) (fun _ =>
  find_contract output contractName)).

End FixedSolc.

(** compileSolidity of contract-deployer.ts (embedded in
    simple-mcp-plugin-v2.cjs), from the parsed output on. *)
Module ContractDeployer.

Definition check_errors (output : solc_output) : completion unit :=
  match errors output with
  | Some ds =>
      let errors := List.filter is_error ds in
      if Nat.ltb 0 (length errors)
      then Throw (js "Compilation errors:\n" ++ join [nl] (map formattedMessage errors))
      else Return tt
  | None => Return tt
  end.

(** An inherited member passes the check [!compiledContract] and has no
    [evm]: reading its bytecode is a TypeError. *)
Definition find_contract (output : solc_output) (contractName : jsstring)
    : completion (json * jsstring) :=
  bind (lookup_contract output contractName contractName) (fun found =>
    match fst found with
    | Own compiledContract =>
        Return (abi compiledContract, js "0x" ++ bytecode_object compiledContract)
    | Inherited => Throw (js "Cannot read properties of undefined (reading 'bytecode')")
    | Missing =>
        Throw (js "Contract " ++ contractName ++ js " not found in the compiled output")
    end).

Definition compileSolidity (solc_compile : jsstring -> completion solc_output)
    (source contractName : jsstring) : completion (json * jsstring) :=
  bind (solc_compile source) (fun output =>
  bind (check_errors output) (fun _ =>
  find_contract output contractName)).

End ContractDeployer.

End CompilerAdapter.

(** ** Artifact Store *)

Module ArtifactStore.

(** The file system, as far as the artifacts go: the document stored at each
    path.  A document is written with [JSON.stringify] and read back with
    [JSON.parse]; the store keeps the document itself.  The save functions
    of this module give the store after a write that succeeds; the runs in
    which a call into the file system can fail are those of the executors,
    over the calls of [FileSystem]. *)
Abbreviation files := (gmap jsstring json).

(** [path.join(dir, name)] for a directory and a name without separators. *)
Definition path_join (dir name : jsstring) : jsstring := dir ++ js "/" ++ name.

(** saveContractArtifacts of contract-deployer.ts: the document has no
    transaction hash. *)
Definition saveContractArtifacts (tmpdir : jsstring) (fs : files)
    (contractName : jsstring) (abi : json) (address : jsstring) : files * jsstring :=
  let artifactsDir := path_join tmpdir (js "monad-deployments") in
  let artifactPath := path_join artifactsDir (contractName ++ js ".json") in
  (<[artifactPath := JObj [(js "contractName", JStr contractName);
                           (js "address", JStr address);
                           (js "abi", abi);
                           (js "network", JStr (js "monad-testnet"))]]> fs,
   artifactPath).

(** The artifact step of the deploy script that index.ts generates. *)
Definition script_save (tmpdir : jsstring) (fs : files)
    (CONTRACT_NAME : jsstring) (abi : json) (contractAddress hash : jsstring)
    : files * jsstring :=
  let artifactsDir := path_join tmpdir (js "monad-deployments") in
  let artifactPath := path_join artifactsDir (CONTRACT_NAME ++ js ".json") in
  (<[artifactPath := JObj [(js "contractName", JStr CONTRACT_NAME);
                           (js "address", JStr contractAddress);
                           (js "abi", abi);
                           (js "transactionHash", JStr hash);
                           (js "network", JStr (js "monad-testnet"));
                           (js "chainId", JNum 10143);
                           (js "explorerUrl",
                            JStr (js "https://explorer.testnet.monad.xyz/tx/" ++ hash))]]> fs,
   artifactPath).

(** The artifact step of deploy-contract.js (the deploy script next to
    interact-contract.js): [deployedAt] is the time of the call. *)
Definition deploy_save (dirname : jsstring) (fs : files)
    (name : jsstring) (abi : json) (contractAddress deployedAt : jsstring)
    : files * jsstring :=
  let artifactsDir := path_join dirname (js "artifacts") in
  let artifactPath := path_join artifactsDir (name ++ js ".json") in
  (<[artifactPath := JObj [(js "contractName", JStr name);
                           (js "abi", abi);
                           (js "address", JStr contractAddress);
                           (js "deployedAt", JStr deployedAt)]]> fs,
   artifactPath).

(** What loadContract returns: [address] and [abi] (undefined when the
    document lacks them), which its [read] and [write] closures use. *)
Record loaded := {
  address : option json;
  abi : option json
}.

(** [String.prototype.endsWith]. *)
Definition endsWith (s p : jsstring) : bool := startsWith (rev s) (rev p).

(** Truthiness of a JSON value. *)
Definition truthy (v : json) : bool :=
  match v with
  | JNull => false
  | JBool b => b
  | JNum n => negb (Z.eqb n 0)
  | JStr s => negb (jsstring_eqb s [])
  | _ => true
  end.

(** The scan of loadContract over the names of the artifacts directory: the
    abi of the first document whose address is the wanted one, letter case
    apart.  The scan stops at that document, whatever its abi. *)
Fixpoint find_by_address (dir : jsstring) (fs : files) (names : list jsstring)
    (address : jsstring) : completion (option json) :=
  match names with
  | [] => Return None
  | file :: names' =>
      if endsWith file (js ".json") then
        match fs !! path_join dir file with
        | Some artifact =>
            bind (prop artifact (js "address")) (fun a =>
              match a with
              | Some (JStr s) =>
                  if negb (jsstring_eqb s [])
                     && jsstring_eqb (toLowerCase s) (toLowerCase address)
                  then prop artifact (js "abi")
                  else find_by_address dir fs names' address
              | Some v =>
                  if truthy v
                  then Throw (js "artifact.address.toLowerCase is not a function")
                  else find_by_address dir fs names' address
              | None => find_by_address dir fs names' address
              end)
        | None =>
            Throw (js "ENOENT: no such file or directory, open '"
                   ++ path_join dir file ++ js "'")
        end
      else find_by_address dir fs names' address
  end.

(** loadContract of interact-contract.js.  [readdir] lists the names in the
    artifacts directory, in the order the file system gives them. *)
Definition loadContract (dirname : jsstring) (readdir : list jsstring) (fs : files)
    (contractNameOrAddress : jsstring) : completion loaded :=
  let artifactsDir := path_join dirname (js "artifacts") in
  if startsWith contractNameOrAddress (js "0x") then
    bind (find_by_address artifactsDir fs readdir contractNameOrAddress) (fun abi =>
      match abi with
      | Some a =>
          if truthy a
          then Return {| address := Some (JStr contractNameOrAddress); abi := Some a |}
          else Throw (js "Could not find ABI for contract at " ++ contractNameOrAddress)
      | None =>
          Throw (js "Could not find ABI for contract at " ++ contractNameOrAddress)
      end)
  else
    let artifactPath := path_join artifactsDir (contractNameOrAddress ++ js ".json") in
    match fs !! artifactPath with
    | None => Throw (js "Contract artifacts not found for " ++ contractNameOrAddress)
    | Some artifact =>
        bind (prop artifact (js "address")) (fun address =>
        bind (prop artifact (js "abi")) (fun abi =>
        Return {| address := address; abi := abi |}))
    end.

End ArtifactStore.

(** ** Deployment Executor *)

Module DeploymentExecutor.

(** The transaction receipt, as far as the executors read it. *)
Record receipt := {
  contractAddress : option jsstring
}.

(** [!receipt.contractAddress]: null, undefined and the empty string. *)
Definition no_address (r : receipt) : bool :=
  match contractAddress r with
  | None => true
  | Some a => jsstring_eqb a []
  end.

Definition address_of (r : receipt) : jsstring :=
  match contractAddress r with
  | None => []
  | Some a => a
  end.

(** The result document of a deployment; a field that is not set is
    [None]. *)
Record deployment_result := {
  success : bool;
  address : option jsstring;
  transactionHash : option jsstring;
  error : option jsstring;
  contractName : option jsstring;
  chainId : option Z;
  explorerUrl : option jsstring;
  artifactPath : option jsstring
}.

Definition failure (message : jsstring) (hash : option jsstring) : deployment_result :=
  {| success := false; address := None; transactionHash := hash;
     error := Some message; contractName := None; chainId := None;
     explorerUrl := None; artifactPath := None |}.

(** The artifact document that the generated deploy script writes. *)
Definition script_artifact (CONTRACT_NAME : jsstring) (abi : json)
    (contractAddress hash : jsstring) : json :=
  JObj [(js "contractName", JStr CONTRACT_NAME);
        (js "address", JStr contractAddress);
        (js "abi", abi);
        (js "transactionHash", JStr hash);
        (js "network", JStr (js "monad-testnet"));
        (js "chainId", JNum 10143);
        (js "explorerUrl", JStr (js "https://explorer.testnet.monad.xyz/tx/" ++ hash))].

(** The result document of a confirmed deployment. *)
Definition deployed_result (CONTRACT_NAME contractAddress hash : jsstring)
    (artifactPath : option jsstring) : deployment_result :=
  {| success := true;
     address := Some contractAddress;
     transactionHash := Some hash;
     error := None;
     contractName := Some CONTRACT_NAME;
     chainId := Some 10143%Z;
     explorerUrl := Some (js "https://explorer.testnet.monad.xyz/tx/" ++ hash);
     artifactPath := artifactPath |}.

Section Chain.

(** The wallet client and the public client (viem), and the compile step.
    A rejected promise is a [Throw] with the error text. *)
Variable account : Type.
Variable privateKeyToAccount : jsstring -> completion account.
Variable walletDeployContract :
  account -> json -> jsstring -> list json -> option Z -> completion jsstring.
Variable waitForTransactionReceipt : jsstring -> completion receipt.

(** The file system of Node, and the path of the script itself. *)
Variable disk : Type.
Variable node_fs : FileSystem.calls disk.
Variable __filename : jsstring.

(** deployContract of the deploy script that index.ts generates.
    [compile] is the outcome of the compile step of the script: abi and
    bytecode, or the error text of its failure document.  The script prints
    its result document; here it is the value returned, with the disk as
    the run leaves it.  After a success the script deletes itself with
    [fs.unlinkSync(__filename)] from a timer, where an error is ignored.  An
    error of the artifact step is caught by the handler of the whole body,
    which prints a failure with the text of the error and nothing else. *)

Definition script_deployContract (tmpdir : jsstring) (fs : disk)
    (PRIVATE_KEY : option jsstring)
    (compile : completion (json * jsstring))
    (CONTRACT_NAME : jsstring) (CONSTRUCTOR_ARGS : list json)
    (SAVE_ARTIFACTS : bool) : disk * deployment_result :=
  match PRIVATE_KEY with
  | None => (fs, failure (js "PRIVATE_KEY not found in env.js") None)
  | Some [] => (fs, failure (js "PRIVATE_KEY not found in env.js") None)
  | Some key =>
      match compile with
      | Throw e => (fs, failure e None)
      | Return (abi, bytecode) =>
          let privateKey := if startsWith key (js "0x") then key else js "0x" ++ key in
          match privateKeyToAccount privateKey with
          | Throw e => (fs, failure e None)
          | Return account =>
              match walletDeployContract account abi bytecode CONSTRUCTOR_ARGS None with
              | Throw e => (fs, failure (js "Transaction failed: " ++ e) None)
              | Return hash =>
                  match waitForTransactionReceipt hash with
                  | Throw e =>
                      (fs, failure (js "Failed to get transaction receipt: " ++ e)
                                   (Some hash))
                  | Return receipt =>
                      if no_address receipt then
                        (fs, failure
                               (js "Contract deployment failed - no contract address in receipt")
                               (Some hash))
                      else
                        let result :=
                          deployed_result CONTRACT_NAME (address_of receipt) hash in
                        if SAVE_ARTIFACTS then
                          let artifactsDir :=
                            ArtifactStore.path_join tmpdir (js "monad-deployments") in
                          let artifactPath :=
                            ArtifactStore.path_join artifactsDir (CONTRACT_NAME ++ js ".json") in
                          let saved :=
                            FileSystem.save_document node_fs fs artifactsDir artifactPath
                              (script_artifact CONTRACT_NAME abi (address_of receipt) hash) in
                          match snd saved with
                          | Throw e => (fst saved, failure e None)
                          | Return _ =>
                              (fst (FileSystem.unlinkSync node_fs (fst saved) __filename),
                               result (Some artifactPath))
                          end
                        else
                          (fst (FileSystem.unlinkSync node_fs fs __filename), result None)
                  end
              end
          end
      end
  end.

(** deployContract of contract-deployer.ts (embedded in
    simple-mcp-plugin-v2.cjs): it returns the address and the hash, or
    throws. *)
Variable encodeFunctionData : json -> list json -> completion jsstring.
Variable estimateGas : account -> jsstring -> completion Z.
Variable gasWithBuffer : Z -> Z.

Definition is_hex (c : ascii) : bool :=
  is_digit c || between 97 102 c || between 65 70 c.

(** [privateKey.replace(/^0x/, '')] *)
Definition normalizeKey (privateKey : jsstring) : jsstring :=
  match strip_prefix (js "0x") privateKey with
  | Some rest => rest
  | None => privateKey
  end.

(** [/^[0-9a-fA-F]{64}$/.test(normalizedKey)] *)
Definition key_format_ok (normalizedKey : jsstring) : bool :=
  Nat.eqb (length normalizedKey) 64 && forallb is_hex normalizedKey.

(** [bytecode + (constructorArgs.length > 0 ? encodeFunctionData(...).slice(2) : '')] *)
Definition deployment_data (abi : json) (bytecode : jsstring)
    (constructorArgs : list json) : completion jsstring :=
  match constructorArgs with
  | [] => Return bytecode
  | _ => bind (encodeFunctionData abi constructorArgs)
              (fun data => Return (bytecode ++ drop 2 data))
  end.

(** The body of the try block. *)
Definition deploy_steps (account0 : account) (abi : json) (bytecode : jsstring)
    (constructorArgs : list json) : completion (jsstring * jsstring) :=
  bind (deployment_data abi bytecode constructorArgs) (fun deploymentData =>
  bind (estimateGas account0 deploymentData) (fun gasEstimate =>
  bind (walletDeployContract account0 abi bytecode constructorArgs
          (Some (gasWithBuffer gasEstimate))) (fun hash =>
  bind (waitForTransactionReceipt hash) (fun receipt =>
  if no_address receipt
  then Throw (js "Contract deployment failed - no contract address in receipt")
  else Return (address_of receipt, hash))))).

Definition deployContract (abi : json) (bytecode : jsstring) (privateKey : jsstring)
    (constructorArgs : list json) : completion (jsstring * jsstring) :=
  match privateKey with
  | [] => Throw (js "Private key is required for deployment. Please check your .env file or pass a private key parameter.")
  | _ =>
      let normalizedKey := normalizeKey privateKey in
      if negb (key_format_ok normalizedKey)
      then Throw (js "Invalid private key format. The private key must be a 64-character hex string.")
      else
        bind (privateKeyToAccount (js "0x" ++ normalizedKey)) (fun account0 =>
        match deploy_steps account0 abi bytecode constructorArgs with
        | Return r => Return r
        | Throw e => Throw (js "Deployment error: " ++ e)
        end)
  end.

End Chain.

(** A failure keeps the hash of the transaction when its error payload
    holds it: a result document has it in [transactionHash], a thrown error
    has it in its message. *)
Definition document_keeps (r : deployment_result) (hash : jsstring) : Prop :=
  success r = false /\ transactionHash r = Some hash.

Definition error_keeps {A : Type} (c : completion A) (hash : jsstring) : Prop :=
  exists m, c = Throw m /\ includes m hash = true.

End DeploymentExecutor.

(** ** Token Transfer Batch Runner *)

Module TokenTransfer.

(** One entry of a batch outcome: a sent entry has [txHash], a failed one
    has [error]. *)
Record entry := {
  to : jsstring;
  txHash : option jsstring;
  error : option jsstring
}.

Definition sent_entry (recipient hash : jsstring) : entry :=
  {| to := recipient; txHash := Some hash; error := None |}.

Definition failed_entry (recipient message : jsstring) : entry :=
  {| to := recipient; txHash := None; error := Some message |}.

(** The value sendTokens returns: [failed] is undefined ([None]) when no
    transfer failed. *)
Record batch := {
  success : bool;
  sent : list entry;
  failed : option (list entry)
}.

(** What [require('../env.js')] exports. *)
Record env_file := {
  PRIVATE_KEY : option jsstring;
  RPC_URL : option jsstring
}.

(** [String(v)] *)
Definition show (v : js_value) : jsstring :=
  match v with
  | JsString s => s
  | JsUndefined => js "undefined"
  | JsNull => js "null"
  | JsOther shown => shown
  end.

(** [r.toLowerCase()] on an element of the recipients array: a TypeError on
    a value that is not a string. *)
Definition lower_value (r : js_value) : completion jsstring :=
  match r with
  | JsString s => Return (toLowerCase s)
  | JsUndefined => Throw (js "Cannot read properties of undefined (reading 'toLowerCase')")
  | JsNull => Throw (js "Cannot read properties of null (reading 'toLowerCase')")
  | JsOther _ => Throw (js "r.toLowerCase is not a function")
  end.

(** [recipients.map(r => r.toLowerCase())] *)
Fixpoint normalize (recipients : list js_value) : completion (list jsstring) :=
  match recipients with
  | [] => Return []
  | r :: rest =>
      bind (lower_value r) (fun l =>
      bind (normalize rest) (fun ls => Return (l :: ls)))
  end.

Section Network.

(** ethers: the address check, the wallet constructor, and the token
    contract on the chain.  [transfer] submits a transaction, [wait] waits
    for its receipt and gives the hash of the receipt; each can fail, and
    each moves the chain to a new state. *)
Variable isAddress : jsstring -> bool.
Variable newWallet : jsstring -> completion jsstring.
Variable chain : Type.
Variable tx : Type.
Variable transfer : chain -> jsstring -> Z -> chain * completion tx.
Variable wait : chain -> tx -> chain * completion jsstring.

(** The chain, and the recipients of the transfer calls made so far. *)
Record world := {
  state : chain;
  submitted : list jsstring
}.

(** [const tx = await tokenContract.transfer(recipient, amount);
     const receipt = await tx.wait();] gives [receipt.hash]. *)
Definition attempt (w : world) (recipient : jsstring) (amount : Z)
    : world * completion jsstring :=
  let (c1, r1) := transfer (state w) recipient amount in
  let w1 := {| state := c1; submitted := submitted w ++ [recipient] |} in
  match r1 with
  | Throw e => (w1, Throw e)
  | Return t =>
      let (c2, r2) := wait c1 t in
      ({| state := c2; submitted := submitted w1 |}, r2)
  end.

(** The loop over the recipients, with the two arrays it pushes to. *)
Fixpoint transfer_loop (w : world) (recipients : list jsstring) (amount : Z)
    (successful failed : list entry) : world * list entry * list entry :=
  match recipients with
  | [] => (w, successful, failed)
  | recipient :: rest =>
      match attempt w recipient amount with
      | (w', Return hash) =>
          transfer_loop w' rest amount (successful ++ [sent_entry recipient hash]) failed
      | (w', Throw e) =>
          transfer_loop w' rest amount successful (failed ++ [failed_entry recipient e])
      end
  end.

(** The end of sendTokens: the loop and the value returned. *)
Definition run_batch (w : world) (recipients : list jsstring) (amount : Z)
    : world * completion batch :=
  let '(w', successful, failed) := transfer_loop w recipients amount [] [] in
  match successful with
  | [] => (w', Throw (js "All transfers failed"))
  | _ =>
      (w', Return {| success := true;
                     sent := successful;
                     failed := match failed with [] => None | _ => Some failed end |})
  end.

(** The strict checks on one recipient string. *)
Definition check_recipient (recipient : jsstring) : completion unit :=
  if negb (startsWith recipient (js "0x"))
  then Throw (js "Invalid recipient: " ++ recipient ++ js " - must start with 0x")
  else if negb (Nat.eqb (length recipient) 42)
  then Throw (js "Invalid recipient: " ++ recipient
              ++ js " - must be 42 characters long (including 0x prefix)")
  else if negb (isAddress recipient)
  then Throw (js "Invalid recipient: " ++ recipient ++ js " - must be a valid EVM address")
  else Return tt.

Fixpoint check_recipients (recipients : list jsstring) : completion unit :=
  match recipients with
  | [] => Return tt
  | recipient :: rest => bind (check_recipient recipient) (fun _ => check_recipients rest)
  end.

(** [!tokenAddress || !ethers.isAddress(tokenAddress)] *)
Definition bad_token (tokenAddress : jsstring) : bool :=
  jsstring_eqb tokenAddress [] || negb (isAddress tokenAddress).

(** The private key of env.js, as sendTokens loads it. *)
Definition load_env (env : completion env_file) : completion jsstring :=
  match env with
  | Throw e => Throw (js "Failed to load env.js: " ++ e)
  | Return f =>
      match PRIVATE_KEY f with
      | Some (c :: k) => Return (c :: k)
      | _ => Throw (js "Failed to load env.js: No private key found in env.js")
      end
  end.

(** sendTokens of multi-tool-plugin-v2.cjs, up to the loop: the recipients
    to send to, in lower case, or the error thrown.  The reads of symbol,
    decimals and balance that follow are in a try block of their own and
    only feed the log. *)
Definition validate (env : completion env_file) (tokenAddress : jsstring)
    (recipients : list js_value) (amount : Z) : completion (list jsstring) :=
  bind (load_env env) (fun key =>
  bind (newWallet key) (fun _ =>
  if bad_token tokenAddress
  then Throw (js "Invalid token address: " ++ tokenAddress)
  else match recipients with
  | [] => Throw (js "Recipients must be a non-empty array of addresses")
  | _ =>
      bind (normalize recipients) (fun normalizedRecipients =>
      bind (check_recipients normalizedRecipients) (fun _ =>
      if (amount <=? 0)%Z
      then Throw (js "Amount must be greater than 0")
      else Return normalizedRecipients))
  end)).

Definition sendTokens (env : completion env_file) (w : world)
    (tokenAddress : jsstring) (recipients : list js_value) (amount : Z)
    : world * completion batch :=
  match validate env tokenAddress recipients amount with
  | Throw e => (w, Throw e)
  | Return normalizedRecipients => run_batch w normalizedRecipients amount
  end.

(** sendTokens of the first multi-tool plugin (unnamed part 11): the wallet
    is the shared one, and the recipients are checked and used as given. *)
Definition check_value (recipient : js_value) : completion jsstring :=
  match recipient with
  | JsString s => bind (check_recipient s) (fun _ => Return s)
  | v => Throw (js "Invalid recipient: " ++ show v ++ js " - must be a string")
  end.

Fixpoint check_values (recipients : list js_value) : completion (list jsstring) :=
  match recipients with
  | [] => Return []
  | r :: rest =>
      bind (check_value r) (fun s =>
      bind (check_values rest) (fun ss => Return (s :: ss)))
  end.

Definition validate_v1 (tokenAddress : jsstring) (recipients : list js_value)
    (amount : Z) : completion (list jsstring) :=
  if bad_token tokenAddress
  then Throw (js "Invalid token address: " ++ tokenAddress)
  else match recipients with
  | [] => Throw (js "Recipients must be a non-empty array of addresses")
  | _ =>
      bind (check_values recipients) (fun checked =>
      if (amount <=? 0)%Z
      then Throw (js "Amount must be greater than 0")
      else Return checked)
  end.

Definition sendTokens_v1 (w : world) (tokenAddress : jsstring)
    (recipients : list js_value) (amount : Z) : world * completion batch :=
  match validate_v1 tokenAddress recipients amount with
  | Throw e => (w, Throw e)
  | Return checked => run_batch w checked amount
  end.

(** The send-token handler of multi-tool-plugin-v2.cjs does not call
    sendTokens: it has a loop of its own, which checks each recipient inside
    the try block of its transfer.  The reads of the token contract are
    functions of the state of the chain. *)
Variable decimals : chain -> completion Z.
Variable symbol : chain -> completion jsstring.
Variable balanceOf : chain -> jsstring -> completion Z.
Variable parseUnits : jsstring -> Z -> completion Z.
Variable formatUnits : Z -> Z -> jsstring.

(** An element of [sent] in the response of the handler. *)
Record transfer_record := {
  tr_to : jsstring;
  tr_amount : jsstring;
  tr_symbol : jsstring;
  tr_txHash : jsstring;
  tr_explorerUrl : jsstring
}.

(** The response document of the handler (success, error, sent, failed); a
    field that is not set is [None]. *)
Record response := {
  r_success : bool;
  r_error : option jsstring;
  r_sent : option (list transfer_record);
  r_failed : option (list entry)
}.

Definition refusal (message : jsstring) : response :=
  {| r_success := false; r_error := Some message; r_sent := None; r_failed := None |}.

(** The checks at the start of the try block of one recipient. *)
Definition check_inline (recipient : jsstring) : completion unit :=
  if negb (startsWith recipient (js "0x"))
  then Throw (js "Invalid recipient: must start with 0x")
  else if negb (Nat.eqb (length recipient) 42)
  then Throw (js "Invalid recipient: must be 42 characters long (including 0x prefix)")
  else if negb (isAddress recipient)
  then Throw (js "Invalid recipient: must be a valid EVM address")
  else Return tt.

Fixpoint handler_loop (w : world) (recipients : list jsstring) (amount dec : Z)
    (sym : jsstring) (successful : list transfer_record) (failed : list entry)
    : world * list transfer_record * list entry :=
  match recipients with
  | [] => (w, successful, failed)
  | recipient :: rest =>
      match check_inline recipient with
      | Throw e =>
          handler_loop w rest amount dec sym successful
            (failed ++ [failed_entry recipient e])
      | Return _ =>
          match attempt w recipient amount with
          | (w', Return hash) =>
              handler_loop w' rest amount dec sym
                (successful ++ [{| tr_to := recipient;
                                   tr_amount := formatUnits amount dec;
                                   tr_symbol := sym;
                                   tr_txHash := hash;
                                   tr_explorerUrl :=
                                     js "https://explorer.testnet.monad.xyz/tx/" ++ hash |}])
                failed
          | (w', Throw e) =>
              handler_loop w' rest amount dec sym successful
                (failed ++ [failed_entry recipient e])
          end
      end
  end.

(** The handler, for an input that has passed the schema of the tool:
    [tokenAddress] is a string, [recipients] an array, [amount] a string or
    a number, here by its [toString()]. *)
Definition send_token_steps (env : completion env_file) (w : world)
    (tokenAddress : jsstring) (recipients : list js_value) (amount : jsstring)
    : completion (world * response) :=
  bind (load_env env) (fun key =>
  bind (newWallet key) (fun walletAddress =>
  bind (decimals (state w)) (fun dec =>
  let sym := match symbol (state w) with Return s => s | Throw _ => js "UNKNOWN" end in
  match parseUnits amount dec with
  | Throw e => Return (w, refusal (js "Invalid amount format: " ++ e))
  | Return parsed =>
      bind (normalize recipients) (fun normalizedRecipients =>
      bind (balanceOf (state w) walletAddress) (fun senderBalance =>
      let totalNeeded := (parsed * Z.of_nat (length recipients))%Z in
      if (senderBalance <? totalNeeded)%Z
      then Return (w, refusal (js "Insufficient token balance. You have "
                               ++ formatUnits senderBalance dec ++ js " " ++ sym
                               ++ js " but need " ++ formatUnits totalNeeded dec
                               ++ js " " ++ sym ++ js " for all transfers."))
      else
        let '(w', successful, failed) :=
          handler_loop w normalizedRecipients parsed dec sym [] [] in
        match successful, failed with
        | [], _ :: _ =>
            Return (w', {| r_success := false;
                           r_error := Some (js "All transfers failed");
                           r_sent := None;
                           r_failed := Some failed |})
        | _, _ =>
            Return (w', {| r_success := true;
                           r_error := None;
                           r_sent := Some successful;
                           r_failed := match failed with [] => None | _ => Some failed end |})
        end))
  end))).

Definition send_token (env : completion env_file) (w : world)
    (tokenAddress : jsstring) (recipients : list js_value) (amount : jsstring)
    : world * response :=
  match tokenAddress with
  | [] => (w, refusal (js "Missing required parameters: tokenAddress, recipients, and amount"))
  | _ =>
      match send_token_steps env w tokenAddress recipients amount with
      | Return r => r
      | Throw e => (w, refusal (js "Token transfer failed: " ++ e))
      end
  end.

(** What the loop of the handler does with each recipient, in order: it is
    refused by the checks, or the transfer is attempted. *)
Inductive fate :=
| Refused (message : jsstring)
| Attempted (result : completion jsstring).

Fixpoint fates (w : world) (recipients : list jsstring) (amount : Z)
    : list (jsstring * fate) :=
  match recipients with
  | [] => []
  | recipient :: rest =>
      match check_inline recipient with
      | Throw e => (recipient, Refused e) :: fates w rest amount
      | Return _ =>
          (recipient, Attempted (snd (attempt w recipient amount)))
          :: fates (fst (attempt w recipient amount)) rest amount
      end
  end.

Fixpoint after_handler_loop (w : world) (recipients : list jsstring) (amount : Z) : world :=
  match recipients with
  | [] => w
  | recipient :: rest =>
      match check_inline recipient with
      | Throw _ => after_handler_loop w rest amount
      | Return _ => after_handler_loop (fst (attempt w recipient amount)) rest amount
      end
  end.

Definition well_formed (recipient : jsstring) : bool :=
  match check_inline recipient with Return _ => true | Throw _ => false end.

Definition failure_of (f : jsstring * fate) : list entry :=
  match snd f with
  | Refused e => [failed_entry (fst f) e]
  | Attempted (Throw e) => [failed_entry (fst f) e]
  | Attempted (Return _) => []
  end.

Definition success_of (dec : Z) (sym : jsstring) (amount : Z) (f : jsstring * fate)
    : list transfer_record :=
  match snd f with
  | Attempted (Return hash) =>
      [{| tr_to := fst f;
          tr_amount := formatUnits amount dec;
          tr_symbol := sym;
          tr_txHash := hash;
          tr_explorerUrl := js "https://explorer.testnet.monad.xyz/tx/" ++ hash |}]
  | _ => []
  end.

(** What happens to each recipient of the loop, in order: the hash of the
    receipt, or the message of the error that was caught. *)
Fixpoint outcomes (w : world) (recipients : list jsstring) (amount : Z)
    : list (jsstring * completion jsstring) :=
  match recipients with
  | [] => []
  | recipient :: rest =>
      (recipient, snd (attempt w recipient amount))
      :: outcomes (fst (attempt w recipient amount)) rest amount
  end.

(** The world after the loop. *)
Fixpoint after_loop (w : world) (recipients : list jsstring) (amount : Z) : world :=
  match recipients with
  | [] => w
  | recipient :: rest => after_loop (fst (attempt w recipient amount)) rest amount
  end.

Definition entry_of (o : jsstring * completion jsstring) : entry :=
  match snd o with
  | Return hash => sent_entry (fst o) hash
  | Throw e => failed_entry (fst o) e
  end.

Definition is_sent (e : entry) : bool :=
  match txHash e with Some _ => true | None => false end.

Definition is_failed (e : entry) : bool := negb (is_sent e).

(** A recipient that the strict checks reject, once in lower case. *)
Definition malformed (recipient : js_value) : Prop :=
  match recipient with
  | JsString s => check_recipient (toLowerCase s) <> Return tt
  | _ => True
  end.

(** The same for the first multi-tool plugin, which checks the recipient
    as given. *)
Definition malformed_v1 (recipient : js_value) : Prop :=
  match recipient with
  | JsString s => check_recipient s <> Return tt
  | _ => True
  end.

(** The strict format. *)
Definition strict (r : jsstring) : Prop :=
  r <> [] /\ startsWith r (js "0x") = true /\ length r = 42 /\ isAddress r = true.

End Network.

End TokenTransfer.

(** ** Instances for the examples

    Stand-ins for the third-party calls, used where a statement is
    evaluated on a concrete run. *)

Module Examples.

(** An address check that accepts the 0x-prefixed strings of 40
    hexadecimal digits (ethers.isAddress does, when the letters are all of
    one case). *)
Definition hexAddress (s : jsstring) : bool :=
  startsWith s (js "0x") && Nat.eqb (length s) 42
  && forallb DeploymentExecutor.is_hex (drop 2 s).

(** A chain that counts the transactions it has seen; a transfer to the
    burn address fails, every other one is confirmed with a hash made of
    the recipient. *)
Definition burn : jsstring := js "0x000000000000000000000000000000000000dead".

Definition countingTransfer (c : nat) (recipient : jsstring) (amount : Z)
    : nat * completion jsstring :=
  if jsstring_eqb recipient burn
  then (c, Throw (js "execution reverted"))
  else (S c, Return (js "tx:" ++ recipient)).

Definition countingWait (c : nat) (t : jsstring) : nat * completion jsstring :=
  (c, Return t).

Definition anyWallet (key : jsstring) : completion jsstring :=
  Return (js "0x00000000000000000000000000000000000000aa").

Definition env : completion TokenTransfer.env_file :=
  Return {| TokenTransfer.PRIVATE_KEY := Some (js "0x01"); TokenTransfer.RPC_URL := None |}.

Definition token : jsstring := js "0x00000000000000000000000000000000000000ff".
Definition alice : jsstring := js "0x00000000000000000000000000000000000000A1".
Definition bob : jsstring := js "0x00000000000000000000000000000000000000b2".
Definition upperPrefix : jsstring := js "0X00000000000000000000000000000000000000c3".

Definition start : TokenTransfer.world nat :=
  {| TokenTransfer.state := 0; TokenTransfer.submitted := [] |}.

Definition sendTokens :=
  TokenTransfer.sendTokens hexAddress anyWallet nat jsstring countingTransfer countingWait.

Definition eighteen (c : nat) : completion Z := Return 18%Z.
Definition mon (c : nat) : completion jsstring := Return (js "MON").
Definition rich (c : nat) (owner : jsstring) : completion Z := Return 1000000%Z.
Definition wholeUnits (amount : jsstring) (dec : Z) : completion Z :=
  Return (Z.of_nat (length amount)).
Definition plainUnits (amount dec : Z) : jsstring := js "n".

Definition send_token :=
  TokenTransfer.send_token hexAddress anyWallet nat jsstring countingTransfer countingWait
    eighteen mon rich wholeUnits plainUnits.

Definition sendTokens_v1 :=
  TokenTransfer.sendTokens_v1 hexAddress nat jsstring countingTransfer countingWait.

(** A compiler output with one warning and one contract, Bar. *)
Definition warning : CompilerAdapter.diagnostic :=
  {| CompilerAdapter.severity := js "warning";
     CompilerAdapter.message := js "SPDX license identifier not provided in source file.";
     CompilerAdapter.formattedMessage :=
       js "Warning: SPDX license identifier not provided in source file." |}.


Definition bar : CompilerAdapter.contract_output :=
  {| CompilerAdapter.abi := JArr []; CompilerAdapter.bytecode_object := js "6080" |}.

Definition warnedOutput (file : jsstring) : CompilerAdapter.solc_output :=
  {| CompilerAdapter.errors := Some [warning];
     CompilerAdapter.contracts := Some [(file, [(js "Bar", bar)])] |}.


(** A deployment whose transaction is confirmed with a receipt without
    contract address. *)
Definition key64 : jsstring :=
  js "0x0123456789abcdef0123456789abcdef0123456789abcdef0123456789abcdef".
Definition hash : jsstring := js "0x88df016429689c079f3b2f6ad39fa052532c56795b733da78a91ebe6a713944b".

Definition anyAccount (key : jsstring) : completion unit := Return tt.
Definition sendsHash (a : unit) (abi : json) (bytecode : jsstring) (args : list json)
    (gas : option Z) : completion jsstring := Return hash.
Definition emptyReceipt (h : jsstring) : completion DeploymentExecutor.receipt :=
  Return {| DeploymentExecutor.contractAddress := None |}.
Definition noData (abi : json) (args : list json) : completion jsstring := Return (js "0x").
Definition someGas (a : unit) (data : jsstring) : completion Z := Return 21000%Z.
Definition tenth (g : Z) : Z := (g + g / 10)%Z.

(** A disk that holds the documents written, where no call fails. *)
Definition memory : FileSystem.calls ArtifactStore.files :=
  {| FileSystem.existsSync := fun d p => false;
     FileSystem.mkdirSync := fun d p => (d, Return tt);
     FileSystem.writeFileSync := fun d p document => (<[p := document]> d, Return tt);
     FileSystem.unlinkSync := fun d p => (delete p d, Return tt) |}.

Definition scriptPath : jsstring := js "/srv/temp-deploy-script.js".


Definition licensed : jsstring :=
  js "// SPDX-License-Identifier: MIT\ncontract C {}".

End Examples.

(** ** Contract names *)

Module ContractName.

(** [[a-zA-Z0-9_]] *)
Definition is_word (c : ascii) : bool :=
  between 97 122 c || between 65 90 c || between 48 57 c || Nat.eqb (code c) 95.

(** [/contract\s+([a-zA-Z0-9_]+)/] *)
Definition contractRegex : regex :=
  lits (js "contract") ++ [Plus is_space; Plus is_word].

(** [source.match(contractRegex)], reduced to element 1, the capture (atom
    9 of the expression). *)
Definition contractMatch (source : jsstring) : option jsstring :=
  match search contractRegex source with
  | Some (_, segs, _) => Some (group 9 1 segs)
  | None => None
  end.

(** extractContractName of the plugins (fixed-solc-plugin.cjs,
    multi-tool-plugin-v2.cjs, simple-mcp-plugin-v2.cjs):
    [contractMatch && contractMatch[1] ? contractMatch[1] : 'SimpleContract']. *)
Definition extractContractName (source : jsstring) : jsstring :=
  match contractMatch source with
  | Some (c :: name) => c :: name
  | _ => js "SimpleContract"
  end.

(** extractContractName of contract-deployer.ts, which throws where the
    plugins fall back. *)
Module Deployer.

Definition extractContractName (source : jsstring) : completion jsstring :=
  match contractMatch source with
  | Some (c :: name) => Return (c :: name)
  | _ => Throw (js "Could not detect contract name from source code")
  end.

End Deployer.

(** A contract declaration in a text: the keyword, white space and a name
    of word characters. *)
Definition declaration (w name : jsstring) : jsstring := js "contract" ++ w ++ name.

Definition word (name : jsstring) : Prop := name <> [] /\ forallb is_word name = true.

Definition spaces_of (w : jsstring) : Prop := w <> [] /\ forallb is_space w = true.

(** The text does not go on with a word character. *)
Definition word_ends (rest : jsstring) : Prop :=
  match rest with
  | [] => True
  | c :: _ => is_word c = false
  end.

(** The text holds a contract declaration. *)
Definition declares (s : jsstring) : Prop :=
  exists before w name after,
    s = before ++ declaration w name ++ after /\ spaces_of w /\ word name.

End ContractName.

(** ** The deploy tool of the plugins *)

Module PluginDeploy.

(** What [factory.deploy(...)] of ethers gives: the contract, with its
    target address and the hash of its deployment transaction. *)
Record deployed := {
  target : jsstring;
  deploymentHash : jsstring
}.

(** A compiler that refuses the sources without the required directive. *)
Definition pinned (solc_compile : jsstring -> completion CompilerAdapter.solc_output)
    (source : jsstring) : completion CompilerAdapter.solc_output :=
  if includes source VersionNormalizer.requiredPragma
  then solc_compile source
  else Throw (js "source without pragma solidity 0.8.28;").

Section Ethers.

Variable solc_compile : jsstring -> completion CompilerAdapter.solc_output.
Variable factoryDeploy : json -> jsstring -> list json -> completion deployed.
Variable wait : deployed -> completion jsstring.

(** deployContract of fixed-solc-plugin.cjs, with the wallet of the
    plugin.  A compiled contract is an object and has an abi, so the checks
    [!compiledContract] and [abi.length] pass.  An inherited member passes
    the first check too, and has no [evm]: reading its bytecode is a
    TypeError. *)
Definition deployContract (source : js_value) (constructorArgs : list json)
    : completion DeploymentExecutor.deployment_result :=
  let fixedSource := VersionNormalizer.forceVersion source in
  let contractName := ContractName.extractContractName fixedSource in
  bind (CompilerAdapter.FixedSolc.compileSolidity solc_compile fixedSource contractName)
       (fun compiledContract =>
  match compiledContract with
  | CompilerAdapter.FixedSolc.Member _ =>
      Throw (js "Cannot read properties of undefined (reading 'bytecode')")
  | CompilerAdapter.FixedSolc.Contract c =>
      let abi := CompilerAdapter.abi c in
      let bytecode := CompilerAdapter.bytecode_object c in
      match bytecode with
      | [] => Throw (js "Bytecode is empty")
      | _ =>
          bind (factoryDeploy abi bytecode constructorArgs) (fun deployedContract =>
          bind (wait deployedContract) (fun transactionHash =>
          let contractAddress := target deployedContract in
          Return {| DeploymentExecutor.success := true;
                    DeploymentExecutor.address := Some contractAddress;
                    DeploymentExecutor.transactionHash := Some transactionHash;
                    DeploymentExecutor.error := None;
                    DeploymentExecutor.contractName := Some contractName;
                    DeploymentExecutor.chainId := None;
                    DeploymentExecutor.explorerUrl :=
                      Some (js "https://testnet.monadexplorer.com/address/"
                            ++ contractAddress);
                    DeploymentExecutor.artifactPath := None |}))
      end
  end).

(** The handler of the deploy-contract tool, for an input that has passed
    the schema of the tool: [sourceCode] is a string, [constructorArgs] an
    array when it is given. *)
Definition deploy_contract_tool (sourceCode : jsstring)
    (constructorArgs : option (list json)) : DeploymentExecutor.deployment_result :=
  match sourceCode with
  | [] => DeploymentExecutor.failure (js "Missing source code in request") None
  | _ =>
      match deployContract (JsString sourceCode)
              (match constructorArgs with Some args => args | None => [] end) with
      | Return result => result
      | Throw e => DeploymentExecutor.failure (js "Server error: " ++ e) None
      end
  end.

End Ethers.

End PluginDeploy.

(** ** compileAndDeploy of contract-deployer.ts *)

Module DeployerPipeline.

(** The value compileAndDeploy returns. *)
Record deployment := {
  address : jsstring;
  transactionHash : jsstring;
  abi : json;
  contractName : jsstring;
  artifactPath : option jsstring
}.

(** The artifact document of saveContractArtifacts. *)
Definition artifact (contractName : jsstring) (abi : json) (address : jsstring) : json :=
  JObj [(js "contractName", JStr contractName);
        (js "address", JStr address);
        (js "abi", abi);
        (js "network", JStr (js "monad-testnet"))].

Section Pipeline.

Variable solc_compile : jsstring -> completion CompilerAdapter.solc_output.
Variable account : Type.
Variable privateKeyToAccount : jsstring -> completion account.
Variable walletDeployContract :
  account -> json -> jsstring -> list json -> option Z -> completion jsstring.
Variable waitForTransactionReceipt : jsstring -> completion DeploymentExecutor.receipt.
Variable encodeFunctionData : json -> list json -> completion jsstring.
Variable estimateGas : account -> jsstring -> completion Z.
Variable gasWithBuffer : Z -> Z.

(** [options.contractName || extractContractName(sourceCode)] *)
Definition chosen_name (sourceCode : jsstring) (contractName : option jsstring)
    : completion jsstring :=
  match contractName with
  | Some (c :: name) => Return (c :: name)
  | _ => ContractName.Deployer.extractContractName sourceCode
  end.

(** The steps of the try block before the artifact step. *)
Definition compile_and_deploy_steps (sourceCode privateKey : jsstring)
    (constructorArgs : list json) (contractName : option jsstring)
    : completion (jsstring * json * jsstring * jsstring) :=
  bind (chosen_name sourceCode contractName) (fun name =>
  bind (CompilerAdapter.ContractDeployer.compileSolidity solc_compile sourceCode name)
       (fun compiled =>
  bind (DeploymentExecutor.deployContract account privateKeyToAccount walletDeployContract
          waitForTransactionReceipt encodeFunctionData estimateGas gasWithBuffer
          (fst compiled) (snd compiled) privateKey constructorArgs) (fun deployed =>
  Return (name, fst compiled, fst deployed, snd deployed)))).

(** The file system of Node. *)
Variable disk : Type.
Variable node_fs : FileSystem.calls disk.

(** saveContractArtifacts, with its calls into the file system: the path
    of the document written. *)
Definition saveContractArtifacts (tmpdir : jsstring) (fs : disk)
    (contractName : jsstring) (abi : json) (address : jsstring)
    : disk * completion jsstring :=
  let artifactsDir := ArtifactStore.path_join tmpdir (js "monad-deployments") in
  let artifactPath := ArtifactStore.path_join artifactsDir (contractName ++ js ".json") in
  let saved :=
    FileSystem.save_document node_fs fs artifactsDir artifactPath
      (artifact contractName abi address) in
  match snd saved with
  | Throw e => (fst saved, Throw e)
  | Return _ => (fst saved, Return artifactPath)
  end.

(** compileAndDeploy: the artifact step is inside the try block, so an
    error of the file system is thrown with the prefix as well. *)
Definition compileAndDeploy (tmpdir : jsstring) (fs : disk)
    (sourceCode privateKey : jsstring) (constructorArgs : list json)
    (contractName : option jsstring) (saveArtifacts : bool)
    : disk * completion deployment :=
  match compile_and_deploy_steps sourceCode privateKey constructorArgs contractName with
  | Throw e => (fs, Throw (js "Contract compilation and deployment failed: " ++ e))
  | Return (name, abi0, address0, hash) =>
      if saveArtifacts
      then
        let saved := saveContractArtifacts tmpdir fs name abi0 address0 in
        match snd saved with
        | Throw e =>
            (fst saved, Throw (js "Contract compilation and deployment failed: " ++ e))
        | Return path =>
            (fst saved,
             Return {| address := address0; transactionHash := hash; abi := abi0;
                       contractName := name; artifactPath := Some path |})
        end
      else (fs, Return {| address := address0; transactionHash := hash; abi := abi0;
                          contractName := name; artifactPath := None |})
  end.

End Pipeline.

End DeployerPipeline.

(** ** The deploy script that index.ts writes *)

Module DeployScript.

Definition backtick : ascii := "`"%char.
Definition cr : ascii := "013"%char.

(** [args.sourceCode.replace(/`/g, '\\`')]: a backslash before every
    backtick. *)
Fixpoint escapeBackticks (s : jsstring) : jsstring :=
  match s with
  | [] => []
  | c :: s' =>
      if Ascii.eqb c backtick
      then backslash :: backtick :: escapeBackticks s'
      else c :: escapeBackticks s'
  end.

(** The string that a template literal stands for, from the characters
    between its backticks, as far as the escapes of backtick, backslash and
    dollar go: a carriage return (with the line feed after it) reads as a
    line feed.  [None] where the text is not such a string: a backtick ends
    the literal, a dollar with a brace starts a substitution, and the other
    escapes are left out. *)
Fixpoint cook (t : jsstring) : option jsstring :=
  match t with
  | [] => Some []
  | c :: t' =>
      if Ascii.eqb c backtick then None
      else if Ascii.eqb c "$" then
        match t' with
        | d :: _ => if Ascii.eqb d "{" then None else option_map (cons c) (cook t')
        | [] => Some [c]
        end
      else if Ascii.eqb c backslash then
        match t' with
        | d :: t'' =>
            if Ascii.eqb d backtick || Ascii.eqb d backslash || Ascii.eqb d "$"
            then option_map (cons d) (cook t'')
            else None
        | [] => None
        end
      else if Ascii.eqb c cr then
        match t' with
        | d :: t'' =>
            if Ascii.eqb d nl then option_map (cons nl) (cook t'')
            else option_map (cons nl) (cook t')
        | [] => Some [nl]
        end
      else option_map (cons c) (cook t')
  end.

(** A source that the script holds as it is: no backslash, no carriage
    return and no dollar before a brace. *)
Fixpoint plain (s : jsstring) : bool :=
  match s with
  | [] => true
  | c :: s' =>
      negb (Ascii.eqb c backslash) && negb (Ascii.eqb c cr)
      && negb (Ascii.eqb c "$" && match s' with d :: _ => Ascii.eqb d "{" | [] => false end)
      && plain s'
  end.

End DeployScript.

(** ** compileContract of the strict plugin *)

Module StrictCompiler.

(** What compileContract resolves to. *)
Record compiled := {
  name : jsstring;
  abi : json;
  bytecode : jsstring
}.

(** The check of the diagnostics: the formatted messages of the errors,
    joined; the text is tested, not the number of errors. *)
Definition check_errors (output : CompilerAdapter.solc_output) : completion unit :=
  match CompilerAdapter.errors output with
  | Some ds =>
      let errorMessages :=
        join [nl] (map CompilerAdapter.formattedMessage
                       (List.filter CompilerAdapter.is_error ds)) in
      match errorMessages with
      | [] => Return tt
      | _ => Throw (js "Compilation errors: " ++ errorMessages)
      end
  | None => Return tt
  end.

(** The first contract of the first file of the output.  [Object.keys] of
    an undefined value is a TypeError, which the try block reports as a
    failed compilation. *)
Definition find_contract (output : CompilerAdapter.solc_output) : completion compiled :=
  match CompilerAdapter.contracts output with
  | Some ((contractFile, (contractName, contract) :: _) :: _) =>
      Return {| name := contractName;
                abi := CompilerAdapter.abi contract;
                bytecode := js "0x" ++ CompilerAdapter.bytecode_object contract |}
  | Some ((contractFile, []) :: _) => Throw (js "No contract found in compiled output")
  | _ => Throw (js "Compilation failed: Cannot convert undefined or null to object")
  end.

(** compileContract of the strict plugin (embedded in
    simple-mcp-plugin-v2.cjs), from the compiler that loadRemoteVersion
    gives on; an exception of the compiler is reported as a failed
    compilation. *)
Definition compileContract (solc_compile : jsstring -> completion CompilerAdapter.solc_output)
    (source : jsstring) : completion compiled :=
  match solc_compile source with
  | Throw e => Throw (js "Compilation failed: " ++ e)
  | Return output => bind (check_errors output) (fun _ => find_contract output)
  end.

End StrictCompiler.

(** ** deploy-contract.js and the loaders of interact-contract.js *)

Module DeployContractJs.

Record compiled := {
  name : jsstring;
  abi : json;
  bytecode : jsstring
}.

(** What deployContract returns. *)
Record deployed := {
  d_name : jsstring;
  d_address : jsstring;
  d_transactionHash : jsstring;
  d_artifactPath : jsstring
}.

(** The artifact document of deploy-contract.js: [deployedAt] is the time
    of the call. *)
Definition artifact (name : jsstring) (abi : json) (contractAddress deployedAt : jsstring)
    : json :=
  JObj [(js "contractName", JStr name);
        (js "abi", abi);
        (js "address", JStr contractAddress);
        (js "deployedAt", JStr deployedAt)].

(** loadContractAbi of interact-contract.js. *)
Definition loadContractAbi (dirname : jsstring) (fs : ArtifactStore.files)
    (contractName : jsstring) : completion (option json) :=
  let artifactsDir := ArtifactStore.path_join dirname (js "artifacts") in
  let artifactPath := ArtifactStore.path_join artifactsDir (contractName ++ js ".json") in
  match fs !! artifactPath with
  | None => Throw (js "Contract artifacts not found: " ++ artifactPath)
  | Some artifacts => prop artifacts (js "abi")
  end.

Section Deploy.

(** The key store, the source files, [path.basename(contractPath, '.sol')],
    the compiler (by the name of its one source), the clients of viem and
    the clock. *)
Variable getPrivateKey : completion jsstring.
Variable readFile : jsstring -> completion jsstring.
Variable basename : jsstring -> jsstring.
Variable solc_compile : jsstring -> jsstring -> completion CompilerAdapter.solc_output.
Variable account : Type.
Variable privateKeyToAccount : jsstring -> completion account.
Variable walletDeployContract :
  account -> json -> jsstring -> list json -> option Z -> completion jsstring.
Variable waitForTransactionReceipt : jsstring -> completion DeploymentExecutor.receipt.
Variable now : jsstring.

Definition check_errors (output : CompilerAdapter.solc_output) : completion unit :=
  match CompilerAdapter.errors output with
  | Some ds =>
      if Nat.ltb 0 (length (List.filter CompilerAdapter.is_error ds))
      then Throw (js "Contract compilation failed")
      else Return tt
  | None => Return tt
  end.

(** [output.contracts[contractName][contractName]]: the file is named as
    the contract, without extension.  For a name that every object
    inherits and the output does not hold, [output.contracts[contractName]]
    is the inherited member, and its member of the same name is a function
    again, but for [__proto__], where it is the prototype of
    [Object.prototype]: null. *)
Definition lookup_contract (output : CompilerAdapter.solc_output) (contractName : jsstring)
    : completion (member CompilerAdapter.contract_output) :=
  match CompilerAdapter.contracts output with
  | None =>
      Throw (js "Cannot read properties of undefined (reading '" ++ contractName ++ js "')")
  | Some files =>
      match get contractName files with
      | Own cs => Return (get contractName cs)
      | Inherited =>
          if jsstring_eqb contractName (js "__proto__")
          then Return Missing
          else Return Inherited
      | Missing =>
          Throw (js "Cannot read properties of undefined (reading '" ++ contractName
                 ++ js "')")
      end
  end.

(** compileContract of deploy-contract.js.  An inherited member passes the
    check [!contractOutput] and has no [evm]: reading its bytecode is a
    TypeError. *)
Definition compileContract (contractPath : jsstring) : completion compiled :=
  bind (readFile contractPath) (fun contractSource =>
  let contractName := basename contractPath in
  bind (solc_compile contractName contractSource) (fun output =>
  bind (check_errors output) (fun _ =>
  bind (lookup_contract output contractName) (fun found =>
  match found with
  | Own contractOutput =>
      Return {| name := contractName;
                abi := CompilerAdapter.abi contractOutput;
                bytecode := js "0x" ++ CompilerAdapter.bytecode_object contractOutput |}
  | Inherited => Throw (js "Cannot read properties of undefined (reading 'bytecode')")
  | Missing => Throw (js "Contract " ++ contractName ++ js " not found in compiled output")
  end)))).

(** The steps of deployContract before the artifact is saved. *)
Definition deploy_steps (contractPath : jsstring) (constructorArgs : list json)
    : completion (compiled * jsstring * jsstring) :=
  bind getPrivateKey (fun privateKey =>
  bind (compileContract contractPath) (fun c =>
  let normalizedKey := DeploymentExecutor.normalizeKey privateKey in
  bind (privateKeyToAccount (js "0x" ++ normalizedKey)) (fun account0 =>
  bind (walletDeployContract account0 (abi c) (bytecode c) constructorArgs None) (fun hash =>
  bind (waitForTransactionReceipt hash) (fun receipt =>
  if DeploymentExecutor.no_address receipt
  then Throw (js "Contract deployment failed - no contract address in receipt")
  else Return (c, DeploymentExecutor.address_of receipt, hash)))))).

(** The file system of Node. *)
Variable disk : Type.
Variable node_fs : FileSystem.calls disk.

(** deployContract of deploy-contract.js.  The artifact step is inside the
    try block: an error of the file system is thrown again as it is. *)
Definition deployContract (dirname : jsstring) (fs : disk)
    (contractPath : jsstring) (constructorArgs : list json)
    : disk * completion deployed :=
  match deploy_steps contractPath constructorArgs with
  | Throw e => (fs, Throw e)
  | Return (c, contractAddress, hash) =>
      let artifactsDir := ArtifactStore.path_join dirname (js "artifacts") in
      let artifactPath := ArtifactStore.path_join artifactsDir (name c ++ js ".json") in
      let saved :=
        FileSystem.save_document node_fs fs artifactsDir artifactPath
          (artifact (name c) (abi c) contractAddress now) in
      match snd saved with
      | Throw e => (fst saved, Throw e)
      | Return _ =>
          (fst saved,
           Return {| d_name := name c; d_address := contractAddress;
                     d_transactionHash := hash; d_artifactPath := artifactPath |})
      end
  end.

End Deploy.

End DeployContractJs.

(** ** sendTokens of simple-mcp-plugin-v2.cjs and the handler of the first
    multi-tool plugin *)

Module TokenTools.
Import TokenTransfer.

(** [r.txHash] and [r.error] as conditions: set and not empty. *)
Definition has_hash (e : entry) : bool :=
  match txHash e with Some (_ :: _) => true | _ => false end.

Definition has_message (e : entry) : bool :=
  match error e with Some (_ :: _) => true | _ => false end.

(** The amount of a request: a string or a number (an integer here). *)
Inductive amount_input :=
| AmountString (s : jsstring)
| AmountNumber (n : Z).

(** What a handler answers: the value of sendTokens, or a failure with an
    error text. *)
Inductive answer :=
| Sent (b : batch)
| Failed (message : jsstring).

Section Network.

Variable isAddress : jsstring -> bool.
Variable newWallet : option jsstring -> completion jsstring.
Variable chain : Type.
Variable tx : Type.
Variable transfer : chain -> jsstring -> Z -> chain * completion tx.
Variable wait : chain -> tx -> chain * completion jsstring.
Variable parseUnits18 : jsstring -> completion Z.
Variable toBigInt : jsstring -> completion Z.

(** sendTokens of simple-mcp-plugin-v2.cjs checks each recipient with
    [ethers.isAddress] only, which is false on a value that is not a
    string. *)
Fixpoint check_addresses (recipients : list js_value) : completion (list jsstring) :=
  match recipients with
  | [] => Return []
  | JsString s :: rest =>
      if isAddress s
      then bind (check_addresses rest) (fun ss => Return (s :: ss))
      else Throw (js "Invalid recipient address: " ++ s)
  | v :: _ => Throw (js "Invalid recipient address: " ++ show v)
  end.

Definition validate (tokenAddress : jsstring) (recipients : list js_value) (amount : Z)
    : completion (list jsstring) :=
  if bad_token isAddress tokenAddress
  then Throw (js "Invalid token address: " ++ tokenAddress)
  else match recipients with
  | [] => Throw (js "Recipients must be a non-empty array of addresses")
  | _ =>
      bind (check_addresses recipients) (fun checked =>
      if (amount <=? 0)%Z
      then Throw (js "Amount must be greater than 0")
      else Return checked)
  end.

(** The loop, which pushes every outcome to one array. *)
Fixpoint transfer_results (w : world chain) (recipients : list jsstring) (amount : Z)
    (results : list entry) : world chain * list entry :=
  match recipients with
  | [] => (w, results)
  | recipient :: rest =>
      match attempt chain tx transfer wait w recipient amount with
      | (w', Return hash) =>
          transfer_results w' rest amount (results ++ [sent_entry recipient hash])
      | (w', Throw e) =>
          transfer_results w' rest amount (results ++ [failed_entry recipient e])
      end
  end.

Definition sendTokens (PRIVATE_KEY : option jsstring) (w : world chain)
    (tokenAddress : jsstring) (recipients : list js_value) (amount : Z)
    : world chain * completion batch :=
  match validate tokenAddress recipients amount with
  | Throw e => (w, Throw e)
  | Return checked =>
      match newWallet PRIVATE_KEY with
      | Throw e => (w, Throw e)
      | Return _ =>
          let '(w', results) := transfer_results w checked amount [] in
          let successful := List.filter has_hash results in
          let failed := List.filter has_message results in
          match successful with
          | [] => (w', Throw (js "All transfers failed"))
          | _ =>
              (w', Return {| success := true;
                             sent := List.filter has_hash results;
                             failed := match failed with [] => None | _ => Some failed end |})
          end
      end
  end.

(** The send-token handler of the first multi-tool plugin (unnamed part
    11), for an input that has passed the schema of the tool: a string
    amount in scientific or decimal notation is read with 18 decimals, any
    other string with [BigInt]. *)
Definition convert_amount (amount : amount_input) : completion Z :=
  match amount with
  | AmountString s =>
      if includes s (js "e") || includes s (js ".") then parseUnits18 s else toBigInt s
  | AmountNumber n => Return n
  end.

Definition send_token_v1 (w : world chain) (tokenAddress : jsstring)
    (recipients : list js_value) (amount : amount_input) : world chain * answer :=
  match tokenAddress with
  | [] => (w, Failed (js "Missing required parameters: tokenAddress, recipients, and amount"))
  | _ =>
      match convert_amount amount with
      | Throw e => (w, Failed (js "Invalid amount format: " ++ e))
      | Return a =>
          match sendTokens_v1 isAddress chain tx transfer wait w tokenAddress recipients a with
          | (w', Return result) => (w', Sent result)
          | (w', Throw e) => (w', Failed (js "Token transfer failed: " ++ e))
          end
      end
  end.

End Network.

End TokenTools.

(** ** check-contract-version.js *)

Module VersionCheck.
Import VersionNormalizer.

Fixpoint drop_spaces (s : jsstring) : jsstring :=
  match s with
  | c :: s' => if is_space c then drop_spaces s' else s
  | [] => []
  end.

(** [String.prototype.trim] *)
Definition trim (s : jsstring) : jsstring := rev (drop_spaces (rev (drop_spaces s))).

(** The result of checkVersion; a field that is not set is [None].  The
    field [fix] of the source is [fix_] here. *)
Record check_result := {
  valid : bool;
  error : option jsstring;
  fix_ : option jsstring;
  currentVersion : option jsstring;
  version : option jsstring
}.

Definition checkVersion (source : js_value) : check_result :=
  match usable source with
  | None =>
      {| valid := false;
         error := Some (js "Invalid input: source code must be a string");
         fix_ := None; currentVersion := None; version := None |}
  | Some s =>
      match pragmaMatch s with
      | None =>
          {| valid := false;
             error := Some (js "No pragma solidity statement found in contract");
             fix_ := Some (js "Add: pragma solidity 0.8.28;");
             currentVersion := None; version := None |}
      | Some capture =>
          let versionSpecifier := trim capture in
          if jsstring_eqb versionSpecifier (js "0.8.28")
          then {| valid := true; error := None; fix_ := None; currentVersion := None;
                  version := Some (js "0.8.28") |}
          else
            let replace_it :=
              js "Replace: pragma solidity " ++ versionSpecifier
              ++ js "; with pragma solidity 0.8.28;" in
            let fix0 :=
              if startsWith versionSpecifier (js "^") then replace_it
              else if includes versionSpecifier (js " - ")
              then js "Replace version range with exact version: pragma solidity 0.8.28;"
              else if startsWith versionSpecifier (js ">=") then replace_it
              else js "Change to: pragma solidity 0.8.28;" in
            {| valid := false;
               error := Some (js "Invalid Solidity version: " ++ versionSpecifier
                              ++ js ". Monad requires exactly version 0.8.28");
               fix_ := Some fix0;
               currentVersion := Some versionSpecifier;
               version := None |}
      end
  end.

Definition fixVersion (source : js_value) : completion jsstring :=
  match usable source with
  | None => Throw (js "Invalid input: source code must be a string")
  | Some s =>
      match pragmaMatch s with
      | Some _ => Return (replace_regex pragmaRegex pragmaGroups s requiredPragma)
      | None =>
          match spdxMatch s with
          | Some m => Return (replace_string s m (m ++ js "\npragma solidity 0.8.28;\n"))
          | None => Return (js "pragma solidity 0.8.28;\n\n" ++ s)
          end
      end
  end.

End VersionCheck.

(** ** More instances for the examples *)

Module MoreExamples.

(** A disk without room: a directory can be made, a write fails.  The state
    is the list of the directories made. *)
Definition fullDisk : FileSystem.calls (list jsstring) :=
  {| FileSystem.existsSync := fun d p => false;
     FileSystem.mkdirSync := fun d p => (p :: d, Return tt);
     FileSystem.writeFileSync :=
       fun d p document => (d, Throw (js "ENOSPC: no space left on device, write"));
     FileSystem.unlinkSync := fun d p => (d, Return tt) |}.

(** A source with backticks in a comment. *)
Definition quoted : jsstring := js "contract C { /* `x` costs 1$ */ }".


(** A compiler output whose only diagnostic is an error without formatted
    message. *)
Definition silentError : CompilerAdapter.diagnostic :=
  {| CompilerAdapter.severity := js "error";
     CompilerAdapter.message := js "Internal compiler error.";
     CompilerAdapter.formattedMessage := [] |}.

Definition silentOutput : CompilerAdapter.solc_output :=
  {| CompilerAdapter.errors := Some [silentError];
     CompilerAdapter.contracts :=
       Some [(js "contract.sol", [(js "Bar", Examples.bar)])] |}.

Definition cleanOutput : CompilerAdapter.solc_output :=
  {| CompilerAdapter.errors := None;
     CompilerAdapter.contracts :=
       Some [(js "contract.sol", [(js "Bar", Examples.bar)])] |}.

Definition deployedAddress : jsstring := js "0x00000000000000000000000000000000000000D1".

(** A receipt that confirms the deployment at that address. *)
Definition confirmed (h : jsstring) : completion DeploymentExecutor.receipt :=
  Return {| DeploymentExecutor.contractAddress := Some deployedAddress |}.

(** The output of the compiler for a file Bar that declares Bar. *)
Definition barOutput (name source : jsstring) : completion CompilerAdapter.solc_output :=
  Return {| CompilerAdapter.errors := None;
            CompilerAdapter.contracts := Some [(js "Bar", [(js "Bar", Examples.bar)])] |}.

(** A sender that holds one unit of the token. *)
Definition poor (c : nat) (owner : jsstring) : completion Z := Return 1%Z.

Definition walletOfKey (key : option jsstring) : completion jsstring :=
  Return (js "0x00000000000000000000000000000000000000aa").

End MoreExamples.

(** * Properties *)

(** ** Token Transfer Batch Runner *)

Module TokenTransferFacts.
Import TokenTransfer.

Section Network.

Variable isAddress : jsstring -> bool.
Variable newWallet : jsstring -> completion jsstring.
Variable chain : Type.
Variable tx : Type.
Variable transfer : chain -> jsstring -> Z -> chain * completion tx.
Variable wait : chain -> tx -> chain * completion jsstring.
Variable decimals : chain -> completion Z.
Variable symbol : chain -> completion jsstring.
Variable balanceOf : chain -> jsstring -> completion Z.
Variable parseUnits : jsstring -> Z -> completion Z.
Variable formatUnits : Z -> Z -> jsstring.

Local Abbreviation attempt := (attempt chain tx transfer wait).
Local Abbreviation transfer_loop := (transfer_loop chain tx transfer wait).
Local Abbreviation run_batch := (run_batch chain tx transfer wait).
Local Abbreviation outcomes := (outcomes chain tx transfer wait).
Local Abbreviation after_loop := (after_loop chain tx transfer wait).
Local Abbreviation check_recipient := (check_recipient isAddress).
Local Abbreviation check_recipients := (check_recipients isAddress).
Local Abbreviation check_value := (check_value isAddress).
Local Abbreviation check_values := (check_values isAddress).
Local Abbreviation validate := (validate isAddress newWallet).
Local Abbreviation validate_v1 := (validate_v1 isAddress).
Local Abbreviation sendTokens := (sendTokens isAddress newWallet chain tx transfer wait).
Local Abbreviation sendTokens_v1 := (sendTokens_v1 isAddress chain tx transfer wait).
Local Abbreviation malformed := (malformed isAddress).
Local Abbreviation malformed_v1 := (malformed_v1 isAddress).
Local Abbreviation strict := (strict isAddress).
Local Abbreviation check_inline := (check_inline isAddress).
Local Abbreviation well_formed := (well_formed isAddress).
Local Abbreviation handler_loop := (handler_loop isAddress chain tx transfer wait formatUnits).
Local Abbreviation fates := (fates isAddress chain tx transfer wait).
Local Abbreviation after_handler_loop := (after_handler_loop isAddress chain tx transfer wait).
Local Abbreviation success_of := (success_of formatUnits).

(** *** The loop *)

Lemma entry_of_sent r h : entry_of (r, Return h) = sent_entry r h.
Proof. reflexivity. Qed.

Lemma entry_of_failed r e : entry_of (r, Throw e) = failed_entry r e.
Proof. reflexivity. Qed.


Lemma transfer_loop_spec amount recipients :
  forall w successful failed,
    transfer_loop w recipients amount successful failed
    = (after_loop w recipients amount,
       successful ++ List.filter is_sent (map entry_of (outcomes w recipients amount)),
       failed ++ List.filter is_failed (map entry_of (outcomes w recipients amount))).
Proof.
  induction recipients as [|r rest IH]; intros w successful failed; simpl.
  - by rewrite !app_nil_r.
  - destruct (TokenTransfer.attempt chain tx transfer wait w r amount) as [w' [h|e]] eqn:E;
      simpl; rewrite IH.
    + rewrite entry_of_sent. cbn. by rewrite <- app_assoc.
    + rewrite entry_of_failed. cbn. by rewrite <- app_assoc.
Qed.

Lemma outcomes_recipients amount recipients :
  forall w, map fst (outcomes w recipients amount) = recipients.
Proof.
  induction recipients as [|r rest IH]; intros w; simpl; [done|]. by rewrite IH.
Qed.

Lemma attempt_submitted w r amount :
  submitted chain (fst (attempt w r amount)) = submitted chain w ++ [r].
Proof.
  unfold TokenTransfer.attempt.
  destruct (transfer (state chain w) r amount) as [c1 [t|e]]; simpl; [|done].
  by destruct (wait c1 t).
Qed.

Lemma after_loop_submitted amount recipients :
  forall w, submitted chain (after_loop w recipients amount) = submitted chain w ++ recipients.
Proof.
  induction recipients as [|r rest IH]; intros w; simpl.
  - by rewrite app_nil_r.
  - rewrite IH, attempt_submitted. by rewrite <- app_assoc.
Qed.



Lemma run_batch_spec w recipients amount :
  run_batch w recipients amount
  = (after_loop w recipients amount,
     match List.filter is_sent (map entry_of (outcomes w recipients amount)) with
     | [] => Throw (js "All transfers failed")
     | successful =>
         Return {| success := true;
                   sent := successful;
                   failed :=
                     match List.filter is_failed (map entry_of (outcomes w recipients amount)) with
                     | [] => None
                     | l => Some l
                     end |}
     end).
Proof.
  unfold TokenTransfer.run_batch. rewrite transfer_loop_spec. simpl.
  destruct (List.filter is_sent (map entry_of (outcomes w recipients amount)));
    destruct (List.filter is_failed (map entry_of (outcomes w recipients amount)));
    reflexivity.
Qed.

(** *** Validation *)

Lemma check_recipient_strict r : check_recipient r = Return tt <-> strict r.
Proof.
  unfold TokenTransfer.check_recipient, TokenTransfer.strict.
  destruct (startsWith r (js "0x")) eqn:Hp; simpl.
  2:{ split; [discriminate|]. intros (_ & H & _). discriminate. }
  destruct (Nat.eqb (length r) 42) eqn:Hl; simpl.
  2:{ split; [discriminate|]. intros (_ & _ & H & _).
      apply Nat.eqb_neq in Hl. contradiction. }
  destruct (isAddress r) eqn:Ha; simpl.
  2:{ split; [discriminate|]. intros (_ & _ & _ & H). discriminate. }
  split; [|done]. intros _. apply Nat.eqb_eq in Hl.
  repeat split; try done. intros ->. discriminate.
Qed.

Lemma check_recipient_cases r :
  check_recipient r = Return tt \/ exists e, check_recipient r = Throw e.
Proof.
  unfold TokenTransfer.check_recipient.
  repeat match goal with |- context [if ?b then _ else _] => destruct b end; eauto.
Qed.

Lemma check_recipients_Return rs :
  check_recipients rs = Return tt <-> Forall (fun r => strict r) rs.
Proof.
  induction rs as [|r rs IH]; simpl.
  - split; [constructor|done].
  - destruct (check_recipient_cases r) as [H|[e H]]; rewrite H; simpl.
    + rewrite IH. split.
      * intros. constructor; [by apply check_recipient_strict|done].
      * by inversion 1.
    + split; [discriminate|]. inversion 1 as [|? ? Hs _]; subst.
      apply check_recipient_strict in Hs. congruence.
Qed.

Lemma normalize_Return recipients :
  forall rs, normalize recipients = Return rs ->
    Forall2 (fun v r => exists s, v = JsString s /\ r = toLowerCase s) recipients rs.
Proof.
  induction recipients as [|v rest IH]; simpl; intros rs H.
  - inversion H. constructor.
  - destruct v as [s| | |shown]; simpl in H; try discriminate.
    destruct (normalize rest) as [ls|e]; simpl in H; [|discriminate].
    inversion H; subst. constructor; eauto.
Qed.

Lemma normalize_strings raw : normalize (map JsString raw) = Return (map toLowerCase raw).
Proof. induction raw as [|s raw IH]; simpl; [done|]. by rewrite IH. Qed.

Lemma validate_Return env token recipients amount rs :
  validate env token recipients amount = Return rs ->
  normalize recipients = Return rs /\ check_recipients rs = Return tt
  /\ (0 < amount)%Z /\ recipients <> [].
Proof.
  unfold TokenTransfer.validate. intros H.
  destruct (load_env env) as [key|]; simpl in H; [|discriminate].
  destruct (newWallet key); simpl in H; [|discriminate].
  destruct (bad_token isAddress token); [discriminate|].
  destruct recipients as [|v0 rest]; [discriminate|].
  destruct (normalize (v0 :: rest)) as [ns|] eqn:Hn; simpl in H; [|discriminate].
  destruct (check_recipients ns) as [[]|] eqn:Hc; simpl in H; [|discriminate].
  destruct (Z.leb_spec amount 0); [discriminate|].
  inversion H; subst. repeat split; done.
Qed.

Lemma validate_malformed env token recipients amount v :
  In v recipients -> malformed v ->
  exists e, validate env token recipients amount = Throw e.
Proof.
  intros Hin Hbad.
  destruct (validate env token recipients amount) as [rs|e] eqn:Hv; [|eauto].
  exfalso. apply validate_Return in Hv as (Hn & Hc & _).
  apply normalize_Return in Hn. apply check_recipients_Return in Hc.
  apply list_elem_of_In in Hin.
  destruct (list_elem_of_lookup_1 _ _ Hin) as [i Hi].
  destruct (Forall2_lookup_l _ _ _ _ _ Hn Hi) as (r & Hr & s & -> & ->).
  simpl in Hbad. apply Hbad. apply check_recipient_strict.
  eapply Forall_lookup_1; eauto.
Qed.

Lemma check_values_Return recipients :
  forall rs, check_values recipients = Return rs ->
    Forall2 (fun v r => v = JsString r /\ strict r) recipients rs.
Proof.
  induction recipients as [|v rest IH]; simpl; intros rs H.
  - inversion H. constructor.
  - destruct v as [s| | |shown]; simpl in H; try discriminate.
    destruct (check_recipient_cases s) as [Hs|[e Hs]]; rewrite Hs in H; simpl in H;
      [|discriminate].
    destruct (check_values rest) as [ls|e]; simpl in H; [|discriminate].
    inversion H; subst. constructor; [|eauto].
    split; [done|]. by apply check_recipient_strict.
Qed.

Lemma validate_v1_Return token recipients amount rs :
  validate_v1 token recipients amount = Return rs ->
  check_values recipients = Return rs /\ (0 < amount)%Z /\ recipients <> [].
Proof.
  unfold TokenTransfer.validate_v1. intros H.
  destruct (bad_token isAddress token); [discriminate|].
  destruct recipients as [|v0 rest]; [discriminate|].
  destruct (check_values (v0 :: rest)) as [ns|] eqn:Hc; simpl in H; [|discriminate].
  destruct (Z.leb_spec amount 0); [discriminate|].
  inversion H; subst. repeat split; done.
Qed.

Lemma validate_v1_malformed token recipients amount v :
  In v recipients -> malformed_v1 v ->
  exists e, validate_v1 token recipients amount = Throw e.
Proof.
  intros Hin Hbad.
  destruct (validate_v1 token recipients amount) as [rs|e] eqn:Hv; [|eauto].
  exfalso. apply validate_v1_Return in Hv as (Hc & _).
  apply check_values_Return in Hc.
  apply list_elem_of_In in Hin.
  destruct (list_elem_of_lookup_1 _ _ Hin) as [i Hi].
  destruct (Forall2_lookup_l _ _ _ _ _ Hc Hi) as (r & Hr & -> & Hs).
  simpl in Hbad. apply Hbad. by apply check_recipient_strict.
Qed.


(** *** The loop of the handler *)

Lemma handler_loop_spec amount dec sym recipients :
  forall w successful failed,
    handler_loop w recipients amount dec sym successful failed
    = (after_handler_loop w recipients amount,
       successful ++ flat_map (success_of dec sym amount) (fates w recipients amount),
       failed ++ flat_map failure_of (fates w recipients amount)).
Proof.
  induction recipients as [|r rest IH]; intros w successful failed; simpl.
  - by rewrite !app_nil_r.
  - destruct (check_inline r) as [[]|e]; simpl.
    + destruct (TokenTransfer.attempt chain tx transfer wait w r amount) as [w' [h|e]] eqn:E;
        simpl; rewrite IH; cbn; by rewrite <- ?app_assoc.
    + rewrite IH. cbn. by rewrite <- app_assoc.
Qed.

Lemma fates_recipients amount recipients :
  forall w, map fst (fates w recipients amount) = recipients.
Proof.
  induction recipients as [|r rest IH]; intros w; simpl; [done|].
  destruct (check_inline r); simpl; by rewrite IH.
Qed.

Lemma after_handler_loop_submitted amount recipients :
  forall w, submitted chain (after_handler_loop w recipients amount)
            = submitted chain w ++ List.filter well_formed recipients.
Proof.
  induction recipients as [|r rest IH]; intros w; simpl.
  - by rewrite app_nil_r.
  - unfold TokenTransfer.well_formed. destruct (check_inline r); simpl.
    + rewrite IH, attempt_submitted. by rewrite <- app_assoc.
    + apply IH.
Qed.

Lemma fates_sound amount recipients :
  forall w,
    Forall (fun f => match snd f with
                     | Refused e => check_inline (fst f) = Throw e
                     | Attempted _ => check_inline (fst f) = Return tt
                     end) (fates w recipients amount).
Proof.
  induction recipients as [|r rest IH]; intros w; simpl; [constructor|].
  destruct (check_inline r) as [[]|e] eqn:E; constructor; simpl; auto.
Qed.

Lemma fates_one_entry_each dec sym amount recipients :
  forall w,
    length (flat_map (success_of dec sym amount) (fates w recipients amount))
    + length (flat_map failure_of (fates w recipients amount))
    = length recipients.
Proof.
  induction recipients as [|r rest IH]; intros w; [done|].
  cbn [TokenTransfer.fates length].
  destruct (check_inline r) as [[]|e]; cbn [flat_map]; rewrite !length_app.
  - specialize (IH (fst (TokenTransfer.attempt chain tx transfer wait w r amount))).
    assert (forall res,
      length (success_of dec sym amount (r, Attempted res))
      + length (failure_of (r, Attempted res)) = 1) as H1
      by (intros [h|e]; reflexivity).
    specialize (H1 (snd (TokenTransfer.attempt chain tx transfer wait w r amount))). lia.
  - specialize (IH w).
    change (length (success_of dec sym amount (r, Refused e))) with 0.
    change (length (failure_of (r, Refused e))) with 1. lia.
Qed.

(** *** Main properties *)


Lemma check_recipients_first good bad rest m :
  Forall strict good ->
  check_recipient bad = Throw m ->
  check_recipients (good ++ bad :: rest) = Throw m.
Proof.
  intros Hgood Hbad. induction Hgood as [|g good Hg _ IH]; simpl.
  - by rewrite Hbad.
  - apply check_recipient_strict in Hg. by rewrite Hg.
Qed.

Lemma check_values_first good bad rest m :
  Forall strict good ->
  check_value bad = Throw m ->
  check_values (map JsString good ++ bad :: rest) = Throw m.
Proof.
  intros Hgood Hbad. induction Hgood as [|g good Hg _ IH]; simpl.
  - by rewrite Hbad.
  - apply check_recipient_strict in Hg. rewrite Hg. simpl. by rewrite IH.
Qed.

Lemma normalize_first good bad rest m :
  lower_value bad = Throw m ->
  normalize (map JsString good ++ bad :: rest) = Throw m.
Proof.
  intros Hbad. induction good as [|g good IH]; simpl.
  - by rewrite Hbad.
  - by rewrite IH.
Qed.

(** C2, as the code has it: sendTokens rejects the whole batch when one
    recipient is malformed.  With a malformed recipient in the array, both
    copies of sendTokens throw and leave the world as it was: no transfer is
    submitted for any recipient and no outcome entry is produced.  When the
    stages before the recipients pass, the error is the message of the
    check that the first malformed recipient fails: in the first multi-tool
    plugin for recipients of any kind, checked as given; in
    multi-tool-plugin-v2.cjs for recipients that are strings, checked in
    lower case, while a recipient that is not a string makes the
    conversion to lower case throw its TypeError before any check.  The
    loop of the send-token handler of multi-tool-plugin-v2.cjs is the one
    that isolates recipients: each recipient gets one entry, a malformed
    one is refused with the message of its check and is not submitted, and
    the transfers submitted are those to the well-formed recipients, in
    order. *)
Theorem sendTokens_rejects_batch_with_malformed_recipient
    env w token recipients amount v :
  In v recipients ->
  (malformed v -> exists e, sendTokens env w token recipients amount = (w, Throw e))
  /\ (malformed_v1 v -> exists e, sendTokens_v1 w token recipients amount = (w, Throw e))
  /\ (forall key a good bad rest m,
        load_env env = Return key -> newWallet key = Return a ->
        bad_token isAddress token = false ->
        recipients = map JsString (good ++ bad :: rest) ->
        Forall (fun r => strict (toLowerCase r)) good ->
        check_recipient (toLowerCase bad) = Throw m ->
        sendTokens env w token recipients amount = (w, Throw m))
  /\ (forall good bad rest m,
        bad_token isAddress token = false ->
        recipients = map JsString good ++ bad :: rest ->
        Forall strict good ->
        check_value bad = Throw m ->
        sendTokens_v1 w token recipients amount = (w, Throw m))
  /\ (forall key a good bad rest m,
        load_env env = Return key -> newWallet key = Return a ->
        bad_token isAddress token = false ->
        recipients = map JsString good ++ bad :: rest ->
        lower_value bad = Throw m ->
        sendTokens env w token recipients amount = (w, Throw m))
  /\ (forall rs parsed dec sym w' successful failed,
        normalize recipients = Return rs ->
        handler_loop w rs parsed dec sym [] [] = (w', successful, failed) ->
        map fst (fates w rs parsed) = rs
        /\ successful = flat_map (success_of dec sym parsed) (fates w rs parsed)
        /\ failed = flat_map failure_of (fates w rs parsed)
        /\ length successful + length failed = length recipients
        /\ Forall (fun f => match snd f with
                           | Refused e => check_inline (fst f) = Throw e
                           | Attempted _ => check_inline (fst f) = Return tt
                           end) (fates w rs parsed)
        /\ submitted chain w' = submitted chain w ++ List.filter well_formed rs).
Proof.
  intros Hin.
  split; [|split; [|split; [|split; [|split]]]].
  - intros Hbad. unfold TokenTransfer.sendTokens.
    destruct (validate_malformed env token recipients amount v Hin Hbad) as [e ->]. eauto.
  - intros Hbad. unfold TokenTransfer.sendTokens_v1.
    destruct (validate_v1_malformed token recipients amount v Hin Hbad) as [e ->]. eauto.
  - intros key a good bad rest m Hk Ha Ht -> Hgood Hbad.
    unfold TokenTransfer.sendTokens, TokenTransfer.validate.
    rewrite Hk; simpl. rewrite Ha; simpl. rewrite Ht.
    rewrite normalize_strings. simpl.
    assert (check_recipients (map toLowerCase (good ++ bad :: rest)) = Throw m) as ->.
    { rewrite map_app. cbn [map]. apply check_recipients_first; [|exact Hbad].
      apply List.Forall_forall. intros r Hr. apply in_map_iff in Hr as (g & <- & Hg).
      by apply (proj1 (List.Forall_forall _ _) Hgood). }
    simpl. destruct (map JsString (good ++ bad :: rest)) eqn:E; [|done].
    destruct good; discriminate.
  - intros good bad rest m Ht -> Hgood Hbad.
    unfold TokenTransfer.sendTokens_v1, TokenTransfer.validate_v1.
    rewrite Ht, (check_values_first good bad rest m Hgood Hbad). simpl.
    destruct good; reflexivity.
  - intros key a good bad rest m Hk Ha Ht -> Hbad.
    unfold TokenTransfer.sendTokens, TokenTransfer.validate.
    rewrite Hk; simpl. rewrite Ha; simpl. rewrite Ht.
    rewrite (normalize_first good bad rest m Hbad). simpl.
    destruct good; reflexivity.
  - intros rs parsed dec sym w' successful failed Hn Hl.
    rewrite handler_loop_spec in Hl. inversion Hl; subst; clear Hl.
    split; [apply fates_recipients|]. split; [done|]. split; [done|].
    split; [|split].
    + rewrite fates_one_entry_each.
      apply normalize_Return in Hn. by rewrite (Forall2_length _ _ _ Hn).
    + apply fates_sound.
    + apply after_handler_loop_submitted.
Qed.

Lemma validated_run env w token recipients amount rs run :
  (validate env token recipients amount = Return rs
   /\ run = sendTokens env w token recipients amount)
  \/ (validate_v1 token recipients amount = Return rs
      /\ run = sendTokens_v1 w token recipients amount) ->
  run = run_batch w rs amount.
Proof.
  intros [[Hv ->]|[Hv ->]].
  - unfold TokenTransfer.sendTokens. by rewrite Hv.
  - unfold TokenTransfer.sendTokens_v1. by rewrite Hv.
Qed.

(** C3, as the code has it: for an invocation that passes validation,
    sendTokens (of multi-tool-plugin-v2.cjs or of the first multi-tool
    plugin) returns a result exactly when one of the transfers of the loop
    succeeded, and throws 'All transfers failed' when none did.  The result
    has [success] true and the successful entries in [sent]; [failed] holds
    the failed entries when there are some and is undefined when there are
    none. *)
Theorem sendTokens_succeeds_iff_a_transfer_does env w token recipients amount rs run :
  (validate env token recipients amount = Return rs
   /\ run = sendTokens env w token recipients amount)
  \/ (validate_v1 token recipients amount = Return rs
      /\ run = sendTokens_v1 w token recipients amount) ->
  ((exists e, In e (map entry_of (outcomes w rs amount)) /\ is_sent e = true)
   <-> exists w' b, run = (w', Return b))
  /\ (forall w' b,
        run = (w', Return b) ->
        success b = true
        /\ sent b = List.filter is_sent (map entry_of (outcomes w rs amount))
        /\ failed b =
           match List.filter is_failed (map entry_of (outcomes w rs amount)) with
           | [] => None
           | l => Some l
           end)
  /\ ((forall e, In e (map entry_of (outcomes w rs amount)) -> is_sent e = false) ->
      run = (after_loop w rs amount, Throw (js "All transfers failed"))).
Proof.
  intros Hr. rewrite (validated_run _ _ _ _ _ _ _ Hr), run_batch_spec. clear Hr.
  set (all := map entry_of (outcomes w rs amount)).
  destruct (List.filter is_sent all) as [|e l] eqn:Hs.
  - split; [split|split].
    + intros (e & Hin & He).
      assert (In e (List.filter is_sent all)) as Hf by (apply filter_In; auto).
      rewrite Hs in Hf. destruct Hf.
    + intros (w' & b & H). discriminate.
    + intros w' b H. discriminate.
    + done.
  - split; [split|split].
    + intros _. eauto.
    + intros _. exists e. apply filter_In. rewrite Hs. by left.
    + intros w' b H. inversion H; subst; simpl.
      split; [done|]. split; [done|]. by destruct (List.filter is_failed all).
    + intros Hnone. exfalso.
      assert (In e (List.filter is_sent all)) as Hf by (rewrite Hs; by left).
      apply filter_In in Hf as [Hin He]. rewrite (Hnone e Hin) in He. discriminate.
Qed.

(** C4, as the code has it.  In multi-tool-plugin-v2.cjs every recipient is
    put in lower case and then checked against the strict format (not
    empty, a string, 0x prefix, 42 characters, accepted by the address
    check) before any transfer is submitted: when validation passes, every
    recipient is a string whose lower-case form is strict, and the
    transfers submitted are those to the lower-case forms; a recipient that
    fails a check makes sendTokens throw with nothing submitted.  The first
    multi-tool plugin checks the same format on the recipient as given,
    without the lower-case step. *)
Theorem recipients_checked_before_any_transfer env w token recipients amount :
  (forall rs, validate env token recipients amount = Return rs ->
     Forall2 (fun v r => exists s, v = JsString s /\ r = toLowerCase s /\ strict r)
             recipients rs
     /\ submitted chain (fst (sendTokens env w token recipients amount))
        = submitted chain w ++ rs)
  /\ (forall e, validate env token recipients amount = Throw e ->
        sendTokens env w token recipients amount = (w, Throw e))
  /\ (forall v, In v recipients -> malformed v ->
        exists e, validate env token recipients amount = Throw e)
  /\ (forall rs, validate_v1 token recipients amount = Return rs ->
        Forall2 (fun v r => v = JsString r /\ strict r) recipients rs
        /\ submitted chain (fst (sendTokens_v1 w token recipients amount))
           = submitted chain w ++ rs)
  /\ (forall e, validate_v1 token recipients amount = Throw e ->
        sendTokens_v1 w token recipients amount = (w, Throw e))
  /\ (forall v, In v recipients -> malformed_v1 v ->
        exists e, validate_v1 token recipients amount = Throw e).
Proof.
  repeat split.
  - apply validate_Return in H as (Hn & Hc & _).
    apply normalize_Return in Hn. apply check_recipients_Return in Hc.
    clear -Hn Hc. induction Hn as [|v r vs rs' (s & -> & ->) _ IH]; [constructor|].
    inversion Hc; subst. constructor; eauto.
  - unfold TokenTransfer.sendTokens. rewrite H, run_batch_spec. simpl.
    apply after_loop_submitted.
  - intros e H. unfold TokenTransfer.sendTokens. by rewrite H.
  - intros v Hin Hbad. by eapply validate_malformed.
  - apply validate_v1_Return in H as (Hc & _). by apply check_values_Return.
  - unfold TokenTransfer.sendTokens_v1. rewrite H, run_batch_spec. simpl.
    apply after_loop_submitted.
  - intros e H. unfold TokenTransfer.sendTokens_v1. by rewrite H.
  - intros v Hin Hbad. by eapply validate_v1_malformed.
Qed.


End Network.

(** *** Concrete runs *)

Import Examples.

(** C2 fails on sendTokens: with one valid recipient and one malformed one
    (N = 2, K = 1) sendTokens throws the error of the malformed recipient;
    there is no batch outcome, so no entry for the valid recipient and no
    failure entry for the malformed one. *)
Lemma sendTokens_malformed_recipient_no_outcome :
  Examples.sendTokens env start token [JsString alice; JsString (js "bad")] 5
  = (start, Throw (js "Invalid recipient: bad - must start with 0x"))
  /\ ~ (exists w b,
          Examples.sendTokens env start token [JsString alice; JsString (js "bad")] 5
          = (w, Return b)).
Proof.
  assert (Examples.sendTokens env start token [JsString alice; JsString (js "bad")] 5
          = (start, Throw (js "Invalid recipient: bad - must start with 0x"))) as E
    by (vm_compute; reflexivity).
  split; [exact E|]. intros (w & b & H). rewrite E in H. discriminate.
Qed.

Lemma sendTokens_rejects_batch_witness :
  In (JsString (js "bad")) [JsString alice; JsString (js "bad")]
  /\ (exists e,
        Examples.sendTokens env start token [JsString alice; JsString (js "bad")] 5
        = (start, Throw e))
  /\ Examples.sendTokens_v1 start token [JsString alice; JsString (js "bad")] 5
     = (start, Throw (js "Invalid recipient: bad - must start with 0x")).
Proof.
  assert (In (JsString (js "bad")) [JsString alice; JsString (js "bad")]) as Hin
    by (right; left; reflexivity).
  pose proof (sendTokens_rejects_batch_with_malformed_recipient
                hexAddress anyWallet nat jsstring countingTransfer countingWait plainUnits
                env start token [JsString alice; JsString (js "bad")] 5
                (JsString (js "bad")) Hin) as (H1 & _ & _ & H4 & _).
  split; [exact Hin|]. split.
  - apply H1. vm_compute. discriminate.
  - apply (H4 [alice] (JsString (js "bad")) []); try reflexivity.
    constructor; [|constructor].
    split; [discriminate|]. split; [reflexivity|]. split; reflexivity.
Defined.

(** C3 fails on the list of failed transfers: when every transfer
    succeeds, the result has no [failed] list, not an empty one. *)
Lemma sendTokens_all_sent_failed_undefined :
  snd (Examples.sendTokens env start token [JsString alice; JsString bob] 5)
  = Return {| success := true;
              sent := [sent_entry (toLowerCase alice) (js "tx:" ++ toLowerCase alice);
                       sent_entry bob (js "tx:" ++ bob)];
              failed := None |}
  /\ ~ (exists b,
          snd (Examples.sendTokens env start token [JsString alice; JsString bob] 5)
          = Return b
          /\ failed b = Some []).
Proof.
  assert (snd (Examples.sendTokens env start token [JsString alice; JsString bob] 5)
          = Return {| success := true;
                      sent := [sent_entry (toLowerCase alice) (js "tx:" ++ toLowerCase alice);
                               sent_entry bob (js "tx:" ++ bob)];
                      failed := None |}) as E
    by (vm_compute; reflexivity).
  split; [exact E|]. intros (b & H & Hf). rewrite E in H.
  inversion H; subst. discriminate.
Qed.

Lemma sendTokens_succeeds_iff_witness :
  validate hexAddress anyWallet env token [JsString alice; JsString burn] 5
  = Return [toLowerCase alice; burn]
  /\ exists w' b,
       Examples.sendTokens env start token [JsString alice; JsString burn] 5
       = (w', Return b).
Proof.
  assert (validate hexAddress anyWallet env token [JsString alice; JsString burn] 5
          = Return [toLowerCase alice; burn]) as Hv by (vm_compute; reflexivity).
  split; [exact Hv|].
  apply (sendTokens_succeeds_iff_a_transfer_does
           hexAddress anyWallet nat jsstring countingTransfer countingWait
           env start token [JsString alice; JsString burn] 5 _ _
           (or_introl (conj Hv eq_refl))).
  exists (sent_entry (toLowerCase alice) (js "tx:" ++ toLowerCase alice)).
  split; [left; vm_compute; reflexivity | reflexivity].
Defined.

(** C4 fails on the first multi-tool plugin: it checks the recipient as
    given.  A recipient written with the prefix 0X is rejected there,
    although its lower-case form passes every check (and
    multi-tool-plugin-v2.cjs sends to it). *)
Lemma sendTokens_v1_checks_recipient_as_given :
  check_recipients hexAddress (map toLowerCase [upperPrefix]) = Return tt
  /\ Examples.sendTokens_v1 start token [JsString upperPrefix] 5
     = (start,
        Throw (js "Invalid recipient: 0X00000000000000000000000000000000000000c3 - must start with 0x"))
  /\ exists w b,
       Examples.sendTokens env start token [JsString upperPrefix] 5 = (w, Return b)
       /\ submitted nat w = [toLowerCase upperPrefix].
Proof.
  split; [vm_compute; reflexivity|]. split; [vm_compute; reflexivity|].
  do 2 eexists. split; vm_compute; reflexivity.
Qed.

Lemma recipients_checked_witness :
  validate hexAddress anyWallet env token [JsString alice; JsString bob] 5
  = Return [toLowerCase alice; bob]
  /\ submitted nat (fst (Examples.sendTokens env start token [JsString alice; JsString bob] 5))
     = [toLowerCase alice; bob].
Proof.
  assert (validate hexAddress anyWallet env token [JsString alice; JsString bob] 5
          = Return [toLowerCase alice; bob]) as Hv by (vm_compute; reflexivity).
  split; [exact Hv|].
  apply (proj1 (recipients_checked_before_any_transfer
                  hexAddress anyWallet nat jsstring countingTransfer countingWait
                  env start token [JsString alice; JsString bob] 5) _ Hv).
Defined.


End TokenTransferFacts.

(** ** Compiler Adapter *)

Module CompilerAdapterFacts.
Import CompilerAdapter.


Lemma fixed_check_errors output :
  FixedSolc.check_errors output
  = if has_error output
    then Throw (js "Compilation failed: " ++ join [nl] (map message (diagnostics output)))
    else Return tt.
Proof.
  unfold FixedSolc.check_errors, has_error, diagnostics.
  destruct (errors output) as [ds|]; reflexivity.
Qed.


Lemma sol_not_inherited name : inherited (name ++ js ".sol") = false.
Proof.
  unfold inherited, prototype_names. cbn [existsb].
  repeat (rewrite orb_false_iff; split); try reflexivity;
    unfold jsstring_eqb; apply bool_decide_eq_false; intros E;
    apply (f_equal (@rev ascii)) in E; rewrite rev_app_distr in E;
    cbn in E; discriminate.
Qed.





Import Examples.



End CompilerAdapterFacts.

(** ** Deployment Executor *)

Module DeploymentExecutorFacts.
Import DeploymentExecutor.

Section Chain.

Variable account : Type.
Variable privateKeyToAccount : jsstring -> completion account.
Variable walletDeployContract :
  account -> json -> jsstring -> list json -> option Z -> completion jsstring.
Variable waitForTransactionReceipt : jsstring -> completion receipt.
Variable disk : Type.
Variable node_fs : FileSystem.calls disk.
Variable __filename : jsstring.
Variable encodeFunctionData : json -> list json -> completion jsstring.
Variable estimateGas : account -> jsstring -> completion Z.
Variable gasWithBuffer : Z -> Z.

Local Abbreviation script_deployContract :=
  (script_deployContract account privateKeyToAccount walletDeployContract
     waitForTransactionReceipt disk node_fs __filename).
Local Abbreviation deployContract :=
  (deployContract account privateKeyToAccount walletDeployContract
     waitForTransactionReceipt encodeFunctionData estimateGas gasWithBuffer).
Local Abbreviation deployment_data := (deployment_data encodeFunctionData).

(** C1, as the code has it.  When the transaction is confirmed and the
    receipt has no contract address, neither executor reports a success.
    The deploy script that index.ts generates yields the failure document
    with success false, the error 'Contract deployment failed - no contract
    address in receipt' and the hash in transactionHash, and writes no
    artifact.  deployContract of contract-deployer.ts throws the error
    'Deployment error: Contract deployment failed - no contract address in
    receipt': a fixed message, which does not depend on the hash. *)
Theorem no_contract_address_is_a_failure hash0 r abi bytecode args :
  waitForTransactionReceipt hash0 = Return r ->
  no_address r = true ->
  (forall tmpdir fs key name save acct,
     key <> [] ->
     privateKeyToAccount (if startsWith key (js "0x") then key else js "0x" ++ key)
     = Return acct ->
     walletDeployContract acct abi bytecode args None = Return hash0 ->
     script_deployContract tmpdir fs (Some key) (Return (abi, bytecode)) name args save
     = (fs, failure (js "Contract deployment failed - no contract address in receipt")
                    (Some hash0))
     /\ document_keeps
          (snd (script_deployContract tmpdir fs (Some key) (Return (abi, bytecode))
                  name args save)) hash0)
  /\ (forall privateKey acct data gas,
        privateKey <> [] ->
        key_format_ok (normalizeKey privateKey) = true ->
        privateKeyToAccount (js "0x" ++ normalizeKey privateKey) = Return acct ->
        deployment_data abi bytecode args = Return data ->
        estimateGas acct data = Return gas ->
        walletDeployContract acct abi bytecode args (Some (gasWithBuffer gas))
        = Return hash0 ->
        deployContract abi bytecode privateKey args
        = Throw (js "Deployment error: Contract deployment failed - no contract address in receipt")).
Proof.
  intros Hwait Hno. split.
  - intros tmpdir fs key name save acct Hkey Hacct Hsend.
    assert (script_deployContract tmpdir fs (Some key) (Return (abi, bytecode)) name args save
            = (fs, failure (js "Contract deployment failed - no contract address in receipt")
                           (Some hash0))) as E.
    { unfold DeploymentExecutor.script_deployContract.
      destruct key as [|c k]; [contradiction|].
      rewrite Hacct, Hsend, Hwait, Hno. reflexivity. }
    split; [exact E|]. rewrite E. split; reflexivity.
  - intros privateKey acct data gas Hne Hfmt Hacct Hdata Hgas Hsend.
    unfold DeploymentExecutor.deployContract.
    destruct privateKey as [|c k]; [contradiction|].
    rewrite Hfmt. change (negb true) with false. cbv iota.
    rewrite Hacct. cbn [bind]. unfold DeploymentExecutor.deploy_steps.
    rewrite Hdata. cbn [bind]. rewrite Hgas. cbn [bind]. rewrite Hsend. cbn [bind].
    rewrite Hwait. cbn [bind]. rewrite Hno. vm_compute. reflexivity.
Qed.

End Chain.

Import Examples.

(** C1 fails on contract-deployer.ts: the error thrown for a receipt
    without contract address does not hold the hash of the transaction. *)
Lemma deployContract_error_drops_the_hash :
  deployContract unit anyAccount sendsHash emptyReceipt noData someGas tenth
    (JArr []) (js "0x6080") key64 []
  = Throw (js "Deployment error: Contract deployment failed - no contract address in receipt")
  /\ ~ error_keeps
       (deployContract unit anyAccount sendsHash emptyReceipt noData someGas tenth
          (JArr []) (js "0x6080") key64 [])
       hash.
Proof.
  assert (deployContract unit anyAccount sendsHash emptyReceipt noData someGas tenth
            (JArr []) (js "0x6080") key64 []
          = Throw (js "Deployment error: Contract deployment failed - no contract address in receipt"))
    as E by (vm_compute; reflexivity).
  split; [exact E|]. intros (m & Hm & Hin). rewrite E in Hm.
  inversion Hm; subst. vm_compute in Hin. discriminate.
Qed.

Lemma no_contract_address_witness :
  document_keeps
    (snd (script_deployContract unit anyAccount sendsHash emptyReceipt
            ArtifactStore.files memory scriptPath
            (js "/tmp") ∅ (Some key64) (Return (JArr [], js "0x6080")) (js "Bar") [] true))
    hash
  /\ deployContract unit anyAccount sendsHash emptyReceipt noData someGas tenth
       (JArr []) (js "0x6080") key64 []
     = Throw (js "Deployment error: Contract deployment failed - no contract address in receipt").
Proof.
  pose proof (no_contract_address_is_a_failure
                unit anyAccount sendsHash emptyReceipt
                ArtifactStore.files memory scriptPath noData someGas tenth
                hash {| contractAddress := None |} (JArr []) (js "0x6080") []
                eq_refl eq_refl) as [HA HB].
  split.
  - apply (HA (js "/tmp") ∅ key64 (js "Bar") true tt); [discriminate | reflexivity | reflexivity].
  - apply (HB key64 tt (js "0x6080") 21000%Z); try reflexivity. discriminate.
Defined.

End DeploymentExecutorFacts.

(** ** Artifact Store *)

Module ArtifactStoreFacts.
Import ArtifactStore.


(** The two artifact directories are different, whatever their parents. *)
Lemma artifact_directories_differ tmpdir dirname :
  path_join tmpdir (js "monad-deployments") <> path_join dirname (js "artifacts").
Proof.
  unfold path_join. intros H. apply (f_equal (@rev ascii)) in H.
  rewrite !rev_app_distr in H. simpl in H. discriminate.
Qed.

Lemma artifact_paths_differ tmpdir dirname name :
  path_join (path_join tmpdir (js "monad-deployments")) (name ++ js ".json")
  <> path_join (path_join dirname (js "artifacts")) (name ++ js ".json").
Proof.
  unfold path_join at 1 3. intros H. apply app_inv_tail in H.
  by apply artifact_directories_differ in H.
Qed.

(** C7, as the code has it, for a contract name that is a file name (no
    path separator) and does not start with 0x.  loadContract reads the
    document of the contract name in the artifacts directory next to it and
    returns its address and abi, and nothing else: after deploy-contract.js
    has saved an artifact there, loadContract by name returns the saved
    address and abi.  The documents of the MCP deployers are written in another
    directory, under the temporary directory, so saving one does not change
    what loadContract returns; the document of the generated deploy script
    holds contractName, address, abi and transactionHash as saved, the
    document of saveContractArtifacts holds contractName, address and abi
    and no transactionHash. *)
Theorem saved_artifact_loads_by_name
    (dirname tmpdir : jsstring) (readdir : list jsstring) (fs : files)
    (name : jsstring) (abi0 : json) (addr hash0 deployedAt : jsstring) :
  startsWith name (js "0x") = false ->
  ~ In "/"%char name ->
  loadContract dirname readdir (fst (deploy_save dirname fs name abi0 addr deployedAt)) name
  = Return {| address := Some (JStr addr); abi := Some abi0 |}
  /\ loadContract dirname readdir (fst (script_save tmpdir fs name abi0 addr hash0)) name
     = loadContract dirname readdir fs name
  /\ loadContract dirname readdir (fst (saveContractArtifacts tmpdir fs name abi0 addr)) name
     = loadContract dirname readdir fs name
  /\ (exists doc,
        fst (script_save tmpdir fs name abi0 addr hash0)
          !! snd (script_save tmpdir fs name abi0 addr hash0) = Some doc
        /\ prop doc (js "contractName") = Return (Some (JStr name))
        /\ prop doc (js "address") = Return (Some (JStr addr))
        /\ prop doc (js "abi") = Return (Some abi0)
        /\ prop doc (js "transactionHash") = Return (Some (JStr hash0)))
  /\ (exists doc,
        fst (saveContractArtifacts tmpdir fs name abi0 addr)
          !! snd (saveContractArtifacts tmpdir fs name abi0 addr) = Some doc
        /\ prop doc (js "contractName") = Return (Some (JStr name))
        /\ prop doc (js "address") = Return (Some (JStr addr))
        /\ prop doc (js "abi") = Return (Some abi0)
        /\ prop doc (js "transactionHash") = Return None).
Proof.
  intros Hname _. repeat split.
  - unfold loadContract, deploy_save. rewrite Hname. cbn [fst].
    rewrite lookup_insert_eq. vm_compute. reflexivity.
  - unfold loadContract, script_save. rewrite Hname. cbn [fst].
    rewrite lookup_insert_ne; [done|]. apply artifact_paths_differ.
  - unfold loadContract, saveContractArtifacts. rewrite Hname. cbn [fst].
    rewrite lookup_insert_ne; [done|]. apply artifact_paths_differ.
  - unfold script_save. cbn [fst snd]. rewrite lookup_insert_eq.
    eexists. split; [reflexivity|]. repeat split; vm_compute; reflexivity.
  - unfold saveContractArtifacts. cbn [fst snd]. rewrite lookup_insert_eq.
    eexists. split; [reflexivity|]. repeat split; vm_compute; reflexivity.
Qed.

Import Examples.

(** C7 fails on the artifact that the generated deploy script saves:
    loadContract does not find it by its name; and the document that
    saveContractArtifacts writes has no transaction hash to load. *)
Lemma saved_artifact_not_found_by_name :
  loadContract (js "/app") []
    (fst (script_save (js "/tmp") ∅ (js "Bar") (JArr []) (js "0xabc") hash)) (js "Bar")
  = Throw (js "Contract artifacts not found for Bar")
  /\ ~ (exists l,
          loadContract (js "/app") []
            (fst (script_save (js "/tmp") ∅ (js "Bar") (JArr []) (js "0xabc") hash))
            (js "Bar")
          = Return l)
  /\ forall doc,
       fst (saveContractArtifacts (js "/tmp") ∅ (js "Bar") (JArr []) (js "0xabc"))
         !! snd (saveContractArtifacts (js "/tmp") ∅ (js "Bar") (JArr []) (js "0xabc"))
       = Some doc ->
       prop doc (js "transactionHash") = Return None.
Proof.
  assert (loadContract (js "/app") []
            (fst (script_save (js "/tmp") ∅ (js "Bar") (JArr []) (js "0xabc") hash))
            (js "Bar")
          = Throw (js "Contract artifacts not found for Bar")) as E.
  { unfold loadContract, script_save. cbn [fst].
    replace (startsWith (js "Bar") (js "0x")) with false by (vm_compute; reflexivity).
    rewrite lookup_insert_ne; [|apply artifact_paths_differ].
    rewrite lookup_empty. vm_compute. reflexivity. }
  split; [exact E|]. split.
  - intros (l & H). rewrite E in H. discriminate.
  - intros doc. unfold saveContractArtifacts. cbn [fst snd].
    rewrite lookup_insert_eq. intros H. inversion H; subst. vm_compute. reflexivity.
Qed.

Lemma saved_artifact_loads_witness :
  loadContract (js "/app") []
    (fst (deploy_save (js "/app") ∅ (js "Bar") (JArr []) (js "0xabc") (js "2025-01-01")))
    (js "Bar")
  = Return {| address := Some (JStr (js "0xabc")); abi := Some (JArr []) |}.
Proof.
  assert (startsWith (js "Bar") (js "0x") = false) as Hname by (vm_compute; reflexivity).
  assert (~ In "/"%char (js "Bar")) as Hsep by (simpl; intuition discriminate).
  exact (proj1 (saved_artifact_loads_by_name (js "/app") (js "/tmp") [] ∅ (js "Bar")
                  (JArr []) (js "0xabc") hash (js "2025-01-01") Hname Hsep)).
Defined.

End ArtifactStoreFacts.

(** ** Regular expressions *)

Module RegexFacts.

Lemma strip_prefix_spec p : forall s r, strip_prefix p s = Some r <-> s = p ++ r.
Proof.
  induction p as [|c p IH]; intros s r; simpl.
  - split; [by inversion 1 | by intros ->].
  - destruct s as [|d s]; [split; discriminate|].
    destruct (Ascii.eqb_spec c d) as [->|Hne].
    + rewrite IH. split; [by intros -> | by inversion 1].
    + split; [discriminate | inversion 1; congruence].
Qed.

Lemma strip_prefix_app p r : strip_prefix p (p ++ r) = Some r.
Proof. by apply strip_prefix_spec. Qed.

Lemma find_sub_split p : forall s a b, find_sub p s = Some (a, b) -> s = a ++ p ++ b.
Proof.
  induction s as [|c s IH]; intros a b; simpl.
  - destruct (strip_prefix p []) eqn:E; [|discriminate].
    inversion 1; subst. by apply strip_prefix_spec in E.
  - destruct (strip_prefix p (c :: s)) eqn:E.
    + inversion 1; subst. by apply strip_prefix_spec in E.
    + destruct (find_sub p s) as [[a' b']|]; [|discriminate].
      inversion 1; subst. simpl. f_equal. by apply IH.
Qed.

(** The first occurrence is where no earlier position starts one. *)
Lemma find_sub_first p after : forall before,
  (forall b1 b2, before = b1 ++ b2 -> b2 <> [] ->
                 strip_prefix p (b2 ++ p ++ after) = None) ->
  find_sub p (before ++ p ++ after) = Some (before, after).
Proof.
  induction before as [|c before IH]; intros H.
  - simpl. destruct (p ++ after) eqn:E; simpl;
      rewrite <- E, strip_prefix_app; reflexivity.
  - simpl. change (c :: before ++ p ++ after) with ((c :: before) ++ p ++ after).
    rewrite (H [] (c :: before)); [|done|done].
    rewrite IH; [done|]. intros b1 b2 -> Hb2. by apply (H (c :: b1) b2).
Qed.

Lemma includes_app a p b : includes (a ++ p ++ b) p = true.
Proof.
  unfold includes. induction a as [|c a IH]; simpl.
  - destruct (p ++ b) eqn:E; simpl; rewrite <- E, strip_prefix_app; reflexivity.
  - change (c :: a ++ p ++ b) with ((c :: a) ++ p ++ b).
    destruct (strip_prefix p ((c :: a) ++ p ++ b)); [done|].
    destruct (find_sub p (a ++ p ++ b)) as [[? ?]|]; [done|discriminate].
Qed.

Lemma expand_dollar_free captures matched before after t :
  forallb (is_not "$") t = true -> expand captures matched before after t = t.
Proof.
  induction t as [|c t IH]; simpl; [done|].
  intros [Hc Ht]%andb_prop. unfold is_not in Hc.
  rewrite Ascii.eqb_sym in Hc. apply negb_true_iff in Hc. rewrite Hc. by rewrite IH.
Qed.

(** *** The matcher finds the matches *)

Lemma greedy_sound {R : Type} cls (k : jsstring -> option R) :
  forall s seg res,
    greedy cls k s = Some (seg, res) ->
    forallb cls seg = true /\ exists s', s = seg ++ s' /\ k s' = Some res.
Proof.
  induction s as [|c s IH]; intros seg res; simpl.
  - destruct (k []) eqn:E; [|discriminate]. inversion 1; subst. eauto.
  - destruct (cls c) eqn:Hc.
    + destruct (greedy cls k s) as [[seg' r']|] eqn:G.
      * inversion 1; subst. destruct (IH _ _ eq_refl) as (Hf & s' & -> & Hk).
        split; [simpl; by rewrite Hc|]. eauto.
      * destruct (k (c :: s)) eqn:E; [|discriminate]. inversion 1; subst. eauto.
    + destruct (k (c :: s)) eqn:E; [|discriminate]. inversion 1; subst. eauto.
Qed.

Lemma greedy_continue {R : Type} cls (k : jsstring -> option R) s :
  is_Some (k s) -> is_Some (greedy cls k s).
Proof.
  intros [r Hr]. destruct s as [|c s]; simpl.
  - rewrite Hr. eauto.
  - destruct (cls c); [destruct (greedy cls k s) as [[? ?]|]|]; rewrite ?Hr; eauto.
Qed.

Lemma greedy_complete {R : Type} cls (k : jsstring -> option R) s' :
  forall seg, forallb cls seg = true -> is_Some (k s') ->
              is_Some (greedy cls k (seg ++ s')).
Proof.
  induction seg as [|c seg IH]; intros Hf Hk.
  - by apply greedy_continue.
  - simpl in Hf. apply andb_prop in Hf as [Hc Hf]. simpl. rewrite Hc.
    destruct (IH Hf Hk) as [[seg' r] ->]. eauto.
Qed.

Lemma match_here_sound r :
  forall s segs rest,
    match_here r s = Some (segs, rest) -> segs_ok r segs /\ s = concat segs ++ rest.
Proof.
  induction r as [|a r IH]; intros s segs rest; simpl.
  - inversion 1; subst. split; [constructor|done].
  - destruct a as [c|cls|cls].
    + destruct s as [|d s]; [discriminate|].
      destruct (Ascii.eqb_spec c d) as [->|]; [|discriminate].
      destruct (match_here r s) as [[segs' rest']|] eqn:E; [|discriminate].
      inversion 1; subst. destruct (IH _ _ _ E) as [Hok ->].
      split; [by constructor|done].
    + destruct s as [|d s]; [discriminate|].
      destruct (cls d) eqn:Hd; [|discriminate].
      destruct (greedy cls (match_here r) s) as [[seg [segs' rest']]|] eqn:G; [|discriminate].
      inversion 1; subst.
      destruct (greedy_sound _ _ _ _ _ G) as (Hf & s' & -> & Hk).
      destruct (IH _ _ _ Hk) as [Hok ->].
      split.
      * constructor; [|done]. split; [done|]. simpl. by rewrite Hd.
      * simpl. by rewrite <- app_assoc.
    + destruct (greedy cls (match_here r) s) as [[seg [segs' rest']]|] eqn:G; [|discriminate].
      inversion 1; subst.
      destruct (greedy_sound _ _ _ _ _ G) as (Hf & s' & -> & Hk).
      destruct (IH _ _ _ Hk) as [Hok ->].
      split; [by constructor|]. simpl. by rewrite <- app_assoc.
Qed.

Lemma match_here_complete r segs :
  segs_ok r segs -> forall rest, is_Some (match_here r (concat segs ++ rest)).
Proof.
  induction 1 as [|a seg r segs Hseg _ IH]; intros rest; simpl; [eauto|].
  destruct a as [c|cls|cls]; simpl in Hseg.
  - subst seg. simpl. rewrite Ascii.eqb_refl.
    destruct (IH rest) as [[? ?] ->]. eauto.
  - destruct Hseg as [Hne Hf]. destruct seg as [|d seg]; [done|].
    simpl in Hf. apply andb_prop in Hf as [Hd Hf]. simpl. rewrite Hd.
    rewrite <- app_assoc.
    destruct (greedy_complete cls (match_here r) (concat segs ++ rest) seg Hf (IH rest))
      as [[? [? ?]] ->]. eauto.
  - rewrite <- app_assoc.
    destruct (greedy_complete cls (match_here r) (concat segs ++ rest) seg Hseg (IH rest))
      as [[? [? ?]] ->]. eauto.
Qed.

(** *** The leftmost match *)

Lemma search_sound r :
  forall s before segs after,
    search r s = Some (before, segs, after) ->
    s = before ++ concat segs ++ after
    /\ match_here r (concat segs ++ after) = Some (segs, after)
    /\ forall b1 b2, before = b1 ++ b2 -> b2 <> [] ->
                     match_here r (b2 ++ concat segs ++ after) = None.
Proof.
  induction s as [|c s IH]; intros before segs after; simpl.
  - destruct (match_here r []) as [[segs' rest']|] eqn:E; [|discriminate].
    inversion 1; subst. destruct (match_here_sound _ _ _ _ E) as [_ Hs].
    repeat split; [done|by rewrite <- Hs|].
    intros b1 b2 Hb Hne. by destruct b1, b2.
  - destruct (match_here r (c :: s)) as [[segs' rest']|] eqn:E.
    + inversion 1; subst. destruct (match_here_sound _ _ _ _ E) as [_ Hs].
      repeat split; [done|by rewrite <- Hs|].
      intros b1 b2 Hb Hne. by destruct b1, b2.
    + destruct (search r s) as [[[before' segs'] after']|] eqn:S; [|discriminate].
      inversion 1; subst. destruct (IH _ _ _ eq_refl) as (-> & Hm & Hleft).
      repeat split; [done|].
      intros b1 b2 Hb Hne. destruct b1 as [|d b1]; simpl in Hb.
      * subst b2. exact E.
      * inversion Hb; subst. by apply (Hleft b1 b2).
Qed.

Lemma search_None r :
  forall s, search r s = None -> forall a b, s = a ++ b -> match_here r b = None.
Proof.
  induction s as [|c s IH]; simpl; intros H a b Hs.
  - destruct a, b; try discriminate. by destruct (match_here r []) as [[? ?]|].
  - destruct (match_here r (c :: s)) as [[? ?]|] eqn:E; [discriminate|].
    destruct (search r s) as [[[? ?] ?]|] eqn:S; [discriminate|].
    destruct a as [|d a]; simpl in Hs.
    + by subst b.
    + inversion Hs; subst. by apply (IH eq_refl a b).
Qed.

Lemma search_first r text segs after :
  match_here r text = Some (segs, after) ->
  forall before,
    (forall b1 b2, before = b1 ++ b2 -> b2 <> [] -> match_here r (b2 ++ text) = None) ->
    search r (before ++ text) = Some (before, segs, after).
Proof.
  intros Hm. induction before as [|c before IH]; intros Hleft.
  - simpl. destruct text; simpl; by rewrite Hm.
  - simpl. change (c :: before ++ text) with ((c :: before) ++ text).
    rewrite (Hleft [] (c :: before)); [|done|done].
    rewrite IH; [done|]. intros b1 b2 -> Hne. by apply (Hleft (c :: b1) b2).
Qed.

Lemma search_None_intro r :
  forall s, (forall a b, s = a ++ b -> match_here r b = None) -> search r s = None.
Proof.
  induction s as [|c s IH]; intros H; simpl.
  - by rewrite (H [] []).
  - rewrite (H [] (c :: s)); [|done].
    rewrite IH; [done|]. intros a b ->. by apply (H (c :: a) b).
Qed.

End RegexFacts.

(** ** Version Normalizer *)

Module VersionNormalizerFacts.
Import VersionNormalizer RegexFacts.

#[local] Arguments match_here : simpl never.
#[local] Arguments search : simpl never.

Lemma search_cons r c s :
  search r (c :: s)
  = match match_here r (c :: s) with
    | Some (segs, rest) => Some ([], segs, rest)
    | None =>
        match search r s with
        | Some (before, segs, rest) => Some (c :: before, segs, rest)
        | None => None
        end
    end.
Proof. reflexivity. Qed.

(** *** What the pragma expression matches *)

Lemma space_not_semi c : is_space c = true -> is_not ";" c = true.
Proof.
  unfold is_not. destruct (Ascii.eqb_spec ";" c) as [<-|]; [|done].
  vm_compute. discriminate.
Qed.

Lemma spaces_no_semi w : forallb is_space w = true -> no_semi w.
Proof.
  unfold no_semi. induction w as [|c w IH]; simpl; [done|].
  intros [Hc Hw]%andb_prop. by rewrite space_not_semi, IH.
Qed.

Lemma no_semi_app a b : no_semi (a ++ b) <-> no_semi a /\ no_semi b.
Proof. unfold no_semi. rewrite forallb_app. apply andb_true_iff. Qed.

Lemma pragma_segs segs :
  segs_ok pragmaRegex segs ->
  exists w1 w2 x,
    segs = [["p"]; ["r"]; ["a"]; ["g"]; ["m"]; ["a"]; w1;
            ["s"]; ["o"]; ["l"]; ["i"]; ["d"]; ["i"]; ["t"]; ["y"]; w2; x; [";"]]%char
    /\ spaces w1 /\ spaces w2 /\ x <> [] /\ no_semi x.
Proof.
  unfold segs_ok, pragmaRegex, lits. simpl. intros H.
  repeat match goal with
         | H : Forall2 _ (_ :: _) _ |- _ => inversion H; subst; clear H
         | H : Forall2 _ [] _ |- _ => inversion H; subst; clear H
         end.
  simpl in *. subst.
  repeat match goal with H : _ /\ _ |- _ => destruct H end.
  eexists _, _, _. split; [reflexivity|]. unfold spaces, no_semi. auto.
Qed.

Lemma pragma_segs_ok w1 w2 x :
  spaces w1 -> spaces w2 -> x <> [] -> no_semi x ->
  segs_ok pragmaRegex
    [["p"]; ["r"]; ["a"]; ["g"]; ["m"]; ["a"]; w1;
     ["s"]; ["o"]; ["l"]; ["i"]; ["d"]; ["i"]; ["t"]; ["y"]; w2; x; [";"]]%char.
Proof.
  intros Hw1 Hw2 Hx Hs. unfold segs_ok, pragmaRegex, lits. simpl.
  repeat constructor; try apply Hw1; try apply Hw2; done.
Qed.

Lemma directive_concat w1 w2 x :
  concat [["p"]; ["r"]; ["a"]; ["g"]; ["m"]; ["a"]; w1;
          ["s"]; ["o"]; ["l"]; ["i"]; ["d"]; ["i"]; ["t"]; ["y"]; w2; x; [";"]]%char
  = directive w1 w2 x.
Proof. reflexivity. Qed.

(** A match of the pragma expression is a directive; its first group is
    the version. *)
Lemma pragma_match_directive s segs rest :
  match_here pragmaRegex s = Some (segs, rest) ->
  exists w1 w2 x,
    spaces w1 /\ spaces w2 /\ x <> [] /\ no_semi x
    /\ concat segs = directive w1 w2 x
    /\ group 16 1 segs = x
    /\ s = directive w1 w2 x ++ rest.
Proof.
  intros H. destruct (match_here_sound _ _ _ _ H) as [Hok ->].
  destruct (pragma_segs _ Hok) as (w1 & w2 & x & -> & Hw1 & Hw2 & Hx & Hs).
  exists w1, w2, x. split; [done|]. split; [done|]. split; [done|]. split; [done|].
  split; [apply directive_concat|]. split; [|by rewrite directive_concat].
  unfold group. simpl. apply app_nil_r.
Qed.

Lemma pragma_match_is_directive s segs rest :
  match_here pragmaRegex s = Some (segs, rest) ->
  is_directive (concat segs) /\ s = concat segs ++ rest.
Proof.
  intros H. destruct (pragma_match_directive _ _ _ H)
    as (w1 & w2 & x & Hw1 & Hw2 & Hx & Hs & Hc & _ & Hsplit).
  split; [|by rewrite Hc]. rewrite Hc. by exists w1, w2, x.
Qed.

(** Every directive at the start of a text is found. *)
Lemma pragma_match_complete m rest :
  is_directive m -> is_Some (match_here pragmaRegex (m ++ rest)).
Proof.
  intros (w1 & w2 & x & -> & Hw1 & Hw2 & Hx & Hs).
  rewrite <- directive_concat. apply match_here_complete. by apply pragma_segs_ok.
Qed.

(** A directive ends at its first semicolon. *)
Lemma directive_semi m :
  is_directive m -> exists m', m = m' ++ [";"%char] /\ no_semi m' /\ m' <> [].
Proof.
  intros (w1 & w2 & x & -> & [_ Hw1] & [_ Hw2] & Hx & Hs).
  exists (js "pragma" ++ w1 ++ js "solidity" ++ w2 ++ x).
  split; [|split].
  - unfold directive. by rewrite <- !app_assoc.
  - repeat (apply no_semi_app; split); try done; by apply spaces_no_semi.
  - discriminate.
Qed.

Lemma first_semi (a b x y : jsstring) :
  no_semi a -> no_semi b -> a ++ ";"%char :: x = b ++ ";"%char :: y -> a = b /\ x = y.
Proof.
  unfold no_semi. revert b. induction a as [|c a IH]; intros [|d b] Ha Hb H; simpl in *.
  - by inversion H.
  - inversion H; subst. simpl in Hb. discriminate.
  - inversion H; subst. simpl in Ha. discriminate.
  - apply andb_prop in Ha as [_ Ha]. apply andb_prop in Hb as [_ Hb].
    inversion H; subst. destruct (IH b Ha Hb) as [-> ->]; done.
Qed.

Lemma pragma_match_rest a r0 segs rest :
  no_semi a ->
  match_here pragmaRegex (a ++ ";"%char :: r0) = Some (segs, rest) ->
  concat segs = a ++ [";"%char] /\ rest = r0.
Proof.
  intros Ha H. destruct (pragma_match_is_directive _ _ _ H) as [Hd Hs].
  destruct (directive_semi _ Hd) as (m' & Hm & Hm' & _).
  rewrite Hm, <- app_assoc in Hs. simpl in Hs.
  destruct (first_semi _ _ _ _ Ha Hm' Hs) as [-> ->]. by rewrite Hm.
Qed.

(** Whether a directive starts a text depends on the text up to its first
    semicolon only. *)
Lemma pragma_match_ext a x y :
  no_semi a ->
  is_Some (match_here pragmaRegex (a ++ ";"%char :: x)) ->
  is_Some (match_here pragmaRegex (a ++ ";"%char :: y)).
Proof.
  intros Ha [[segs rest] H].
  destruct (pragma_match_rest _ _ _ _ Ha H) as [Hc ->].
  destruct (pragma_match_is_directive _ _ _ H) as [Hd _].
  rewrite Hc in Hd. pose proof (pragma_match_complete _ y Hd) as Hy.
  by rewrite <- app_assoc in Hy.
Qed.

(** A text with a semicolon splits at the first one. *)
Lemma split_first_semi (l : jsstring) :
  forallb (is_not ";") l = false ->
  exists l1 l2, l = l1 ++ ";"%char :: l2 /\ no_semi l1.
Proof.
  induction l as [|c l IH]; simpl; [discriminate|].
  destruct (is_not ";" c) eqn:Hc; simpl.
  - intros H. destruct (IH H) as (l1 & l2 & -> & Hl1).
    exists (c :: l1), l2. split; [done|]. unfold no_semi. simpl. by rewrite Hc.
  - intros _. exists [], l. split; [|done].
    unfold is_not in Hc. apply negb_false_iff, Ascii.eqb_eq in Hc. by subst.
Qed.

(** *** The required directive in place of another *)

Lemma required_split : requiredPragma = js "pragma solidity 0.8.28" ++ [";"%char].
Proof. vm_compute. reflexivity. Qed.

Lemma required_match after :
  exists segs, match_here pragmaRegex (requiredPragma ++ after) = Some (segs, after)
               /\ concat segs = requiredPragma.
Proof. eexists. split; vm_compute; reflexivity. Qed.

Lemma spaces_prefix (w u rest : jsstring) :
  forallb is_space w = true ->
  u ++ js "pragma solidity 0.8.28" = w ++ rest ->
  exists u', u = w ++ u' /\ u' ++ js "pragma solidity 0.8.28" = rest.
Proof.
  revert u. induction w as [|c w IH]; intros u Hw H.
  - by exists u.
  - simpl in Hw. apply andb_prop in Hw as [Hc Hw]. destruct u as [|d u].
    + simpl in H. injection H as <- _. vm_compute in Hc. discriminate.
    + simpl in H. injection H as -> H. destruct (IH u Hw H) as (u' & -> & H').
      by exists u'.
Qed.

(** When a directive starts before the required one and runs into it, its
    keyword part lies before the required one. *)
Lemma head_inside (u w1 y : jsstring) c :
  u <> [] -> forallb is_space w1 = true -> is_space c = true ->
  u ++ js "pragma solidity 0.8.28" = js "pragma" ++ w1 ++ js "solidity" ++ c :: y ->
  exists y1, u = js "pragma" ++ w1 ++ js "solidity" ++ c :: y1.
Proof.
  intros Hu Hw1 Hc H.
  assert (forall (v t : jsstring) (a : ascii),
            v ++ js "pragma solidity 0.8.28" = a :: t ->
            a <> "p"%char -> exists v', v = a :: v' /\ v' ++ js "pragma solidity 0.8.28" = t)
    as step.
  { intros v t a Hv Ha. destruct v as [|d v].
    - simpl in Hv. injection Hv as <- _. contradiction.
    - simpl in Hv. injection Hv as -> Hv. by exists v. }
  destruct u as [|d u]; [done|].
  simpl in H. injection H as -> H.
  do 5 (apply step in H as (? & -> & H); [|discriminate]).
  destruct (spaces_prefix _ _ _ Hw1 H) as (u' & -> & H'). simpl in H'.
  do 8 (apply step in H' as (? & -> & H'); [|discriminate]).
  apply step in H' as (y1 & -> & _).
  - exists y1. reflexivity.
  - intros ->. vm_compute in Hc. discriminate.
Qed.

Lemma directive_grows (u m' : jsstring) :
  u <> [] -> no_semi u ->
  is_directive ((u ++ js "pragma solidity 0.8.28") ++ [";"%char]) ->
  m' <> [] -> no_semi m' ->
  is_directive ((u ++ m') ++ [";"%char]).
Proof.
  intros Hu Hsu (w1 & w2 & x & Heq & [Hw1n Hw1] & [Hw2n Hw2] & Hx & Hs) Hm Hsm.
  unfold directive in Heq.
  replace (js "pragma" ++ w1 ++ js "solidity" ++ w2 ++ x ++ js ";")
    with ((js "pragma" ++ w1 ++ js "solidity" ++ w2 ++ x) ++ [";"%char]) in Heq
    by (by rewrite <- !app_assoc).
  apply app_inj_tail in Heq as [Heq _].
  destruct w2 as [|c w2]; [done|]. simpl in Hw2. apply andb_prop in Hw2 as [Hc Hw2].
  destruct (head_inside u w1 (w2 ++ x) c Hu Hw1 Hc Heq) as (y1 & ->).
  exists w1, [c], (y1 ++ m'). split; [|split; [|split; [|split]]].
  - unfold directive. rewrite <- !app_assoc. simpl. reflexivity.
  - by split.
  - split; [done|]. simpl. by rewrite Hc.
  - destruct y1; [done|discriminate].
  - apply no_semi_app. split; [|done].
    apply no_semi_app in Hsu as [_ Hsu]. apply no_semi_app in Hsu as [_ Hsu].
    apply no_semi_app in Hsu as [_ Hsu]. unfold no_semi in *. simpl in Hsu.
    by apply andb_prop in Hsu as [_ Hsu].
Qed.

(** Where the directive of a text did not start, the required directive in
    its place does not start either. *)
Lemma pragma_not_earlier (b2 m' post : jsstring) :
  b2 <> [] -> m' <> [] -> no_semi m' ->
  match_here pragmaRegex (b2 ++ (m' ++ [";"%char]) ++ post) = None ->
  match_here pragmaRegex (b2 ++ requiredPragma ++ post) = None.
Proof.
  intros Hb Hm Hsm Hnone.
  destruct (match_here pragmaRegex (b2 ++ requiredPragma ++ post)) as [[segs rest]|] eqn:E;
    [exfalso|done].
  assert (match_here pragmaRegex (b2 ++ (m' ++ [";"%char]) ++ post) <> None) as Hsome;
    [|contradiction].
  rewrite required_split in E.
  destruct (forallb (is_not ";") b2) eqn:Hb2.
  - replace (b2 ++ (js "pragma solidity 0.8.28" ++ [";"%char]) ++ post)
      with ((b2 ++ js "pragma solidity 0.8.28") ++ ";"%char :: post) in E
      by (by rewrite <- !app_assoc).
    assert (no_semi (b2 ++ js "pragma solidity 0.8.28")) as Hs
      by (apply no_semi_app; split; [done | vm_compute; reflexivity]).
    destruct (pragma_match_rest _ _ _ _ Hs E) as [Hc _].
    destruct (pragma_match_is_directive _ _ _ E) as [Hd _]. rewrite Hc in Hd.
    pose proof (directive_grows b2 m' Hb Hb2 Hd Hm Hsm) as Hd'.
    destruct (pragma_match_complete _ post Hd') as [r Hr].
    rewrite <- !app_assoc in Hr. rewrite <- !app_assoc. by rewrite Hr.
  - destruct (split_first_semi _ Hb2) as (l1 & l2 & -> & Hl1).
    rewrite <- !app_assoc in E. simpl in E.
    destruct (pragma_match_ext l1 _ (l2 ++ (m' ++ [";"%char]) ++ post) Hl1 (mk_is_Some _ _ E))
      as [r Hr].
    replace ((l1 ++ ";"%char :: l2) ++ (m' ++ [";"%char]) ++ post)
      with (l1 ++ ";"%char :: l2 ++ (m' ++ [";"%char]) ++ post)
      by (by rewrite <- !app_assoc).
    by rewrite Hr.
Qed.

(** The leftmost directive stays the leftmost one after its replacement. *)
Lemma search_after_replacement s before segs after :
  search pragmaRegex s = Some (before, segs, after) ->
  exists segs',
    search pragmaRegex (before ++ requiredPragma ++ after) = Some (before, segs', after)
    /\ concat segs' = requiredPragma.
Proof.
  intros H. destruct (search_sound _ _ _ _ _ H) as (Hs & Hm & Hleft).
  destruct (pragma_match_is_directive _ _ _ Hm) as [Hd _].
  destruct (directive_semi _ Hd) as (m' & Hm' & Hsm & Hne).
  destruct (required_match after) as (segs' & Hr & Hc).
  exists segs'. split; [|done].
  apply search_first; [done|].
  intros b1 b2 Hb Hb2. apply (pragma_not_earlier b2 m' after Hb2 Hne Hsm).
  rewrite <- Hm'. by apply (Hleft b1 b2).
Qed.

Lemma usable_string (l : jsstring) : l <> [] -> usable (JsString l) = Some l.
Proof. by destruct l. Qed.

Lemma expand_required captures matched before after :
  expand captures matched before after requiredPragma = requiredPragma.
Proof. apply expand_dollar_free. vm_compute. reflexivity. Qed.

Lemma forceVersion_replaces s before segs after :
  s <> [] ->
  search pragmaRegex s = Some (before, segs, after) ->
  forceVersion (JsString s) = before ++ requiredPragma ++ after.
Proof.
  intros Hs H. unfold forceVersion, pragmaMatch, replace_regex.
  rewrite usable_string by done. rewrite H. by rewrite expand_required.
Qed.

Lemma forceVersion_inserts s :
  s <> [] ->
  search pragmaRegex s = None ->
  forceVersion (JsString s) = js "pragma solidity 0.8.28;\n\n" ++ s.
Proof.
  intros Hs H. unfold forceVersion, pragmaMatch.
  rewrite usable_string by done. by rewrite H.
Qed.

Lemma pragmaMatch_None s : pragmaMatch s = None <-> search pragmaRegex s = None.
Proof.
  unfold pragmaMatch. destruct (search pragmaRegex s) as [[[? ?] ?]|]; split; done.
Qed.

Lemma top_split s :
  js "pragma solidity 0.8.28;\n\n" ++ s = [] ++ requiredPragma ++ (nl :: nl :: s).
Proof. vm_compute. reflexivity. Qed.

Lemma search_top s :
  exists segs,
    search pragmaRegex (js "pragma solidity 0.8.28;\n\n" ++ s)
    = Some ([], segs, nl :: nl :: s)
    /\ concat segs = requiredPragma.
Proof.
  destruct (required_match (nl :: nl :: s)) as (segs & Hm & Hc).
  exists segs. split; [|done]. rewrite top_split.
  apply search_first; [done|]. intros b1 b2 Hb Hne. by destruct b1, b2.
Qed.

(** *** Counting directives *)

Lemma count_matches_None n r s : search r s = None -> count_matches n r s = 0.
Proof. intros H. destruct n; simpl; [done|]. by rewrite H. Qed.

Lemma count_matches_once n r s before segs after :
  search r s = Some (before, segs, after) ->
  search r after = None ->
  count_matches (S n) r s = 1.
Proof. intros H Ha. simpl. rewrite H. by rewrite count_matches_None. Qed.

Lemma match_here_nl rest : match_here pragmaRegex (nl :: rest) = None.
Proof. reflexivity. Qed.

Lemma search_suffix r (a b : jsstring) : search r (a ++ b) = None -> search r b = None.
Proof.
  intros H. apply search_None_intro. intros a' b' ->.
  apply (search_None r _ H (a ++ a') b'). by rewrite <- app_assoc.
Qed.

Lemma search_nl_nl s :
  search pragmaRegex s = None -> search pragmaRegex (nl :: nl :: s) = None.
Proof.
  intros H. apply search_None_intro. intros a b Hs.
  destruct a as [|c1 [|c2 a]]; simpl in Hs.
  - subst b. apply match_here_nl.
  - inversion Hs; subst. apply match_here_nl.
  - inversion Hs; subst. by apply (search_None _ _ H a b).
Qed.

(** After an insertion behind a line of a text without directive, the scan
    finds the inserted directive and ends behind it. *)
Lemma pragma_search_through (post : jsstring) : forall a : jsstring,
  (forall a1 a2, a = a1 ++ a2 -> match_here pragmaRegex (a2 ++ nl :: post) = None) ->
  exists before segs,
    search pragmaRegex (a ++ nl :: nl :: requiredPragma ++ nl :: post)
    = Some (before, segs, nl :: post).
Proof.
  induction a as [|c a IH]; intros H.
  - destruct (required_match (nl :: post)) as (segs & Hm & _).
    exists [nl; nl], segs.
    change ([] ++ nl :: nl :: requiredPragma ++ nl :: post)
      with ([nl; nl] ++ (requiredPragma ++ nl :: post)).
    apply search_first; [exact Hm|].
    intros b1 b2 Hb Hne. destruct b1 as [|c1 [|c2 b1]]; simpl in Hb.
    + subst b2. apply match_here_nl.
    + inversion Hb; subst. apply match_here_nl.
    + inversion Hb as [[Hc1 Hc2 Hb']]. by destruct b1, b2.
  - cbn [app]. rewrite search_cons.
    destruct (match_here pragmaRegex
                (c :: a ++ nl :: nl :: requiredPragma ++ nl :: post))
      as [[segs rest]|] eqn:E.
    + assert (rest = nl :: post) as ->; [|eauto].
      rewrite required_split in E.
      destruct (forallb (is_not ";") (c :: a)) eqn:Hca.
      * replace (c :: a ++ nl :: nl :: (js "pragma solidity 0.8.28" ++ [";"%char]) ++ nl :: post)
          with (((c :: a) ++ nl :: nl :: js "pragma solidity 0.8.28")
                ++ ";"%char :: nl :: post) in E
          by (rewrite <- ?app_assoc; simpl; rewrite <- ?app_assoc; reflexivity).
        assert (no_semi ((c :: a) ++ nl :: nl :: js "pragma solidity 0.8.28")) as Hs
          by (apply no_semi_app; split; [done | vm_compute; reflexivity]).
        by destruct (pragma_match_rest _ _ _ _ Hs E) as [_ ->].
      * exfalso. destruct (split_first_semi _ Hca) as (l1 & l2 & Hl & Hl1).
        change (c :: a ++ nl :: nl :: (js "pragma solidity 0.8.28" ++ [";"%char]) ++ nl :: post)
          with ((c :: a) ++ nl :: nl :: (js "pragma solidity 0.8.28" ++ [";"%char])
                ++ nl :: post) in E.
        rewrite Hl, <- app_assoc in E. simpl in E.
        destruct (pragma_match_ext l1 _ (l2 ++ nl :: post) Hl1 (mk_is_Some _ _ E)) as [r Hr].
        specialize (H [] (c :: a) eq_refl).
        rewrite Hl, <- app_assoc in H. simpl in H. congruence.
    + destruct IH as (before & segs & ->); [|eauto].
      intros a1 a2 ->. by apply (H (c :: a1) a2).
Qed.

(** *** What the license expression matches *)

Lemma segs_end r c segs :
  segs_ok (r ++ [Chr c]) segs -> exists m0, concat segs = m0 ++ [c].
Proof.
  unfold segs_ok. intros (k1 & k2 & _ & H2 & ->)%Forall2_app_inv_l.
  inversion H2 as [|? seg ? k2' Hseg Hnil]; subst. inversion Hnil; subst.
  simpl in Hseg. subst seg. exists (concat k1).
  rewrite concat_app. simpl. reflexivity.
Qed.

Lemma spdx_ends_line segs : segs_ok spdxRegex segs -> exists m0, concat segs = m0 ++ [nl].
Proof.
  change spdxRegex
    with ((lits (js "//") ++ [Star is_space] ++ lits (js "SPDX-License-Identifier:")
           ++ [Plus (is_not nl)]) ++ [Chr nl]).
  apply segs_end.
Qed.

(** The text of the leftmost match occurs first where it was matched. *)
Lemma find_sub_leftmost r s before segs after :
  search r s = Some (before, segs, after) ->
  find_sub (concat segs) s = Some (before, after).
Proof.
  intros H. destruct (search_sound _ _ _ _ _ H) as (-> & Hm & Hleft).
  destruct (match_here_sound _ _ _ _ Hm) as [Hok _].
  apply find_sub_first. intros b1 b2 Hb Hne.
  destruct (strip_prefix (concat segs) (b2 ++ concat segs ++ after)) as [rest|] eqn:E;
    [|done].
  exfalso. apply strip_prefix_spec in E.
  destruct (match_here_complete _ _ Hok rest) as [res Hres].
  rewrite <- E in Hres. rewrite (Hleft b1 b2 Hb Hne) in Hres. discriminate.
Qed.

Lemma forceCorrectVersion_inserts s :
  s <> [] ->
  search pragmaRegex s = None ->
  spdx_dollar_free s = true ->
  forceCorrectVersion (JsString s) = insert_after_spdx s.
Proof.
  intros Hs Hp Hd. unfold forceCorrectVersion, insert_after_spdx.
  rewrite usable_string by done.
  apply pragmaMatch_None in Hp. rewrite Hp. clear Hp.
  unfold spdx_dollar_free, spdxMatch in *.
  destruct (search spdxRegex s) as [[[before segs] after]|] eqn:E; [|done].
  unfold replace_string. rewrite (find_sub_leftmost _ _ _ _ _ E).
  rewrite expand_dollar_free.
  - by rewrite <- !app_assoc.
  - unfold dollar_free in Hd. rewrite forallb_app, Hd. vm_compute. reflexivity.
Qed.

Lemma insert_after_spdx_once s :
  search pragmaRegex s = None -> count_pragmas (insert_after_spdx s) = 1.
Proof.
  intros Hp. unfold insert_after_spdx, count_pragmas.
  destruct (search spdxRegex s) as [[[before segs] after]|] eqn:E.
  - destruct (search_sound _ _ _ _ _ E) as (Hs & Hm & _).
    destruct (match_here_sound _ _ _ _ Hm) as [Hok _].
    destruct (spdx_ends_line _ Hok) as (m0 & Hm0).
    assert (s = (before ++ m0) ++ nl :: after) as Hs'
      by (rewrite Hs, Hm0; by rewrite <- !app_assoc).
    rewrite Hm0.
    assert (before ++ (m0 ++ [nl]) ++ js "\npragma solidity 0.8.28;\n" ++ after
            = (before ++ m0) ++ nl :: nl :: requiredPragma ++ nl :: after) as ->
      by (rewrite <- !app_assoc; reflexivity).
    destruct (pragma_search_through after (before ++ m0)) as (b' & segs' & Hsearch).
    { intros a1 a2 Ha. apply (search_None _ _ Hp a1).
      rewrite Hs', Ha. by rewrite <- app_assoc. }
    eapply count_matches_once; [exact Hsearch|].
    apply (search_suffix _ (before ++ m0)). by rewrite <- Hs'.
  - destruct (search_top s) as (segs & Hsearch & _).
    eapply count_matches_once; [exact Hsearch|]. by apply search_nl_nl.
Qed.

(** *** Main properties *)

Lemma usable_inv source s : usable source = Some s -> s <> [] /\ source = JsString s.
Proof.
  destruct source as [[|c l]| | |]; simpl; try discriminate.
  inversion 1; subst. split; [discriminate|reflexivity].
Qed.

Lemma replaced_not_empty (before after : jsstring) : before ++ requiredPragma ++ after <> [].
Proof. destruct before; discriminate. Qed.


(** C6, as the code has it: for a source text that is not empty and has no
    directive, forceVersion of fixed-solc-plugin.cjs puts the directive and
    an empty line at the very top, whether or not the text has an SPDX
    license comment; forceCorrectVersion of simple-mcp-plugin-v2.cjs puts
    the directive right after the first SPDX license comment line when the
    text has one (a line without dollar sign), and at the very top when it
    has none.  In each case the output has exactly one pragma directive. *)
Theorem pragma_inserted_once s :
  s <> [] ->
  pragmaMatch s = None ->
  forceVersion (JsString s) = js "pragma solidity 0.8.28;\n\n" ++ s
  /\ count_pragmas (forceVersion (JsString s)) = 1
  /\ (spdx_dollar_free s = true ->
      forceCorrectVersion (JsString s) = insert_after_spdx s
      /\ count_pragmas (forceCorrectVersion (JsString s)) = 1).
Proof.
  intros Hs Hp. apply pragmaMatch_None in Hp.
  rewrite (forceVersion_inserts s Hs Hp). split; [done|]. split.
  - unfold count_pragmas. destruct (search_top s) as (segs & Hsearch & _).
    eapply count_matches_once; [exact Hsearch|]. by apply search_nl_nl.
  - intros Hd. rewrite (forceCorrectVersion_inserts s Hs Hp Hd).
    split; [done|]. by apply insert_after_spdx_once.
Qed.

(** C9: forceVersion returns a text for every input, string or not; the
    text contains the directive [pragma solidity 0.8.28;], and forceVersion
    maps it to itself. *)
Theorem forceVersion_idempotent (source : js_value) :
  includes (forceVersion source) (js "pragma solidity 0.8.28;") = true
  /\ forceVersion (JsString (forceVersion source)) = forceVersion source.
Proof.
  destruct (usable source) as [s|] eqn:Hu.
  - apply usable_inv in Hu as [Hs ->].
    destruct (search pragmaRegex s) as [[[before segs] after]|] eqn:E.
    + rewrite (forceVersion_replaces s before segs after Hs E).
      split; [apply includes_app|].
      destruct (search_after_replacement _ _ _ _ E) as (segs' & E' & _).
      apply (forceVersion_replaces _ before segs' after); [|exact E'].
      apply replaced_not_empty.
    + rewrite (forceVersion_inserts s Hs E). rewrite top_split.
      split; [apply includes_app|].
      destruct (search_top s) as (segs & E' & _). rewrite top_split in E'.
      apply (forceVersion_replaces _ [] segs (nl :: nl :: s)); [|exact E'].
      apply replaced_not_empty.
  - assert (forceVersion source = fallbackSource) as ->
      by (unfold forceVersion; by rewrite Hu).
    split; vm_compute; reflexivity.
Qed.

Import Examples.



(** C6 fails on forceVersion: with an SPDX license comment and no
    directive, the directive goes above the comment, not after it. *)
Lemma forceVersion_inserts_above_license :
  pragmaMatch licensed = None
  /\ spdxMatch licensed = Some (js "// SPDX-License-Identifier: MIT\n")
  /\ forceVersion (JsString licensed)
     = js "pragma solidity 0.8.28;\n\n// SPDX-License-Identifier: MIT\ncontract C {}"
  /\ forceVersion (JsString licensed) <> insert_after_spdx licensed.
Proof.
  split; [vm_compute; reflexivity|]. split; [vm_compute; reflexivity|].
  split; [vm_compute; reflexivity|]. vm_compute. discriminate.
Qed.

Lemma pragma_inserted_once_witness :
  forceCorrectVersion (JsString licensed)
  = js "// SPDX-License-Identifier: MIT\n\npragma solidity 0.8.28;\ncontract C {}"
  /\ count_pragmas (forceCorrectVersion (JsString licensed)) = 1.
Proof.
  assert (licensed <> []) as Hs by discriminate.
  assert (pragmaMatch licensed = None) as Hp by (vm_compute; reflexivity).
  assert (spdx_dollar_free licensed = true) as Hd by (vm_compute; reflexivity).
  destruct (pragma_inserted_once licensed Hs Hp) as (_ & _ & H).
  destruct (H Hd) as [H1 H2]. split; [|exact H2].
  rewrite H1. vm_compute. reflexivity.
Defined.

End VersionNormalizerFacts.

(** ** Facts on contract names *)

Module ContractNameFacts.
Import VersionNormalizer ContractName RegexFacts.

#[local] Arguments match_here : simpl never.
#[local] Arguments search : simpl never.

(** A greedy repetition whose continuation accepts every text takes all the
    characters of the class. *)
Lemma greedy_all {R : Type} cls (k : jsstring -> option R) :
  (forall s, is_Some (k s)) ->
  forall s seg res, greedy cls k s = Some (seg, res) ->
    exists rest, s = seg ++ rest /\ forallb cls seg = true
                 /\ match rest with [] => True | c :: _ => cls c = false end
                 /\ k rest = Some res.
Proof.
  intros Hk. induction s as [|c s IH]; intros seg res H; simpl in H.
  - destruct (k []) as [r|] eqn:E; [|discriminate]. inversion H; subst.
    exists []. by repeat split.
  - destruct (cls c) eqn:Hc.
    + destruct (greedy cls k s) as [[seg' r']|] eqn:E.
      * inversion H; subst. destruct (IH _ _ eq_refl) as (rest & -> & Hs & Hr & Hk').
        exists rest. simpl. rewrite Hc. by repeat split.
      * exfalso. destruct (greedy_continue cls k s (Hk s)) as [x Hx]. congruence.
    + destruct (k (c :: s)) as [r|] eqn:E; [|discriminate]. inversion H; subst.
      exists (c :: s). simpl. by repeat split.
Qed.

Lemma space_not_word c : is_space c = true -> is_word c = false.
Proof.
  destruct c as [[] [] [] [] [] [] [] []]; vm_compute; congruence.
Qed.

(** After a match of an expression that ends with a repetition, the text
    does not go on with a character of its class. *)
Lemma match_here_last_plus r cls :
  forall s segs rest,
    match_here (r ++ [Plus cls]) s = Some (segs, rest) ->
    match rest with [] => True | c :: _ => cls c = false end.
Proof.
  induction r as [|a r IH]; intros s segs rest H.
  - cbn [app] in H. unfold match_here in H. destruct s as [|d s']; [discriminate|].
    destruct (cls d); [|discriminate].
    destruct (greedy cls _ s') as [[seg [segs' rest']]|] eqn:E; [|discriminate].
    inversion H; subst.
    destruct (greedy_all cls (fun s => Some ([], s)) (fun s => mk_is_Some _ _ eq_refl)
                _ _ _ E) as (rest0 & _ & _ & Hend & Hk).
    by inversion Hk; subst.
  - cbn [app] in H. destruct a as [c|cls'|cls']; unfold match_here in H; fold match_here in H.
    + destruct s as [|d s']; [discriminate|]. destruct (Ascii.eqb c d); [|discriminate].
      destruct (match_here (r ++ [Plus cls]) s') as [[segs' rest']|] eqn:E; [|discriminate].
      inversion H; subst. by eapply IH.
    + destruct s as [|d s']; [discriminate|]. destruct (cls' d); [|discriminate].
      destruct (greedy cls' _ s') as [[seg [segs' rest']]|] eqn:E; [|discriminate].
      inversion H; subst.
      destruct (greedy_sound _ _ _ _ _ E) as (_ & s'' & _ & Hk). by eapply IH.
    + destruct (greedy cls' _ s) as [[seg [segs' rest']]|] eqn:E; [|discriminate].
      inversion H; subst.
      destruct (greedy_sound _ _ _ _ _ E) as (_ & s'' & _ & Hk). by eapply IH.
Qed.

(** What a match of the contract expression is made of. *)
Lemma contract_match s segs rest :
  match_here contractRegex s = Some (segs, rest) ->
  exists w name,
    segs = [["c"]; ["o"]; ["n"]; ["t"]; ["r"]; ["a"]; ["c"]; ["t"]; w; name]%char
    /\ spaces_of w /\ word name /\ word_ends rest
    /\ s = declaration w name ++ rest.
Proof.
  intros H. destruct (match_here_sound _ _ _ _ H) as [Hok Hs].
  unfold segs_ok, contractRegex in Hok. cbn [lits map app] in Hok.
  repeat match goal with
         | H : Forall2 _ (_ :: _) _ |- _ => apply Forall2_cons_inv_l in H as (? & ? & ? & ? & ->)
         | H : Forall2 _ [] _ |- _ => apply Forall2_nil_inv_l in H as ->
         end.
  cbn [seg_ok] in *. subst.
  match goal with
  | Hw : ?w <> [] /\ forallb is_space ?w = true,
    Hn : ?n <> [] /\ forallb is_word ?n = true |- _ =>
      exists w, n; split; [reflexivity|]; split; [exact Hw|]; split; [exact Hn|]
  end.
  split; [|unfold declaration; cbn; by rewrite <- ?app_assoc].
  exact (match_here_last_plus (lits (js "contract") ++ [Plus is_space]) is_word _ _ _ H).
Qed.

Lemma declaration_segs_ok w name :
  spaces_of w -> word name ->
  segs_ok contractRegex
    [["c"]; ["o"]; ["n"]; ["t"]; ["r"]; ["a"]; ["c"]; ["t"]; w; name]%char.
Proof.
  intros Hw Hn. unfold segs_ok, contractRegex. cbn [lits map app].
  repeat (constructor; [first [reflexivity | exact Hw | exact Hn]|]). constructor.
Qed.

Lemma declares_search s : declares s <-> is_Some (search contractRegex s).
Proof.
  split.
  - intros (before & w & name & after & Hs & Hw & Hn).
    destruct (search contractRegex s) as [x|] eqn:E; [by eexists|]. exfalso.
    pose proof (search_None _ _ E before (declaration w name ++ after) Hs) as Hnone.
    destruct (match_here_complete _ _ (declaration_segs_ok w name Hw Hn) after) as [x Hx].
    change (concat [["c"]; ["o"]; ["n"]; ["t"]; ["r"]; ["a"]; ["c"]; ["t"]; w; name]%char)
      with (js "contract" ++ w ++ name ++ []) in Hx.
    rewrite app_nil_r in Hx. unfold declaration in Hnone.
    rewrite <- !app_assoc in Hnone. rewrite <- !app_assoc in Hx. congruence.
  - intros [[[before segs] after] E].
    destruct (search_sound _ _ _ _ _ E) as (Hs & Hm & _).
    destruct (contract_match _ _ _ Hm) as (w & name & -> & Hw & Hn & _ & Hd).
    exists before, w, name, after. split; [|done]. by rewrite Hs, Hd.
Qed.

Lemma contractMatch_word s name : contractMatch s = Some name -> word name.
Proof.
  unfold contractMatch.
  destruct (search contractRegex s) as [[[before segs] after]|] eqn:E; [|discriminate].
  destruct (search_sound _ _ _ _ _ E) as (_ & Hm & _).
  destruct (contract_match _ _ _ Hm) as (w & n & -> & _ & Hn & _).
  cbn. rewrite app_nil_r. by inversion 1; subst.
Qed.

(** A character that does not start the expression is skipped. *)
Lemma search_other_char c r d s :
  Ascii.eqb c d = false ->
  search (Chr c :: r) (d :: s)
  = match search (Chr c :: r) s with
    | Some (before, segs, rest) => Some (d :: before, segs, rest)
    | None => None
    end.
Proof.
  intros H. rewrite VersionNormalizerFacts.search_cons. unfold match_here. by rewrite H.
Qed.

Lemma contractMatch_after_pragma s :
  contractMatch (js "pragma solidity 0.8.28;\n\n" ++ s) = contractMatch s.
Proof.
  unfold contractMatch, contractRegex. cbn [lits map app].
  rewrite !search_other_char by reflexivity.
  by destruct (search _ s) as [[[before segs] after]|].
Qed.

(** *** Main properties *)

(** X1: the name that extractContractName returns for a source where the
    contract expression matches is the name of the leftmost declaration
    [contract <white space> <name>] of the text: the name is not empty, is
    made of word characters, and is followed by no word character.  The
    version of contract-deployer.ts returns the same name. *)
Theorem contract_name_is_first_declaration s name :
  contractMatch s = Some name ->
  exists before w after,
    s = before ++ declaration w name ++ after
    /\ spaces_of w /\ word name /\ word_ends after
    /\ (forall b1 b2, before = b1 ++ b2 -> b2 <> [] ->
          match_here contractRegex (b2 ++ declaration w name ++ after) = None)
    /\ extractContractName s = name
    /\ Deployer.extractContractName s = Return name.
Proof.
  intros H. pose proof (contractMatch_word _ _ H) as Hword.
  assert (extractContractName s = name /\ Deployer.extractContractName s = Return name)
    as [He Hd].
  { unfold extractContractName, Deployer.extractContractName. rewrite H.
    destruct name; [by destruct Hword|done]. }
  revert H. unfold contractMatch.
  destruct (search contractRegex s) as [[[before segs] after]|] eqn:E; [|discriminate].
  intros H. destruct (search_sound _ _ _ _ _ E) as (Hs & Hm & Hleft).
  destruct (contract_match _ _ _ Hm) as (w & n & Hsegs & Hw & Hn & Hend & Hdecl).
  assert (n = name) as ->
    by (rewrite Hsegs in H; cbn in H; rewrite app_nil_r in H; by inversion H).
  exists before, w, after. rewrite Hdecl in Hs, Hleft. done.
Qed.

(** X2: extractContractName finds a name exactly in the sources that hold
    a declaration [contract <white space> <name>] somewhere, comments
    included.  For the other sources the plugins fall back to
    'SimpleContract' and contract-deployer.ts throws; the plugins never
    return an empty name. *)
Theorem contract_name_found_iff_declared s :
  (declares s <->
   exists n, Deployer.extractContractName s = Return n
             /\ extractContractName s = n /\ word n)
  /\ (~ declares s <->
      Deployer.extractContractName s
      = Throw (js "Could not detect contract name from source code")
      /\ extractContractName s = js "SimpleContract")
  /\ extractContractName s <> [].
Proof.
  rewrite declares_search.
  unfold extractContractName, Deployer.extractContractName.
  destruct (contractMatch s) as [n|] eqn:E.
  - pose proof (contractMatch_word _ _ E) as Hw.
    assert (is_Some (search contractRegex s)) as Hs.
    { unfold contractMatch in E. destruct (search contractRegex s); [by eexists|discriminate]. }
    destruct n as [|c n]; [by destruct Hw|].
    split; [split; [eauto|done]|]. split; [|done].
    split; [done|]. intros [? _]. discriminate.
  - assert (search contractRegex s = None) as Hs.
    { unfold contractMatch in E. by destruct (search contractRegex s) as [[[??]?]|]. }
    rewrite Hs. split; [split; [by intros [? ?]|by intros (? & ? & _)]|].
    split; [|done]. split; [done|]. intros _ [? ?]. discriminate.
Qed.

(** X3: when forceVersion inserts the directive at the top of a source
    without directive, the contract name that deployContract extracts from
    the fixed source is the one of the source as given. *)
Theorem inserted_pragma_keeps_contract_name s :
  s <> [] ->
  pragmaMatch s = None ->
  extractContractName (forceVersion (JsString s)) = extractContractName s.
Proof.
  intros Hs Hp. unfold forceVersion. destruct s as [|c s]; [done|].
  cbn [usable]. rewrite Hp. unfold extractContractName.
  by rewrite contractMatch_after_pragma.
Qed.

(** *** Concrete runs *)

Lemma contract_name_is_first_declaration_witness :
  contractMatch Examples.licensed = Some (js "C")
  /\ extractContractName Examples.licensed = js "C"
  /\ Deployer.extractContractName Examples.licensed = Return (js "C").
Proof.
  assert (contractMatch Examples.licensed = Some (js "C")) as H by (vm_compute; reflexivity).
  split; [exact H|].
  destruct (contract_name_is_first_declaration Examples.licensed (js "C") H)
    as (before & w & after & _ & _ & _ & _ & _ & He & Hd).
  split; [exact He | exact Hd].
Defined.

Lemma inserted_pragma_keeps_contract_name_witness :
  Examples.licensed <> []
  /\ pragmaMatch Examples.licensed = None
  /\ extractContractName (forceVersion (JsString Examples.licensed))
     = extractContractName Examples.licensed.
Proof.
  assert (Examples.licensed <> []) as Hs by discriminate.
  assert (pragmaMatch Examples.licensed = None) as Hp by (vm_compute; reflexivity).
  split; [exact Hs|]. split; [exact Hp|].
  exact (inserted_pragma_keeps_contract_name Examples.licensed Hs Hp).
Defined.

End ContractNameFacts.

(** ** Facts on the deploy tool of the plugins *)

Module PluginDeployFacts.
Import VersionNormalizer RegexFacts PluginDeploy.

#[local] Arguments match_here : simpl never.
#[local] Arguments search : simpl never.

(** The text that forceVersion returns holds the required directive, and
    forceVersion leaves it as it is. *)
Lemma forceVersion_fixed (source : js_value) :
  includes (forceVersion source) requiredPragma = true
  /\ forceVersion (JsString (forceVersion source)) = forceVersion source.
Proof.
  destruct (usable source) as [s|] eqn:Hu.
  - apply VersionNormalizerFacts.usable_inv in Hu as [Hs ->].
    destruct (search pragmaRegex s) as [[[before segs] after]|] eqn:E.
    + rewrite (VersionNormalizerFacts.forceVersion_replaces s before segs after Hs E).
      split; [apply includes_app|].
      destruct (VersionNormalizerFacts.search_after_replacement _ _ _ _ E)
        as (segs' & E' & _).
      apply (VersionNormalizerFacts.forceVersion_replaces _ before segs' after); [|exact E'].
      apply VersionNormalizerFacts.replaced_not_empty.
    + rewrite (VersionNormalizerFacts.forceVersion_inserts s Hs E).
      rewrite VersionNormalizerFacts.top_split.
      split; [apply includes_app|].
      destruct (VersionNormalizerFacts.search_top s) as (segs & E' & _).
      rewrite VersionNormalizerFacts.top_split in E'.
      apply (VersionNormalizerFacts.forceVersion_replaces _ [] segs (nl :: nl :: s));
        [|exact E'].
      apply VersionNormalizerFacts.replaced_not_empty.
  - assert (forceVersion source = fallbackSource) as ->
      by (unfold forceVersion; by rewrite Hu).
    split; vm_compute; reflexivity.
Qed.

(** *** Main properties *)

(** X4: the deploy tool of fixed-solc-plugin.cjs only ever hands the
    compiler a source that holds [pragma solidity 0.8.28;]: a compiler that
    refuses every other source gives the same results, for deployContract
    on any value and for the handler on any request. *)
Theorem deploy_tool_compiles_pinned_sources
    (solc_compile : jsstring -> completion CompilerAdapter.solc_output)
    (factoryDeploy : json -> jsstring -> list json -> completion deployed)
    (wait : deployed -> completion jsstring) :
  (forall source constructorArgs,
     deployContract (pinned solc_compile) factoryDeploy wait source constructorArgs
     = deployContract solc_compile factoryDeploy wait source constructorArgs)
  /\ (forall sourceCode constructorArgs,
        deploy_contract_tool (pinned solc_compile) factoryDeploy wait sourceCode constructorArgs
        = deploy_contract_tool solc_compile factoryDeploy wait sourceCode constructorArgs).
Proof.
  assert (forall source constructorArgs,
            deployContract (pinned solc_compile) factoryDeploy wait source constructorArgs
            = deployContract solc_compile factoryDeploy wait source constructorArgs) as H.
  { intros source constructorArgs.
    unfold deployContract, CompilerAdapter.FixedSolc.compileSolidity, pinned.
    by rewrite (proj1 (forceVersion_fixed source)). }
  split; [exact H|].
  intros sourceCode constructorArgs. unfold deploy_contract_tool. by rewrite H.
Qed.

(** X5: deployContract of fixed-solc-plugin.cjs gives the same result for
    a source and for that source with its version already fixed: fixing
    the version a second time changes nothing in what is compiled and
    deployed. *)
Theorem deployContract_fixes_version_once
    (solc_compile : jsstring -> completion CompilerAdapter.solc_output)
    (factoryDeploy : json -> jsstring -> list json -> completion deployed)
    (wait : deployed -> completion jsstring) (source : js_value) constructorArgs :
  deployContract solc_compile factoryDeploy wait
    (JsString (forceVersion source)) constructorArgs
  = deployContract solc_compile factoryDeploy wait source constructorArgs.
Proof.
  unfold deployContract. by rewrite (proj2 (forceVersion_fixed source)).
Qed.

End PluginDeployFacts.

(** ** Facts on the executors *)

Module ExecutorFacts.
Import DeploymentExecutor RegexFacts.

Lemma hex_not_x (h : jsstring) :
  forallb is_hex h = true -> strip_prefix (js "0x") h = None.
Proof.
  intros H. destruct (strip_prefix (js "0x") h) as [r|] eqn:E; [|done].
  apply strip_prefix_spec in E. subst h. simpl in H. discriminate.
Qed.

(** X6: the private keys that deployContract of contract-deployer.ts
    accepts are the strings of 64 hexadecimal digits, with or without one
    0x before them; nothing else passes the format check. *)
Theorem accepted_private_keys (privateKey : jsstring) :
  key_format_ok (normalizeKey privateKey) = true
  <-> exists h, length h = 64 /\ forallb is_hex h = true
                /\ (privateKey = h \/ privateKey = js "0x" ++ h).
Proof.
  unfold key_format_ok, normalizeKey. split.
  - destruct (strip_prefix (js "0x") privateKey) as [rest|] eqn:E; intros H;
      apply andb_prop in H as [Hl Hh]; apply Nat.eqb_eq in Hl.
    + apply strip_prefix_spec in E. exists rest. auto.
    + exists privateKey. auto.
  - intros (h & Hl & Hh & [->| ->]).
    + rewrite (hex_not_x h Hh). rewrite Hh, Hl. reflexivity.
    + rewrite strip_prefix_app. rewrite Hh, Hl. reflexivity.
Qed.

(** On the disk in memory the artifact step is the write of the
    document, as the save functions of the artifact store have it. *)
Lemma save_document_in_memory (fs : gmap jsstring json) dir path document :
  FileSystem.save_document Examples.memory fs dir path document
  = (<[path := document]> fs, Return tt).
Proof. reflexivity. Qed.

Lemma script_save_in_memory (tmpdir : jsstring) (fs : gmap jsstring json) name abi a h :
  ArtifactStore.script_save tmpdir fs name abi a h
  = (fst (FileSystem.save_document Examples.memory fs
            (ArtifactStore.path_join tmpdir (js "monad-deployments"))
            (ArtifactStore.path_join
               (ArtifactStore.path_join tmpdir (js "monad-deployments")) (name ++ js ".json"))
            (script_artifact name abi a h)),
     ArtifactStore.path_join
       (ArtifactStore.path_join tmpdir (js "monad-deployments")) (name ++ js ".json")).
Proof. reflexivity. Qed.

Section Chain.

Variable account : Type.
Variable privateKeyToAccount : jsstring -> completion account.
Variable walletDeployContract :
  account -> json -> jsstring -> list json -> option Z -> completion jsstring.
Variable waitForTransactionReceipt : jsstring -> completion receipt.
Variable disk : Type.
Variable node_fs : FileSystem.calls disk.
Variable __filename : jsstring.
Variable encodeFunctionData : json -> list json -> completion jsstring.
Variable estimateGas : account -> jsstring -> completion Z.
Variable gasWithBuffer : Z -> Z.

Local Abbreviation deployContract :=
  (deployContract account privateKeyToAccount walletDeployContract
     waitForTransactionReceipt encodeFunctionData estimateGas gasWithBuffer).
Local Abbreviation deploy_steps :=
  (deploy_steps account walletDeployContract waitForTransactionReceipt
     encodeFunctionData estimateGas gasWithBuffer).
Local Abbreviation deployment_data := (deployment_data encodeFunctionData).
Local Abbreviation script_deployContract :=
  (script_deployContract account privateKeyToAccount walletDeployContract
     waitForTransactionReceipt disk node_fs __filename).
Local Abbreviation save_document := (FileSystem.save_document node_fs).
Local Abbreviation unlinkSync := (FileSystem.unlinkSync node_fs).

Lemma no_address_false r :
  no_address r = false -> exists a, contractAddress r = Some a /\ a <> [] /\ address_of r = a.
Proof.
  unfold no_address, address_of. destruct (contractAddress r) as [a|]; [|discriminate].
  intros H. exists a. split; [done|]. split; [|done]. intros ->. discriminate.
Qed.

Lemma deploy_steps_Return acct abi bytecode args a h :
  deploy_steps acct abi bytecode args = Return (a, h) ->
  a <> []
  /\ exists data gas r,
       deployment_data abi bytecode args = Return data
       /\ estimateGas acct data = Return gas
       /\ walletDeployContract acct abi bytecode args (Some (gasWithBuffer gas)) = Return h
       /\ waitForTransactionReceipt h = Return r
       /\ contractAddress r = Some a.
Proof.
  unfold DeploymentExecutor.deploy_steps.
  destruct (deployment_data abi bytecode args) as [data|] eqn:Hd; [|discriminate].
  cbn [bind]. destruct (estimateGas acct data) as [gas|] eqn:Hg; [|discriminate].
  cbn [bind].
  destruct (walletDeployContract acct abi bytecode args (Some (gasWithBuffer gas)))
    as [h'|] eqn:Hw; [|discriminate].
  cbn [bind]. destruct (waitForTransactionReceipt h') as [r|] eqn:Hr; [|discriminate].
  cbn [bind]. destruct (no_address r) eqn:Hn; [discriminate|].
  intros H. inversion H; subst.
  destruct (no_address_false r Hn) as (a' & Ha & Hne & Hof). rewrite Hof.
  split; [done|]. exists data, gas, r. by rewrite Hof in *.
Qed.

Lemma deployContract_Return abi bytecode privateKey args a h :
  deployContract abi bytecode privateKey args = Return (a, h) ->
  a <> []
  /\ key_format_ok (normalizeKey privateKey) = true
  /\ exists acct data gas r,
       privateKeyToAccount (js "0x" ++ normalizeKey privateKey) = Return acct
       /\ deployment_data abi bytecode args = Return data
       /\ estimateGas acct data = Return gas
       /\ walletDeployContract acct abi bytecode args (Some (gasWithBuffer gas))
          = Return h
       /\ waitForTransactionReceipt h = Return r
       /\ contractAddress r = Some a.
Proof.
  unfold DeploymentExecutor.deployContract.
  destruct privateKey as [|c k]; [discriminate|].
  destruct (key_format_ok (normalizeKey (c :: k))) eqn:Hk; [|discriminate].
  cbn [negb]. cbv iota.
  destruct (privateKeyToAccount (js "0x" ++ normalizeKey (c :: k))) as [acct|] eqn:Ha;
    [|discriminate].
  cbn [bind]. destruct (deploy_steps acct abi bytecode args) as [[a' h']|] eqn:Hs;
    [|discriminate].
  intros H. inversion H; subst.
  destruct (deploy_steps_Return _ _ _ _ _ _ Hs) as (Hne & data & gas & r & H1 & H2 & H3 & H4 & H5).
  split; [done|]. split; [done|]. by exists acct, data, gas, r.
Qed.

(** X7: what deployContract of contract-deployer.ts returns and throws.
    A result holds the contract address of the receipt, which is not
    empty, and the hash that the wallet returned for the transaction sent
    with the buffered gas estimate.  An error is one of the two messages of
    the key checks, the error of the account creation, or an error of the
    try block, which always starts with 'Deployment error: '. *)
Theorem deployContract_outcomes abi bytecode privateKey args :
  (forall a h,
     deployContract abi bytecode privateKey args = Return (a, h) ->
     a <> []
     /\ key_format_ok (normalizeKey privateKey) = true
     /\ exists acct data gas r,
          privateKeyToAccount (js "0x" ++ normalizeKey privateKey) = Return acct
          /\ deployment_data abi bytecode args = Return data
          /\ estimateGas acct data = Return gas
          /\ walletDeployContract acct abi bytecode args (Some (gasWithBuffer gas))
             = Return h
          /\ waitForTransactionReceipt h = Return r
          /\ contractAddress r = Some a)
  /\ (forall e,
        deployContract abi bytecode privateKey args = Throw e ->
        (privateKey = []
         /\ e = js "Private key is required for deployment. Please check your .env file or pass a private key parameter.")
        \/ (key_format_ok (normalizeKey privateKey) = false
            /\ e = js "Invalid private key format. The private key must be a 64-character hex string.")
        \/ privateKeyToAccount (js "0x" ++ normalizeKey privateKey) = Throw e
        \/ exists e', e = js "Deployment error: " ++ e').
Proof.
  split; [intros a h; apply deployContract_Return|].
  unfold DeploymentExecutor.deployContract.
  - intros e. destruct privateKey as [|c k]; [intros H; inversion H; auto|].
    destruct (key_format_ok (normalizeKey (c :: k))) eqn:Hk;
      cbn [negb]; cbv iota; [|intros H; inversion H; auto].
    destruct (privateKeyToAccount (js "0x" ++ normalizeKey (c :: k))) as [acct|] eqn:Ha;
      [|intros H; inversion H; auto].
    cbn [bind]. destruct (deploy_steps acct abi bytecode args) as [[a' h']|e'] eqn:Hs;
      [discriminate|].
    intros H. inversion H; subst. right; right; right. by exists e'.
Qed.

(** The run of the script after a receipt with a contract address. *)
Lemma script_after_confirmation tmpdir fs (key : jsstring) abi bytecode name args save acct h r :
  key <> [] ->
  privateKeyToAccount (if startsWith key (js "0x") then key else js "0x" ++ key)
  = Return acct ->
  walletDeployContract acct abi bytecode args None = Return h ->
  waitForTransactionReceipt h = Return r ->
  no_address r = false ->
  script_deployContract tmpdir fs (Some key) (Return (abi, bytecode)) name args save
  = if save then
      let artifactsDir := ArtifactStore.path_join tmpdir (js "monad-deployments") in
      let artifactPath := ArtifactStore.path_join artifactsDir (name ++ js ".json") in
      let saved :=
        save_document fs artifactsDir artifactPath
          (script_artifact name abi (address_of r) h) in
      match snd saved with
      | Throw e => (fst saved, failure e None)
      | Return _ =>
          (fst (unlinkSync (fst saved) __filename),
           deployed_result name (address_of r) h (Some artifactPath))
      end
    else (fst (unlinkSync fs __filename), deployed_result name (address_of r) h None).
Proof.
  intros Hk Ha Hw Hr Hn. unfold DeploymentExecutor.script_deployContract.
  destruct key as [|c key]; [done|]. by rewrite Ha, Hw, Hr, Hn.
Qed.

(** X9: the deploy script that index.ts generates calls the file system
    only after the receipt has confirmed the deployment: every other run
    (no key, a failed compilation, account, transaction or receipt, a
    receipt without contract address) leaves the disk as it was.  After
    the confirmation, a run without artifacts only deletes the script
    itself, with [unlinkSync]; a run with artifacts makes the directory
    monad-deployments when it is missing, writes the one document whose
    path it reports, and then deletes the script; when the artifact step
    throws, the disk is as that step left it and the script is not
    deleted. *)
Theorem script_touches_disk_after_confirmation
    tmpdir fs PRIVATE_KEY compile name args save :
  (fst (script_deployContract tmpdir fs PRIVATE_KEY compile name args save) = fs
   \/ exists key abi bytecode acct h r,
        PRIVATE_KEY = Some key /\ key <> []
        /\ compile = Return (abi, bytecode)
        /\ privateKeyToAccount (if startsWith key (js "0x") then key else js "0x" ++ key)
           = Return acct
        /\ walletDeployContract acct abi bytecode args None = Return h
        /\ waitForTransactionReceipt h = Return r
        /\ no_address r = false)
  /\ (forall key abi bytecode acct h r,
        PRIVATE_KEY = Some key -> key <> [] ->
        compile = Return (abi, bytecode) ->
        privateKeyToAccount (if startsWith key (js "0x") then key else js "0x" ++ key)
        = Return acct ->
        walletDeployContract acct abi bytecode args None = Return h ->
        waitForTransactionReceipt h = Return r ->
        no_address r = false ->
        let artifactsDir := ArtifactStore.path_join tmpdir (js "monad-deployments") in
        let artifactPath := ArtifactStore.path_join artifactsDir (name ++ js ".json") in
        let document := script_artifact name abi (address_of r) h in
        (save = false ->
         script_deployContract tmpdir fs PRIVATE_KEY compile name args save
         = (fst (unlinkSync fs __filename), deployed_result name (address_of r) h None))
        /\ (forall fs',
              save = true ->
              save_document fs artifactsDir artifactPath document = (fs', Return tt) ->
              script_deployContract tmpdir fs PRIVATE_KEY compile name args save
              = (fst (unlinkSync fs' __filename),
                 deployed_result name (address_of r) h (Some artifactPath)))
        /\ (forall fs' e,
              save = true ->
              save_document fs artifactsDir artifactPath document = (fs', Throw e) ->
              script_deployContract tmpdir fs PRIVATE_KEY compile name args save
              = (fs', failure e None))).
Proof.
  split.
  - unfold DeploymentExecutor.script_deployContract.
    destruct PRIVATE_KEY as [[|c key]|]; [by left..| |by left].
    destruct compile as [[abi bytecode]|e]; [|by left].
    destruct (privateKeyToAccount _) as [acct|e] eqn:Ha; [|by left].
    destruct (walletDeployContract acct abi bytecode args None) as [h|e] eqn:Hw; [|by left].
    destruct (waitForTransactionReceipt h) as [r|e] eqn:Hr; [|by left].
    destruct (no_address r) eqn:Hn; [by left|].
    right. exists (c :: key), abi, bytecode, acct, h, r. by repeat split.
  - intros key abi bytecode acct h r -> Hk -> Ha Hw Hr Hn artifactsDir artifactPath document.
    pose proof (script_after_confirmation tmpdir fs key abi bytecode name args save acct h r
                  Hk Ha Hw Hr Hn) as E.
    cbv zeta in E. fold artifactsDir artifactPath document in E.
    split; [|split].
    + intros Hs. by rewrite E, Hs.
    + intros fs' Hs Hd. by rewrite E, Hs, Hd.
    + intros fs' e Hs Hd. by rewrite E, Hs, Hd.
Qed.

(** X10: once the wallet has returned the hash of the deployment
    transaction, the result of the generated deploy script carries it in
    [transactionHash] when the receipt cannot be had, when it has no
    contract address, and when the run is a success; a success holds the
    contract address of the receipt too.  One run loses it: when the
    receipt confirms the deployment and the artifact step throws, the
    result is a failure with the error of the file system and without
    [transactionHash] or [address], though the contract is deployed. *)
Theorem script_keeps_hash_once_sent
    tmpdir fs (key : jsstring) compile abi bytecode name args save acct h :
  key <> [] ->
  compile = Return (abi, bytecode) ->
  privateKeyToAccount (if startsWith key (js "0x") then key else js "0x" ++ key)
  = Return acct ->
  walletDeployContract acct abi bytecode args None = Return h ->
  (transactionHash (snd (script_deployContract tmpdir fs (Some key) compile name args save))
   = Some h
   \/ exists r fs' e,
        waitForTransactionReceipt h = Return r /\ no_address r = false /\ save = true
        /\ save_document fs (ArtifactStore.path_join tmpdir (js "monad-deployments"))
             (ArtifactStore.path_join (ArtifactStore.path_join tmpdir (js "monad-deployments"))
                (name ++ js ".json"))
             (script_artifact name abi (address_of r) h)
           = (fs', Throw e)
        /\ script_deployContract tmpdir fs (Some key) compile name args save
           = (fs', failure e None))
  /\ (forall e, waitForTransactionReceipt h = Throw e ->
        script_deployContract tmpdir fs (Some key) compile name args save
        = (fs, failure (js "Failed to get transaction receipt: " ++ e) (Some h)))
  /\ (success (snd (script_deployContract tmpdir fs (Some key) compile name args save)) = true ->
      transactionHash (snd (script_deployContract tmpdir fs (Some key) compile name args save))
      = Some h
      /\ exists r a,
           waitForTransactionReceipt h = Return r /\ contractAddress r = Some a /\ a <> []
           /\ address (snd (script_deployContract tmpdir fs (Some key) compile name args save))
              = Some a)
  /\ (forall r, waitForTransactionReceipt h = Return r -> no_address r = false ->
        (save = false ->
         success (snd (script_deployContract tmpdir fs (Some key) compile name args save))
         = true)
        /\ (forall fs',
              save_document fs (ArtifactStore.path_join tmpdir (js "monad-deployments"))
                (ArtifactStore.path_join
                   (ArtifactStore.path_join tmpdir (js "monad-deployments"))
                   (name ++ js ".json"))
                (script_artifact name abi (address_of r) h)
              = (fs', Return tt) ->
              success (snd (script_deployContract tmpdir fs (Some key) compile name args
                              save))
              = true)).
Proof.
  intros Hk -> Ha Hw.
  destruct (waitForTransactionReceipt h) as [r|e0] eqn:Hr.
  - destruct (no_address r) eqn:Hn.
    + assert (script_deployContract tmpdir fs (Some key) (Return (abi, bytecode)) name args save
              = (fs, failure (js "Contract deployment failed - no contract address in receipt")
                             (Some h))) as ->.
      { unfold DeploymentExecutor.script_deployContract.
        destruct key as [|c key]; [done|]. by rewrite Ha, Hw, Hr, Hn. }
      split; [by left|]. split; [discriminate|]. split; [discriminate|].
      intros r' Hr' Hn'. congruence.
    + rewrite (script_after_confirmation tmpdir fs key abi bytecode name args save acct h r
                 Hk Ha Hw Hr Hn).
      destruct (no_address_false r Hn) as (a & Hca & Hne & Hof).
      destruct save; cbv zeta.
      * destruct (save_document fs _ _ _) as [fs' [[]|e]] eqn:Hs; cbn [fst snd].
        -- split; [by left|]. split; [discriminate|]. split.
           ++ intros _. split; [done|]. exists r, a. rewrite Hof. by repeat split.
           ++ intros r' [= <-] _. split; [discriminate|]. done.
        -- split; [right; by exists r, fs', e|]. split; [discriminate|].
           split; [discriminate|]. intros r' [= <-] _. split; [discriminate|].
           intros fs'' Hs'. rewrite Hs in Hs'. discriminate.
      * cbn [snd]. split; [by left|]. split; [discriminate|]. split.
        -- intros _. split; [done|]. exists r, a. rewrite Hof. by repeat split.
        -- intros r' [= <-] _. split; done.
  - assert (script_deployContract tmpdir fs (Some key) (Return (abi, bytecode)) name args save
            = (fs, failure (js "Failed to get transaction receipt: " ++ e0) (Some h))) as ->.
    { unfold DeploymentExecutor.script_deployContract.
      destruct key as [|c key]; [done|]. by rewrite Ha, Hw, Hr. }
    split; [by left|]. split; [by intros e [= ->]|]. split; discriminate.
Qed.

End Chain.

(** *** Concrete runs *)

Lemma script_keeps_hash_witness :
  transactionHash
    (snd (script_deployContract unit Examples.anyAccount Examples.sendsHash
            MoreExamples.confirmed ArtifactStore.files Examples.memory Examples.scriptPath
            (js "/tmp") ∅ (Some Examples.key64)
            (Return (JArr [], js "0x6080")) (js "Bar") [] true))
  = Some Examples.hash
  /\ script_deployContract unit Examples.anyAccount Examples.sendsHash
       MoreExamples.confirmed (list jsstring) MoreExamples.fullDisk Examples.scriptPath
       (js "/tmp") [] (Some Examples.key64)
       (Return (JArr [], js "0x6080")) (js "Bar") [] true
     = ([js "/tmp/monad-deployments"],
        failure (js "ENOSPC: no space left on device, write") None).
Proof.
  assert (Examples.key64 <> []) as Hk by discriminate.
  split.
  - apply (proj1 (proj2 (proj2 (script_keeps_hash_once_sent
                    unit Examples.anyAccount Examples.sendsHash MoreExamples.confirmed
                    ArtifactStore.files Examples.memory Examples.scriptPath
                    (js "/tmp") ∅ Examples.key64
                    (Return (JArr [], js "0x6080")) (JArr []) (js "0x6080") (js "Bar") []
                    true tt Examples.hash Hk eq_refl eq_refl eq_refl)))).
    reflexivity.
  - destruct (proj1 (script_keeps_hash_once_sent
                    unit Examples.anyAccount Examples.sendsHash MoreExamples.confirmed
                    (list jsstring) MoreExamples.fullDisk Examples.scriptPath
                    (js "/tmp") [] Examples.key64
                    (Return (JArr [], js "0x6080")) (JArr []) (js "0x6080") (js "Bar") []
                    true tt Examples.hash Hk eq_refl eq_refl eq_refl))
      as [H|(r & fs' & e & _ & _ & _ & Hs & ->)].
    + vm_compute in H. discriminate.
    + vm_compute in Hs. by inversion Hs.
Defined.

Lemma script_touches_disk_witness :
  script_deployContract unit Examples.anyAccount Examples.sendsHash
    MoreExamples.confirmed ArtifactStore.files Examples.memory Examples.scriptPath
    (js "/tmp") ∅ (Some Examples.key64)
    (Return (JArr [], js "0x6080")) (js "Bar") [] true
  = (<[js "/tmp/monad-deployments/Bar.json" :=
         script_artifact (js "Bar") (JArr []) MoreExamples.deployedAddress Examples.hash]> ∅,
     deployed_result (js "Bar") MoreExamples.deployedAddress Examples.hash
       (Some (js "/tmp/monad-deployments/Bar.json"))).
Proof.
  assert (Examples.key64 <> []) as Hk by discriminate.
  destruct (proj2 (script_touches_disk_after_confirmation
                     unit Examples.anyAccount Examples.sendsHash MoreExamples.confirmed
                     ArtifactStore.files Examples.memory Examples.scriptPath
                     (js "/tmp") ∅ (Some Examples.key64)
                     (Return (JArr [], js "0x6080")) (js "Bar") [] true)
                  Examples.key64 (JArr []) (js "0x6080") tt Examples.hash
                  {| contractAddress := Some MoreExamples.deployedAddress |}
                  eq_refl Hk eq_refl eq_refl eq_refl eq_refl eq_refl) as (_ & H & _).
  rewrite (H (<[js "/tmp/monad-deployments/Bar.json" :=
                  script_artifact (js "Bar") (JArr []) MoreExamples.deployedAddress
                    Examples.hash]> ∅) eq_refl eq_refl).
  cbn [fst Examples.memory FileSystem.unlinkSync]. f_equal.
Defined.

End ExecutorFacts.

(** ** Facts on compileAndDeploy *)

Module DeployerPipelineFacts.
Import DeployerPipeline.

Section Pipeline.

Variable solc_compile : jsstring -> completion CompilerAdapter.solc_output.
Variable account : Type.
Variable privateKeyToAccount : jsstring -> completion account.
Variable walletDeployContract :
  account -> json -> jsstring -> list json -> option Z -> completion jsstring.
Variable waitForTransactionReceipt : jsstring -> completion DeploymentExecutor.receipt.
Variable encodeFunctionData : json -> list json -> completion jsstring.
Variable estimateGas : account -> jsstring -> completion Z.
Variable gasWithBuffer : Z -> Z.
Variable disk : Type.
Variable node_fs : FileSystem.calls disk.

Local Abbreviation compileAndDeploy :=
  (compileAndDeploy solc_compile account privateKeyToAccount walletDeployContract
     waitForTransactionReceipt encodeFunctionData estimateGas gasWithBuffer disk node_fs).
Local Abbreviation save_document := (FileSystem.save_document node_fs).
Local Abbreviation compile_and_deploy_steps :=
  (compile_and_deploy_steps solc_compile account privateKeyToAccount walletDeployContract
     waitForTransactionReceipt encodeFunctionData estimateGas gasWithBuffer).

Lemma steps_Return sourceCode privateKey args contractName name abi0 a h :
  compile_and_deploy_steps sourceCode privateKey args contractName
  = Return (name, abi0, a, h) ->
  a <> [] /\ chosen_name sourceCode contractName = Return name.
Proof.
  unfold DeployerPipeline.compile_and_deploy_steps.
  destruct (chosen_name sourceCode contractName) as [n|]; [|discriminate].
  cbn [bind].
  destruct (CompilerAdapter.ContractDeployer.compileSolidity _ _ _) as [[abi1 bytecode]|];
    [|discriminate].
  cbn [bind fst snd].
  destruct (DeploymentExecutor.deployContract _ _ _ _ _ _ _ abi1 bytecode privateKey args)
    as [[a' h']|] eqn:Hd; [|discriminate].
  cbn [bind fst snd]. intros H. inversion H; subst.
  split; [|done]. by destruct (ExecutorFacts.deployContract_Return _ _ _ _ _ _ _ _ _ _ _ _ _ Hd).
Qed.

(** X8: compileAndDeploy of contract-deployer.ts.  Every error it throws
    starts with 'Contract compilation and deployment failed: ', and a run
    that fails before the artifact step leaves the disk as it was, as does
    every run without saveArtifacts.  A result holds a contract address
    that is not empty and the name that was chosen (the option when it is
    given and not empty, the name extracted from the source otherwise);
    with saveArtifacts the artifact step (the directory monad-deployments
    made when it is missing, then the document written) has succeeded for
    that name, abi and address, and the path of the document is reported;
    without it no path is reported.  When the artifact step throws, the
    contract is deployed and compileAndDeploy throws the error of the file
    system after the prefix, on the disk as that step left it. *)
Theorem compileAndDeploy_outcomes tmpdir fs sourceCode privateKey args contractName0 save :
  (forall fs' e,
     compileAndDeploy tmpdir fs sourceCode privateKey args contractName0 save = (fs', Throw e) ->
     exists e', e = js "Contract compilation and deployment failed: " ++ e')
  /\ (forall e,
        compile_and_deploy_steps sourceCode privateKey args contractName0 = Throw e ->
        compileAndDeploy tmpdir fs sourceCode privateKey args contractName0 save
        = (fs, Throw (js "Contract compilation and deployment failed: " ++ e)))
  /\ (save = false ->
      fst (compileAndDeploy tmpdir fs sourceCode privateKey args contractName0 save) = fs)
  /\ (forall fs' d,
        compileAndDeploy tmpdir fs sourceCode privateKey args contractName0 save
        = (fs', Return d) ->
        address d <> []
        /\ chosen_name sourceCode contractName0 = Return (contractName d)
        /\ compile_and_deploy_steps sourceCode privateKey args contractName0
           = Return (contractName d, abi d, address d, transactionHash d)
        /\ (save = false -> artifactPath d = None)
        /\ (save = true ->
            artifactPath d
            = Some (ArtifactStore.path_join
                      (ArtifactStore.path_join tmpdir (js "monad-deployments"))
                      (contractName d ++ js ".json"))
            /\ save_document fs
                 (ArtifactStore.path_join tmpdir (js "monad-deployments"))
                 (ArtifactStore.path_join
                    (ArtifactStore.path_join tmpdir (js "monad-deployments"))
                    (contractName d ++ js ".json"))
                 (artifact (contractName d) (abi d) (address d))
               = (fs', Return tt)))
  /\ (forall name abi0 a h fs' e,
        compile_and_deploy_steps sourceCode privateKey args contractName0
        = Return (name, abi0, a, h) ->
        save = true ->
        save_document fs
          (ArtifactStore.path_join tmpdir (js "monad-deployments"))
          (ArtifactStore.path_join
             (ArtifactStore.path_join tmpdir (js "monad-deployments")) (name ++ js ".json"))
          (artifact name abi0 a)
        = (fs', Throw e) ->
        compileAndDeploy tmpdir fs sourceCode privateKey args contractName0 save
        = (fs', Throw (js "Contract compilation and deployment failed: " ++ e)))
  /\ (forall name abi0 a h,
        compile_and_deploy_steps sourceCode privateKey args contractName0
        = Return (name, abi0, a, h) ->
        (save = false ->
         compileAndDeploy tmpdir fs sourceCode privateKey args contractName0 save
         = (fs, Return {| address := a; transactionHash := h; abi := abi0;
                          contractName := name; artifactPath := None |}))
        /\ (forall fs',
              save = true ->
              save_document fs
                (ArtifactStore.path_join tmpdir (js "monad-deployments"))
                (ArtifactStore.path_join
                   (ArtifactStore.path_join tmpdir (js "monad-deployments"))
                   (name ++ js ".json"))
                (artifact name abi0 a)
              = (fs', Return tt) ->
              compileAndDeploy tmpdir fs sourceCode privateKey args contractName0 save
              = (fs', Return {| address := a; transactionHash := h; abi := abi0;
                                contractName := name;
                                artifactPath :=
                                  Some (ArtifactStore.path_join
                                          (ArtifactStore.path_join tmpdir
                                             (js "monad-deployments"))
                                          (name ++ js ".json")) |}))).
Proof.
  unfold DeployerPipeline.compileAndDeploy, DeployerPipeline.saveContractArtifacts.
  destruct (compile_and_deploy_steps sourceCode privateKey args contractName0)
    as [[[[name abi0] a] h]|e0] eqn:Hs.
  - destruct (steps_Return _ _ _ _ _ _ _ _ Hs) as [Hne Hname].
    destruct save.
    + destruct (save_document fs _ _ _) as [fs1 [[]|e1]] eqn:Hd; cbn [fst snd].
      * split; [discriminate|]. split; [discriminate|]. split; [discriminate|].
        split; [|split].
        -- intros fs' d H. inversion H; subst; cbn.
           split; [done|]. split; [done|]. split; [done|]. split; [discriminate|].
           intros _. split; [done|]. exact Hd.
        -- intros name' abi' a' h' fs' e H _ Hd'. inversion H; subst. congruence.
        -- intros name' abi' a' h' H. inversion H; subst. split; [discriminate|].
           intros fs' _ Hd'. rewrite Hd in Hd'. by inversion Hd'.
      * split; [intros fs' e H; inversion H; by eexists|].
        split; [discriminate|]. split; [discriminate|].
        split; [discriminate|]. split.
        -- intros name' abi' a' h' fs' e H _ Hd'. inversion H; subst.
           rewrite Hd in Hd'. by inversion Hd'.
        -- intros name' abi' a' h' H. inversion H; subst. split; [discriminate|].
           intros fs' _ Hd'. rewrite Hd in Hd'. by inversion Hd'.
    + split; [discriminate|]. split; [discriminate|]. split; [done|]. split; [|split].
      * intros fs' d H. inversion H; subst; cbn.
        split; [done|]. split; [done|]. split; [done|]. split; [done|discriminate].
      * discriminate.
      * intros name' abi' a' h' H. inversion H; subst. split; [done|]. discriminate.
  - split; [intros fs' e H; inversion H; by eexists|].
    split; [by intros e [= ->]|]. split; [done|].
    split; [discriminate|]. split; discriminate.
Qed.

End Pipeline.

(** *** Concrete runs *)

Lemma compileAndDeploy_witness :
  compileAndDeploy (fun _ => Return (Examples.warnedOutput (js "Bar.sol")))
    unit Examples.anyAccount Examples.sendsHash MoreExamples.confirmed
    Examples.noData Examples.someGas Examples.tenth
    (list jsstring) MoreExamples.fullDisk
    (js "/tmp") [] (js "contract Bar {}") Examples.key64 [] None true
  = ([js "/tmp/monad-deployments"],
     Throw (js "Contract compilation and deployment failed: ENOSPC: no space left on device, write")).
Proof.
  assert (compile_and_deploy_steps
            (fun _ => Return (Examples.warnedOutput (js "Bar.sol")))
            unit Examples.anyAccount Examples.sendsHash MoreExamples.confirmed
            Examples.noData Examples.someGas Examples.tenth
            (js "contract Bar {}") Examples.key64 [] None
          = Return (js "Bar", JArr [], MoreExamples.deployedAddress, Examples.hash)) as Hs
    by (vm_compute; reflexivity).
  apply (proj1 (proj2 (proj2 (proj2 (proj2 (compileAndDeploy_outcomes
                     (fun _ => Return (Examples.warnedOutput (js "Bar.sol")))
                     unit Examples.anyAccount Examples.sendsHash MoreExamples.confirmed
                     Examples.noData Examples.someGas Examples.tenth
                     (list jsstring) MoreExamples.fullDisk
                     (js "/tmp") [] (js "contract Bar {}") Examples.key64 [] None true)))))
           (js "Bar") (JArr []) MoreExamples.deployedAddress Examples.hash);
    [exact Hs | reflexivity | vm_compute; reflexivity].
Defined.

End DeployerPipelineFacts.

(** ** Facts on the text of the deploy script *)

Module DeployScriptFacts.
Import DeployScript.

(** X11: the deploy script holds the source between backticks, with a
    backslash put before every backtick.  For a source without backslash,
    without carriage return and without a dollar before a brace, the
    template literal of the script stands for the source as it was
    given. *)
Theorem escaped_source_reads_back (s : jsstring) :
  plain s = true -> cook (escapeBackticks s) = Some s.
Proof.
  induction s as [|c s IH]; [done|].
  cbn [plain escapeBackticks]. intros H.
  apply andb_prop in H as [H Hp]. apply andb_prop in H as [H Hd].
  apply andb_prop in H as [Hb Hc]. specialize (IH Hp).
  destruct (Ascii.eqb c backtick) eqn:Ebt.
  - apply Ascii.eqb_eq in Ebt. subst c. cbn. by rewrite IH.
  - cbn [cook]. rewrite Ebt.
    apply negb_true_iff in Hb, Hc. rewrite Hb, Hc.
    destruct (Ascii.eqb c "$") eqn:Edollar.
    + destruct s as [|d s]; [done|]. cbn [andb negb] in Hd.
      apply negb_true_iff in Hd.
      cbn [escapeBackticks] in *.
      destruct (Ascii.eqb d backtick) eqn:Edb.
      * apply Ascii.eqb_eq in Edb. subst d.
        change (Ascii.eqb backslash "{") with false. cbv iota. by rewrite IH.
      * rewrite Hd. by rewrite IH.
    + by rewrite IH.
Qed.

(** *** Concrete runs *)

Lemma escaped_source_reads_back_witness :
  plain MoreExamples.quoted = true
  /\ cook (escapeBackticks MoreExamples.quoted) = Some MoreExamples.quoted.
Proof.
  assert (plain MoreExamples.quoted = true) as H by reflexivity.
  split; [exact H|]. exact (escaped_source_reads_back MoreExamples.quoted H).
Defined.

End DeployScriptFacts.

(** ** Facts on the compilers of the plugins *)

Module CompilerFacts.
Import CompilerAdapter.

Lemma join_empty (sep : jsstring) (l : list jsstring) :
  sep <> [] -> join sep l = [] <-> l = [] \/ l = [[]].
Proof.
  intros Hsep. destruct l as [|x [|y l]]; cbn [join].
  - split; auto.
  - split; [intros ->; auto | intros [H|H]; by inversion H].
  - split.
    + intros H. apply app_eq_nil in H as [_ H]. apply app_eq_nil in H as [H _]. done.
    + intros [H|H]; inversion H.
Qed.

Lemma has_error_exists output :
  has_error output = false <-> List.filter is_error (diagnostics output) = [].
Proof.
  unfold has_error. induction (diagnostics output) as [|d ds IH]; [done|].
  cbn [existsb List.filter]. destruct (is_error d); cbn; [split; discriminate|exact IH].
Qed.

(** *** Main properties *)

(** X12: compileContract of the strict plugin tests the text of the
    error messages, not their number: its check of the diagnostics passes
    exactly when no diagnostic has severity 'error', or when there is one
    such diagnostic and its formatted message is empty.  When the check
    fails, the error is 'Compilation errors: ' with the formatted messages
    of the errors, one per line. *)
Theorem strict_check_reads_the_messages output :
  (StrictCompiler.check_errors output = Return tt
   <-> List.filter is_error (diagnostics output) = []
       \/ exists d, List.filter is_error (diagnostics output) = [d]
                    /\ formattedMessage d = [])
  /\ (has_error output = false -> StrictCompiler.check_errors output = Return tt)
  /\ (forall e,
        StrictCompiler.check_errors output = Throw e ->
        has_error output = true
        /\ e = js "Compilation errors: "
               ++ join [nl] (map formattedMessage
                                 (List.filter is_error (diagnostics output)))).
Proof.
  assert (StrictCompiler.check_errors output
          = match join [nl] (map formattedMessage
                                 (List.filter is_error (diagnostics output))) with
            | [] => Return tt
            | m => Throw (js "Compilation errors: " ++ m)
            end) as ->.
  { unfold StrictCompiler.check_errors, diagnostics.
    destruct (errors output) as [ds|]; [|done]. cbv zeta. by destruct (join _ _). }
  assert (join [nl] (map formattedMessage (List.filter is_error (diagnostics output))) = []
          <-> List.filter is_error (diagnostics output) = []
              \/ exists d, List.filter is_error (diagnostics output) = [d]
                           /\ formattedMessage d = []) as Hj.
  { rewrite join_empty by discriminate.
    destruct (List.filter is_error (diagnostics output)) as [|d [|d' l]]; cbn.
    - split; auto.
    - split.
      + intros [H|H]; [discriminate|]. inversion H. right. by exists d.
      + intros [H|(d0 & H & Hm)]; [discriminate|]. inversion H; subst. right. by rewrite Hm.
    - split.
      + intros [H|H]; discriminate.
      + intros [H|(d0 & H & _)]; discriminate. }
  split; [|split].
  - rewrite <- Hj.
    destruct (join [nl] _); [done|]. split; discriminate.
  - intros H. apply has_error_exists in H. rewrite H. reflexivity.
  - intros e H.
    destruct (join [nl] (map formattedMessage (List.filter is_error (diagnostics output))))
      as [|c m] eqn:E; [discriminate|].
    inversion H; subst. split; [|done].
    destruct (has_error output) eqn:He; [done|].
    apply has_error_exists in He. rewrite He in E. discriminate.
Qed.

(** X13: when the output has no error diagnostic and holds at least one
    contract for 'contract.sol', compileSolidity of fixed-solc-plugin.cjs
    does not fail.  It returns the contract of the name asked for when the
    file has it.  Otherwise it returns the first contract of the file,
    unless the name is one that every object inherits (such as
    'constructor'): then the lookup finds the inherited member, and
    compileSolidity returns it, which is no contract. *)
Theorem compileSolidity_falls_back_to_first_contract
    (solc_compile : jsstring -> completion solc_output)
    source contractName output files contractKey c cs :
  solc_compile source = Return output ->
  has_error output = false ->
  contracts output = Some files ->
  assoc (js "contract.sol") files = Some ((contractKey, c) :: cs) ->
  contractKey <> [] ->
  FixedSolc.compileSolidity solc_compile source contractName
  = Return (match assoc contractName ((contractKey, c) :: cs) with
            | Some named => FixedSolc.Contract named
            | None =>
                if inherited contractName
                then FixedSolc.Member contractName
                else FixedSolc.Contract c
            end).
Proof.
  intros Hc He Hf Ha Hk. unfold FixedSolc.compileSolidity. rewrite Hc. cbn [bind].
  rewrite CompilerAdapterFacts.fixed_check_errors, He. cbn [bind].
  unfold FixedSolc.find_contract, lookup_contract, get. cbn [app]. rewrite Hf, Ha.
  cbn [bind].
  destruct (assoc contractName ((contractKey, c) :: cs)); [done|].
  destruct (inherited contractName); [done|].
  by destruct contractKey.
Qed.

(** *** Concrete runs *)

Lemma strict_check_witness :
  has_error MoreExamples.silentOutput = true
  /\ StrictCompiler.check_errors MoreExamples.silentOutput = Return tt.
Proof.
  split; [reflexivity|].
  apply (proj1 (strict_check_reads_the_messages MoreExamples.silentOutput)).
  right. exists MoreExamples.silentError. split; reflexivity.
Defined.

Lemma compileSolidity_falls_back_witness :
  FixedSolc.compileSolidity (fun _ => Return MoreExamples.cleanOutput)
    (js "contract Bar {}") (js "Foo")
  = Return (FixedSolc.Contract Examples.bar)
  /\ FixedSolc.compileSolidity (fun _ => Return MoreExamples.cleanOutput)
       (js "contract constructor {}") (js "constructor")
     = Return (FixedSolc.Member (js "constructor")).
Proof.
  split.
  - apply (compileSolidity_falls_back_to_first_contract
             (fun _ => Return MoreExamples.cleanOutput) (js "contract Bar {}") (js "Foo")
             MoreExamples.cleanOutput [(js "contract.sol", [(js "Bar", Examples.bar)])]
             (js "Bar") Examples.bar []);
      [reflexivity | reflexivity | reflexivity | reflexivity | discriminate].
  - apply (compileSolidity_falls_back_to_first_contract
             (fun _ => Return MoreExamples.cleanOutput) (js "contract constructor {}")
             (js "constructor")
             MoreExamples.cleanOutput [(js "contract.sol", [(js "Bar", Examples.bar)])]
             (js "Bar") Examples.bar []);
      [reflexivity | reflexivity | reflexivity | reflexivity | discriminate].
Defined.

End CompilerFacts.

(** ** Facts on the artifacts of deploy-contract.js *)

Module ArtifactToolsFacts.
Import ArtifactStore DeployContractJs RegexFacts.




Lemma saved_document_fields name abi0 addr t :
  prop (JObj [(js "contractName", JStr name); (js "abi", abi0);
              (js "address", JStr addr); (js "deployedAt", JStr t)]) (js "address")
  = Return (Some (JStr addr))
  /\ prop (JObj [(js "contractName", JStr name); (js "abi", abi0);
                 (js "address", JStr addr); (js "deployedAt", JStr t)]) (js "abi")
     = Return (Some abi0).
Proof. split; vm_compute; reflexivity. Qed.

(** *** Main properties *)


(** X16: loadContractAbi and loadContract read the same document: for a
    contract name that does not start with 0x, loadContractAbi returns an
    abi exactly when loadContract returns a contract, and the two abis are
    the same. *)
Theorem loadContractAbi_agrees_with_loadContract
    (dirname : jsstring) (readdir : list jsstring) (fs : files) (name : jsstring) :
  startsWith name (js "0x") = false ->
  (forall a, loadContractAbi dirname fs name = Return a ->
             exists l, loadContract dirname readdir fs name = Return l
                       /\ ArtifactStore.abi l = a)
  /\ (forall l, loadContract dirname readdir fs name = Return l ->
                loadContractAbi dirname fs name = Return (ArtifactStore.abi l)).
Proof.
  intros Hname. unfold loadContractAbi, loadContract. rewrite Hname.
  destruct (fs !! _) as [artifact|]; [|split; discriminate].
  destruct artifact; cbn; split; intros ? H; inversion H; subst; eauto.
Qed.

Section Deploy.

Variable getPrivateKey : completion jsstring.
Variable readFile : jsstring -> completion jsstring.
Variable basename : jsstring -> jsstring.
Variable solc_compile : jsstring -> jsstring -> completion CompilerAdapter.solc_output.
Variable account : Type.
Variable privateKeyToAccount : jsstring -> completion account.
Variable walletDeployContract :
  account -> json -> jsstring -> list json -> option Z -> completion jsstring.
Variable waitForTransactionReceipt : jsstring -> completion DeploymentExecutor.receipt.
Variable now : jsstring.
Variable disk : Type.
Variable node_fs : FileSystem.calls disk.

Local Abbreviation deployContract :=
  (deployContract getPrivateKey readFile basename solc_compile account privateKeyToAccount
     walletDeployContract waitForTransactionReceipt now disk node_fs).
Local Abbreviation save_document := (FileSystem.save_document node_fs).
Local Abbreviation deploy_steps :=
  (deploy_steps getPrivateKey readFile basename solc_compile account privateKeyToAccount
     walletDeployContract waitForTransactionReceipt).
Local Abbreviation compileContract := (compileContract readFile basename solc_compile).

Lemma script_steps_Return contractPath args c a h :
  deploy_steps contractPath args = Return (c, a, h) ->
  compileContract contractPath = Return c /\ a <> []
  /\ name c = basename contractPath.
Proof.
  unfold DeployContractJs.deploy_steps.
  destruct getPrivateKey as [key|]; [|discriminate]. cbn [bind].
  destruct (compileContract contractPath) as [c'|] eqn:Hc; [|discriminate]. cbn [bind].
  destruct (privateKeyToAccount _) as [acct|]; [|discriminate]. cbn [bind].
  destruct (walletDeployContract _ _ _ _ _) as [h'|]; [|discriminate]. cbn [bind].
  destruct (waitForTransactionReceipt h') as [r|]; [|discriminate]. cbn [bind].
  destruct (DeploymentExecutor.no_address r) eqn:Hn; [discriminate|].
  intros H. inversion H; subst. split; [done|].
  destruct (ExecutorFacts.no_address_false r Hn) as (a & _ & Hne & ->). split; [done|].
  revert Hc. unfold DeployContractJs.compileContract.
  destruct (readFile contractPath); [|discriminate]. cbn [bind].
  destruct (solc_compile _ _) as [output|]; [|discriminate]. cbn [bind].
  destruct (check_errors output); [|discriminate]. cbn [bind].
  destruct (lookup_contract _ _) as [[co| |]|]; cbn; [|discriminate..].
  by inversion 1.
Qed.

(** X17: a deployment with deploy-contract.js can be loaded back.  When
    deployContract returns, the contract is named after its file, its
    address is not empty, the artifact step (the directory artifacts made
    when it is missing, then the document written) has succeeded and the
    path reported is the one written; on a disk that holds the document
    at that path, loadContract by that name (a name that does not start
    with 0x) returns the address of the deployment and the abi that was
    compiled.  A run that fails before the artifact step leaves the disk
    as it was; when the artifact step throws, the contract is deployed and
    deployContract throws the error of the file system, on the disk as
    that step left it. *)
Theorem deployed_contract_loads_by_name
    (dirname : jsstring) (fs : disk) (contractPath : jsstring) (args : list json) :
  (forall fs' d,
     deployContract dirname fs contractPath args = (fs', Return d) ->
     d_name d = basename contractPath
     /\ d_address d <> []
     /\ d_artifactPath d
        = path_join (path_join dirname (js "artifacts")) (d_name d ++ js ".json")
     /\ exists c,
          compileContract contractPath = Return c
          /\ deploy_steps contractPath args = Return (c, d_address d, d_transactionHash d)
          /\ save_document fs (path_join dirname (js "artifacts")) (d_artifactPath d)
               (artifact (d_name d) (DeployContractJs.abi c) (d_address d) now)
             = (fs', Return tt)
          /\ (forall (documents : files) readdir,
                documents !! d_artifactPath d
                = Some (artifact (d_name d) (DeployContractJs.abi c) (d_address d) now) ->
                startsWith (d_name d) (js "0x") = false ->
                loadContract dirname readdir documents (d_name d)
                = Return {| ArtifactStore.address := Some (JStr (d_address d));
                            ArtifactStore.abi := Some (DeployContractJs.abi c) |}))
  /\ (forall e,
        deploy_steps contractPath args = Throw e ->
        deployContract dirname fs contractPath args = (fs, Throw e))
  /\ (forall c a h fs' e,
        deploy_steps contractPath args = Return (c, a, h) ->
        save_document fs (path_join dirname (js "artifacts"))
          (path_join (path_join dirname (js "artifacts")) (name c ++ js ".json"))
          (artifact (name c) (DeployContractJs.abi c) a now)
        = (fs', Throw e) ->
        deployContract dirname fs contractPath args = (fs', Throw e))
  /\ (forall c a h fs',
        deploy_steps contractPath args = Return (c, a, h) ->
        save_document fs (path_join dirname (js "artifacts"))
          (path_join (path_join dirname (js "artifacts")) (name c ++ js ".json"))
          (artifact (name c) (DeployContractJs.abi c) a now)
        = (fs', Return tt) ->
        deployContract dirname fs contractPath args
        = (fs', Return {| d_name := name c; d_address := a; d_transactionHash := h;
                          d_artifactPath :=
                            path_join (path_join dirname (js "artifacts"))
                              (name c ++ js ".json") |})).
Proof.
  unfold DeployContractJs.deployContract.
  destruct (deploy_steps contractPath args) as [[[c a] h]|e0] eqn:Hs.
  - destruct (script_steps_Return _ _ _ _ _ Hs) as (Hc & Hne & Hn).
    destruct (save_document fs _ _ _) as [fs1 [[]|e1]] eqn:Hd; cbn [fst snd].
    + split; [|split; [discriminate|split]].
      * intros fs' d H. inversion H; subst; cbn.
        split; [done|]. split; [done|]. split; [done|].
        exists c. split; [done|]. split; [done|]. split; [exact Hd|].
        intros documents readdir Hdoc Hname.
        unfold loadContract. rewrite Hname. rewrite Hdoc.
        destruct (saved_document_fields (name c) (DeployContractJs.abi c) a now) as [E1 E2].
        unfold artifact. rewrite E1. cbn [bind]. by rewrite E2.
      * intros c' a' h' fs' e H Hd'. inversion H; subst. congruence.
      * intros c' a' h' fs' H Hd'. inversion H; subst. rewrite Hd in Hd'.
        by inversion Hd'.
    + split; [discriminate|]. split; [discriminate|]. split.
      * intros c' a' h' fs' e H Hd'. inversion H; subst. rewrite Hd in Hd'.
        by inversion Hd'.
      * intros c' a' h' fs' H Hd'. inversion H; subst. rewrite Hd in Hd'. discriminate.
  - split; [discriminate|]. split; [by intros e [= ->]|]. split; discriminate.
Qed.

End Deploy.

(** *** Concrete runs *)


Lemma loadContractAbi_agrees_witness :
  loadContractAbi (js "/app")
    (fst (deploy_save (js "/app") ∅ (js "Bar") (JArr []) MoreExamples.deployedAddress
            (js "2025-01-01"))) (js "Bar")
  = Return (Some (JArr [])).
Proof.
  assert (startsWith (js "Bar") (js "0x") = false) as Hname by reflexivity.
  apply (proj2 (loadContractAbi_agrees_with_loadContract (js "/app") []
                  (fst (deploy_save (js "/app") ∅ (js "Bar") (JArr [])
                          MoreExamples.deployedAddress (js "2025-01-01")))
                  (js "Bar") Hname)
           {| ArtifactStore.address := Some (JStr MoreExamples.deployedAddress);
              ArtifactStore.abi := Some (JArr []) |}).
  unfold loadContract, deploy_save. cbn [fst]. rewrite Hname.
  rewrite lookup_insert_eq. vm_compute. reflexivity.
Defined.

Lemma deployed_contract_loads_witness :
  exists fs' d,
    deployContract (Return Examples.key64) (fun _ => Return (js "contract Bar {}"))
      (fun _ => js "Bar") MoreExamples.barOutput unit Examples.anyAccount Examples.sendsHash
      MoreExamples.confirmed (js "2025-01-01") files Examples.memory
      (js "/app") ∅ (js "contracts/Bar.sol") []
    = (fs', Return d)
    /\ loadContract (js "/app") [] fs' (js "Bar")
       = Return {| ArtifactStore.address := Some (JStr MoreExamples.deployedAddress);
                   ArtifactStore.abi := Some (JArr []) |}.
Proof.
  assert (deploy_steps (Return Examples.key64) (fun _ => Return (js "contract Bar {}"))
            (fun _ => js "Bar") MoreExamples.barOutput unit Examples.anyAccount
            Examples.sendsHash MoreExamples.confirmed (js "contracts/Bar.sol") []
          = Return ({| name := js "Bar"; abi := JArr []; bytecode := js "0x6080" |},
                    MoreExamples.deployedAddress, Examples.hash)) as Hs
    by (vm_compute; reflexivity).
  assert (deployContract (Return Examples.key64) (fun _ => Return (js "contract Bar {}"))
            (fun _ => js "Bar") MoreExamples.barOutput unit Examples.anyAccount
            Examples.sendsHash MoreExamples.confirmed (js "2025-01-01") files Examples.memory
            (js "/app") ∅ (js "contracts/Bar.sol") []
          = (<[js "/app/artifacts/Bar.json" :=
                 artifact (js "Bar") (JArr []) MoreExamples.deployedAddress
                   (js "2025-01-01")]> ∅,
             Return {| d_name := js "Bar"; d_address := MoreExamples.deployedAddress;
                       d_transactionHash := Examples.hash;
                       d_artifactPath := js "/app/artifacts/Bar.json" |})) as Hrun
    by (unfold deployContract; rewrite Hs; reflexivity).
  do 2 eexists. split; [exact Hrun|].
  destruct (proj1 (deployed_contract_loads_by_name
                     (Return Examples.key64) (fun _ => Return (js "contract Bar {}"))
                     (fun _ => js "Bar") MoreExamples.barOutput unit Examples.anyAccount
                     Examples.sendsHash MoreExamples.confirmed (js "2025-01-01")
                     files Examples.memory
                     (js "/app") ∅ (js "contracts/Bar.sol") []) _ _ Hrun)
    as (_ & _ & _ & c & Hc & _ & _ & Hload).
  assert (c = {| name := js "Bar"; abi := JArr []; bytecode := js "0x6080" |}) as ->.
  { assert (compileContract (fun _ => Return (js "contract Bar {}")) (fun _ => js "Bar")
              MoreExamples.barOutput (js "contracts/Bar.sol")
            = Return {| name := js "Bar"; abi := JArr []; bytecode := js "0x6080" |}) as Hc'
      by (vm_compute; reflexivity).
    cbn [d_name] in Hc. congruence. }
  apply (Hload _ []); [apply lookup_insert_eq | reflexivity].
Defined.

End ArtifactToolsFacts.

(** ** Facts on the token tools *)

Module TokenToolsFacts.
Import TokenTransfer TokenTools.

Section Network.

Variable isAddress : jsstring -> bool.
Variable newWallet : jsstring -> completion jsstring.
Variable walletOf : option jsstring -> completion jsstring.
Variable chain : Type.
Variable tx : Type.
Variable transfer : chain -> jsstring -> Z -> chain * completion tx.
Variable wait : chain -> tx -> chain * completion jsstring.
Variable decimals : chain -> completion Z.
Variable symbol : chain -> completion jsstring.
Variable balanceOf : chain -> jsstring -> completion Z.
Variable parseUnits : jsstring -> Z -> completion Z.
Variable formatUnits : Z -> Z -> jsstring.
Variable parseUnits18 : jsstring -> completion Z.
Variable toBigInt : jsstring -> completion Z.

Local Abbreviation world := (world chain).
Local Abbreviation attempt := (attempt chain tx transfer wait).
Local Abbreviation run_batch := (run_batch chain tx transfer wait).
Local Abbreviation outcomes := (outcomes chain tx transfer wait).
Local Abbreviation after_loop := (after_loop chain tx transfer wait).
Local Abbreviation check_inline := (check_inline isAddress).
Local Abbreviation well_formed := (well_formed isAddress).
Local Abbreviation strict := (strict isAddress).
Local Abbreviation malformed_v1 := (malformed_v1 isAddress).
Local Abbreviation validate_v1 := (TokenTransfer.validate_v1 isAddress).
Local Abbreviation sendTokens_v2 :=
  (TokenTransfer.sendTokens isAddress newWallet chain tx transfer wait).
Local Abbreviation sendTokens_v1 := (sendTokens_v1 isAddress chain tx transfer wait).
Local Abbreviation send_token :=
  (send_token isAddress newWallet chain tx transfer wait decimals symbol balanceOf
     parseUnits formatUnits).
Local Abbreviation send_token_steps :=
  (send_token_steps isAddress newWallet chain tx transfer wait decimals symbol balanceOf
     parseUnits formatUnits).
Local Abbreviation handler_loop :=
  (handler_loop isAddress chain tx transfer wait formatUnits).
Local Abbreviation after_handler_loop :=
  (after_handler_loop isAddress chain tx transfer wait).
Local Abbreviation simple_validate := (TokenTools.validate isAddress).
Local Abbreviation simple_sendTokens :=
  (TokenTools.sendTokens isAddress walletOf chain tx transfer wait).
Local Abbreviation transfer_results := (transfer_results chain tx transfer wait).
Local Abbreviation convert_amount := (convert_amount parseUnits18 toBigInt).
Local Abbreviation send_token_v1 :=
  (send_token_v1 isAddress chain tx transfer wait parseUnits18 toBigInt).

Lemma check_inline_strict r : check_inline r = Return tt -> strict r.
Proof.
  unfold TokenTransfer.check_inline, TokenTransfer.strict.
  destruct (startsWith r (js "0x")) eqn:H0; [|discriminate]. cbn [negb].
  destruct (Nat.eqb_spec (length r) 42) as [Hl|]; [|discriminate]. cbn [negb].
  destruct (isAddress r) eqn:Ha; [|discriminate]. intros _.
  split; [|done]. intros ->. discriminate.
Qed.

Lemma well_formed_strict r : well_formed r = true -> strict r.
Proof.
  unfold TokenTransfer.well_formed. destruct (check_inline r) as [[]|] eqn:E; [|discriminate].
  intros _. by apply check_inline_strict.
Qed.

Lemma normalized_from recipients rs x :
  normalize recipients = Return rs -> In x rs ->
  exists s, In (JsString s) recipients /\ x = toLowerCase s.
Proof.
  intros Hn. apply TokenTransferFacts.normalize_Return in Hn.
  induction Hn as [|v r' vs rs' (s & -> & ->) _ IH]; intros Hin; [destruct Hin|].
  destruct Hin as [<-|Hin].
  - exists s. split; [by left|done].
  - destruct (IH Hin) as (s' & Hs' & ->). exists s'. split; [by right|done].
Qed.

(** The world after the steps of the handler, whatever it answers. *)
Lemma send_token_steps_world env w token recipients amount w' r :
  send_token_steps env w token recipients amount = Return (w', r) ->
  w' = w \/ exists rs parsed,
              normalize recipients = Return rs /\ w' = after_handler_loop w rs parsed.
Proof.
  unfold TokenTransfer.send_token_steps.
  destruct (load_env env) as [key|]; [|discriminate]. cbn [bind].
  destruct (newWallet key) as [a|]; [|discriminate]. cbn [bind].
  destruct (decimals (state chain w)) as [dec|]; [|discriminate]. cbn [bind].
  destruct (parseUnits amount dec) as [parsed|]; [|intros H; inversion H; auto].
  destruct (normalize recipients) as [rs|] eqn:Hn; [|discriminate]. cbn [bind].
  destruct (balanceOf (state chain w) a) as [bal|]; [|discriminate]. cbn [bind].
  destruct (bal <? parsed * Z.of_nat (length recipients))%Z; [intros H; inversion H; auto|].
  rewrite TokenTransferFacts.handler_loop_spec.
  intros H. right. exists rs, parsed. split; [done|].
  destruct (flat_map _ _), (flat_map _ _); by inversion H.
Qed.

(** *** Main properties *)

(** X18: the send-token handler of multi-tool-plugin-v2.cjs submits
    transfers only to strict addresses that are the lower-case form of a
    recipient of the request, whatever the request and whatever it
    answers; when the steps before the loop pass and the balance covers
    the batch, it submits one transfer to every well-formed recipient, in
    order, and to no other. *)
Theorem send_token_submits_to_well_formed_recipients env w token recipients amount :
  (exists l,
     submitted chain (fst (send_token env w token recipients amount))
     = submitted chain w ++ l
     /\ Forall (fun r => strict r
                         /\ exists s, In (JsString s) recipients /\ r = toLowerCase s) l)
  /\ (forall key a dec parsed rs bal,
        token <> [] ->
        load_env env = Return key -> newWallet key = Return a ->
        decimals (state chain w) = Return dec ->
        parseUnits amount dec = Return parsed ->
        normalize recipients = Return rs ->
        balanceOf (state chain w) a = Return bal ->
        (parsed * Z.of_nat (length recipients) <= bal)%Z ->
        submitted chain (fst (send_token env w token recipients amount))
        = submitted chain w ++ List.filter well_formed rs).
Proof.
  split.
  - unfold TokenTransfer.send_token. destruct token as [|c token].
    { exists []. by rewrite app_nil_r. }
    destruct (send_token_steps env w (c :: token) recipients amount) as [[w' r]|] eqn:E.
    + destruct (send_token_steps_world _ _ _ _ _ _ _ E) as [->|(rs & parsed & Hn & ->)].
      * exists []. by rewrite app_nil_r.
      * exists (List.filter well_formed rs). cbn [fst].
        split; [apply TokenTransferFacts.after_handler_loop_submitted|].
        apply List.Forall_forall. intros x Hr. apply filter_In in Hr as [Hin Hw].
        split; [by apply well_formed_strict|]. by eapply normalized_from.
    + exists []. by rewrite app_nil_r.
  - intros key a dec parsed rs bal Ht Hk Ha Hd Hp Hn Hb Hle.
    unfold TokenTransfer.send_token, TokenTransfer.send_token_steps.
    destruct token as [|c token]; [done|].
    rewrite Hk. cbn [bind]. rewrite Ha. cbn [bind]. rewrite Hd. cbn [bind].
    rewrite Hp, Hn. cbn [bind]. rewrite Hb. cbn [bind].
    assert ((bal <? parsed * Z.of_nat (length recipients))%Z = false) as ->
      by (apply Z.ltb_ge; lia).
    rewrite TokenTransferFacts.handler_loop_spec.
    destruct (flat_map _ _), (flat_map _ _); cbn [fst];
      apply TokenTransferFacts.after_handler_loop_submitted.
Qed.

(** X19: the send-token handler of multi-tool-plugin-v2.cjs checks the
    balance of the sender against the whole batch before the first
    transfer: when the balance is below the amount times the number of
    recipients, the answer is the failure 'Insufficient token balance...'
    and no transfer is submitted, also not to the recipients that the
    balance would cover. *)
Theorem send_token_refuses_underfunded_batch
    env w token recipients amount key a dec parsed rs bal :
  token <> [] ->
  load_env env = Return key -> newWallet key = Return a ->
  decimals (state chain w) = Return dec ->
  parseUnits amount dec = Return parsed ->
  normalize recipients = Return rs ->
  balanceOf (state chain w) a = Return bal ->
  (bal < parsed * Z.of_nat (length recipients))%Z ->
  fst (send_token env w token recipients amount) = w
  /\ r_success (snd (send_token env w token recipients amount)) = false
  /\ exists m,
       r_error (snd (send_token env w token recipients amount))
       = Some (js "Insufficient token balance. You have " ++ m).
Proof.
  intros Ht Hk Ha Hd Hp Hn Hb Hlt.
  unfold TokenTransfer.send_token, TokenTransfer.send_token_steps.
  destruct token as [|c token]; [done|].
  rewrite Hk. cbn [bind]. rewrite Ha. cbn [bind]. rewrite Hd. cbn [bind].
  rewrite Hp, Hn. cbn [bind]. rewrite Hb. cbn [bind].
  assert ((bal <? parsed * Z.of_nat (length recipients))%Z = true) as ->
    by (apply Z.ltb_lt; lia).
  cbn. split; [done|]. split; [done|]. eexists. reflexivity.
Qed.

(** X20: a request without recipients.  sendTokens, in both multi-tool
    plugins, throws 'Recipients must be a non-empty array of addresses'
    once the token address has passed; the send-token handler of
    multi-tool-plugin-v2.cjs, which has a loop of its own, answers with a
    success that lists no transfer. *)
Theorem empty_batch_is_rejected_by_sendTokens_only env w token amount amount0 :
  bad_token isAddress token = false ->
  (forall key a,
     load_env env = Return key -> newWallet key = Return a ->
     sendTokens_v2 env w token [] amount
     = (w, Throw (js "Recipients must be a non-empty array of addresses")))
  /\ sendTokens_v1 w token [] amount
     = (w, Throw (js "Recipients must be a non-empty array of addresses"))
  /\ (forall key a dec parsed bal,
        load_env env = Return key -> newWallet key = Return a ->
        decimals (state chain w) = Return dec ->
        parseUnits amount0 dec = Return parsed ->
        balanceOf (state chain w) a = Return bal ->
        (0 <= bal)%Z ->
        send_token env w token [] amount0
        = (w, {| r_success := true; r_error := None; r_sent := Some [];
                 r_failed := None |})).
Proof.
  intros Ht. split; [|split].
  - intros key a Hk Ha. unfold TokenTransfer.sendTokens, TokenTransfer.validate.
    rewrite Hk. cbn [bind]. rewrite Ha. cbn [bind]. by rewrite Ht.
  - unfold TokenTransfer.sendTokens_v1, TokenTransfer.validate_v1. by rewrite Ht.
  - intros key a dec parsed bal Hk Ha Hd Hp Hb Hle.
    unfold TokenTransfer.send_token, TokenTransfer.send_token_steps.
    destruct token as [|c token]; [discriminate|].
    rewrite Hk. cbn [bind]. rewrite Ha. cbn [bind]. rewrite Hd. cbn [bind].
    rewrite Hp. cbn [normalize bind]. rewrite Hb. cbn [bind length].
    assert ((bal <? parsed * Z.of_nat 0)%Z = false) as -> by (apply Z.ltb_ge; lia).
    reflexivity.
Qed.

(** X25: an amount that is zero or negative.  sendTokens throws and
    submits no transfer, in the two multi-tool plugins and in
    simple-mcp-plugin-v2.cjs; in each of the three, when the checks before
    the amount pass (the key and the wallet in multi-tool-plugin-v2.cjs,
    the token address and the recipients in all), the error is 'Amount
    must be greater than 0'. *)
Theorem sendTokens_rejects_non_positive_amount env key w token recipients amount :
  (amount <= 0)%Z ->
  (exists e, sendTokens_v2 env w token recipients amount = (w, Throw e))
  /\ (exists e, sendTokens_v1 w token recipients amount = (w, Throw e))
  /\ (exists e, simple_sendTokens key w token recipients amount = (w, Throw e))
  /\ (forall rs, recipients <> [] -> bad_token isAddress token = false ->
        check_values isAddress recipients = Return rs ->
        sendTokens_v1 w token recipients amount
        = (w, Throw (js "Amount must be greater than 0")))
  /\ (forall k a0 rs, load_env env = Return k -> newWallet k = Return a0 ->
        recipients <> [] -> bad_token isAddress token = false ->
        normalize recipients = Return rs ->
        check_recipients isAddress rs = Return tt ->
        sendTokens_v2 env w token recipients amount
        = (w, Throw (js "Amount must be greater than 0")))
  /\ (forall rs, recipients <> [] -> bad_token isAddress token = false ->
        check_addresses isAddress recipients = Return rs ->
        simple_sendTokens key w token recipients amount
        = (w, Throw (js "Amount must be greater than 0"))).
Proof.
  intros Hle. apply Z.leb_le in Hle.
  split; [|split; [|split; [|split; [|split]]]].
  - unfold TokenTransfer.sendTokens, TokenTransfer.validate.
    destruct (load_env env) as [k|]; cbn [bind]; [|eauto].
    destruct (newWallet k) as [a0|]; cbn [bind]; [|eauto].
    destruct (bad_token isAddress token); [eauto|].
    destruct recipients as [|r0 rest]; [eauto|].
    destruct (normalize (r0 :: rest)) as [rs|]; cbn [bind]; [|eauto].
    destruct (check_recipients isAddress rs); cbn [bind]; [|eauto].
    rewrite Hle. eauto.
  - unfold TokenTransfer.sendTokens_v1, TokenTransfer.validate_v1.
    destruct (bad_token isAddress token); [eauto|].
    destruct recipients as [|r0 rest]; [eauto|].
    destruct (check_values isAddress (r0 :: rest)); cbn [bind]; [|eauto].
    rewrite Hle. eauto.
  - unfold TokenTools.sendTokens, TokenTools.validate.
    destruct (bad_token isAddress token); [eauto|].
    destruct recipients as [|r0 rest]; [eauto|].
    destruct (check_addresses isAddress (r0 :: rest)); cbn [bind]; [|eauto].
    rewrite Hle. eauto.
  - intros rs Hne Ht Hc. unfold TokenTransfer.sendTokens_v1, TokenTransfer.validate_v1.
    rewrite Ht. destruct recipients as [|r0 rest]; [done|].
    rewrite Hc. cbn [bind]. by rewrite Hle.
  - intros k a0 rs Hk Ha Hne Ht Hn Hc.
    unfold TokenTransfer.sendTokens, TokenTransfer.validate.
    rewrite Hk. cbn [bind]. rewrite Ha. cbn [bind]. rewrite Ht.
    destruct recipients as [|r0 rest]; [done|].
    rewrite Hn. cbn [bind]. rewrite Hc. cbn [bind]. by rewrite Hle.
  - intros rs Hne Ht Hc. unfold TokenTools.sendTokens, TokenTools.validate.
    rewrite Ht. destruct recipients as [|r0 rest]; [done|].
    rewrite Hc. cbn [bind]. by rewrite Hle.
Qed.

Lemma transfer_results_spec amount recipients :
  forall w results,
    transfer_results w recipients amount results
    = (after_loop w recipients amount,
       results ++ map entry_of (outcomes w recipients amount)).
Proof.
  induction recipients as [|r rest IH]; intros w results; cbn.
  - by rewrite app_nil_r.
  - destruct (attempt w r amount) as [w' [h|e]] eqn:E; cbn;
      rewrite IH, <- app_assoc; reflexivity.
Qed.

Lemma check_addresses_length recipients :
  forall rs, check_addresses isAddress recipients = Return rs ->
             length rs = length recipients.
Proof.
  induction recipients as [|v rest IH]; intros rs H; cbn in H.
  - by inversion H.
  - destruct v as [s| | |shown]; try discriminate.
    destruct (isAddress s); [|discriminate].
    destruct (check_addresses isAddress rest) as [ss|]; [|discriminate].
    cbn in H. inversion H; subst. cbn. by rewrite (IH ss).
Qed.

Lemma simple_validate_length token recipients amount rs :
  simple_validate token recipients amount = Return rs -> length rs = length recipients.
Proof.
  unfold TokenTools.validate. destruct (bad_token isAddress token); [discriminate|].
  destruct recipients as [|v rest]; [discriminate|].
  destruct (check_addresses isAddress (v :: rest)) as [checked|] eqn:E; [|discriminate].
  cbn [bind]. destruct (amount <=? 0)%Z; [discriminate|].
  intros H. inversion H; subst. by apply check_addresses_length.
Qed.

Lemma hash_or_message_length (l : list entry) :
  Forall (fun e => is_sent e = true -> error e = None) l ->
  length (List.filter has_hash l) + length (List.filter has_message l) <= length l.
Proof.
  induction 1 as [|e l He _ IH]; [done|]. cbn [List.filter].
  unfold has_hash at 1, has_message at 1. unfold is_sent in He.
  destruct (txHash e) as [[|??]|]; destruct (error e) as [[|??]|] eqn:Ee; cbn; try lia;
    by specialize (He eq_refl).
Qed.

(** X21: sendTokens of simple-mcp-plugin-v2.cjs keeps one array of
    results and reads [sent] and [failed] off it by the hash and by the
    error text of each entry.  An entry whose hash or error text is empty
    is in neither list, so the two lists can hold fewer entries than there
    are recipients; when no hash and no error text is empty the call
    returns what the loop of the multi-tool plugins returns for the same
    recipients. *)
Theorem simple_sendTokens_reads_results_by_text key w token recipients amount rs a :
  simple_validate token recipients amount = Return rs ->
  walletOf key = Return a ->
  simple_sendTokens key w token recipients amount
  = (after_loop w rs amount,
     match List.filter has_hash (map entry_of (outcomes w rs amount)) with
     | [] => Throw (js "All transfers failed")
     | successful =>
         Return {| success := true;
                   sent := successful;
                   failed :=
                     match List.filter has_message (map entry_of (outcomes w rs amount)) with
                     | [] => None
                     | l => Some l
                     end |}
     end)
  /\ length (List.filter has_hash (map entry_of (outcomes w rs amount)))
     + length (List.filter has_message (map entry_of (outcomes w rs amount)))
     <= length recipients
  /\ (Forall (fun o => snd o <> Return [] /\ snd o <> Throw []) (outcomes w rs amount) ->
      simple_sendTokens key w token recipients amount = run_batch w rs amount).
Proof.
  intros Hv Ha.
  assert (simple_sendTokens key w token recipients amount
          = (after_loop w rs amount,
             match List.filter has_hash (map entry_of (outcomes w rs amount)) with
             | [] => Throw (js "All transfers failed")
             | successful =>
                 Return {| success := true;
                           sent := successful;
                           failed :=
                             match List.filter has_message
                                     (map entry_of (outcomes w rs amount)) with
                             | [] => None
                             | l => Some l
                             end |}
             end)) as Hrun.
  { unfold TokenTools.sendTokens. rewrite Hv, Ha, transfer_results_spec. cbn [app].
    destruct (List.filter has_hash _); [done|].
    by destruct (List.filter has_message _). }
  split; [exact Hrun|]. split.
  - rewrite <- (simple_validate_length _ _ _ _ Hv).
    assert (length (map entry_of (outcomes w rs amount)) = length rs) as <-.
    { rewrite length_map, <- (length_map fst).
      by rewrite TokenTransferFacts.outcomes_recipients. }
    apply hash_or_message_length. apply List.Forall_forall.
    intros e He. apply in_map_iff in He as ([r [h|m]] & <- & _); cbn; done.
  - intros Hne. rewrite Hrun, TokenTransferFacts.run_batch_spec.
    assert (List.filter has_hash (map entry_of (outcomes w rs amount))
            = List.filter is_sent (map entry_of (outcomes w rs amount))) as ->.
    { apply filter_ext_in. intros e He.
      apply in_map_iff in He as ([r [h|m]] & <- & Hin); [|done].
      pose proof (proj1 (List.Forall_forall _ _) Hne _ Hin) as [H1 _]. cbn in H1.
      by destruct h. }
    assert (List.filter has_message (map entry_of (outcomes w rs amount))
            = List.filter is_failed (map entry_of (outcomes w rs amount))) as ->.
    { apply filter_ext_in. intros e He.
      apply in_map_iff in He as ([r [h|m]] & <- & Hin); [done|].
      pose proof (proj1 (List.Forall_forall _ _) Hne _ Hin) as [_ H2]. cbn in H2.
      by destruct m. }
    reflexivity.
Qed.

(** X22: the send-token handler of the first multi-tool plugin answers
    with the value of sendTokens, or with a failure.  A success means that
    the amount was read, that every recipient passed the strict checks as
    given and that at least one transfer was sent; a request with a
    malformed recipient is answered with a failure and nothing is
    submitted; the error of a failure is the text for missing parameters,
    or starts with 'Invalid amount format: ' or with 'Token transfer
    failed: '. *)
Theorem send_token_v1_answers w token recipients amount :
  (forall w' b,
     send_token_v1 w token recipients amount = (w', Sent b) ->
     exists a rs,
       convert_amount amount = Return a
       /\ validate_v1 token recipients a = Return rs
       /\ Forall2 (fun v r => v = JsString r /\ strict r) recipients rs
       /\ submitted chain w' = submitted chain w ++ rs
       /\ sent b <> [])
  /\ (forall v, In v recipients -> malformed_v1 v ->
        exists m, send_token_v1 w token recipients amount = (w, Failed m))
  /\ (forall w' m,
        send_token_v1 w token recipients amount = (w', Failed m) ->
        m = js "Missing required parameters: tokenAddress, recipients, and amount"
        \/ (exists e, m = js "Invalid amount format: " ++ e)
        \/ (exists e, m = js "Token transfer failed: " ++ e)).
Proof.
  unfold TokenTools.send_token_v1. split; [|split].
  - intros w' b. destruct token as [|c token]; [discriminate|].
    destruct (convert_amount amount) as [a|]; [|discriminate].
    unfold TokenTransfer.sendTokens_v1.
    destruct (validate_v1 (c :: token) recipients a) as [rs|] eqn:Hv; [|discriminate].
    rewrite TokenTransferFacts.run_batch_spec.
    destruct (List.filter is_sent _) as [|e l] eqn:Hs; [discriminate|].
    intros H. inversion H; subst. exists a, rs. split; [done|]. split; [done|].
    apply TokenTransferFacts.validate_v1_Return in Hv as (Hc & _).
    split; [by apply TokenTransferFacts.check_values_Return|].
    split; [apply TokenTransferFacts.after_loop_submitted|done].
  - intros v Hin Hbad. destruct token as [|c token]; [eauto|].
    destruct (convert_amount amount) as [a|]; [|eauto].
    unfold TokenTransfer.sendTokens_v1.
    destruct (TokenTransferFacts.validate_v1_malformed isAddress (c :: token) recipients a v
                Hin Hbad) as [e ->].
    eauto.
  - intros w' m. destruct token as [|c token]; [intros H; inversion H; auto|].
    destruct (convert_amount amount) as [a|e]; [|intros H; inversion H; eauto].
    destruct (sendTokens_v1 w (c :: token) recipients a) as [w'' [b|e]];
      intros H; inversion H; eauto.
Qed.

End Network.

(** *** Concrete runs *)

Lemma send_token_refuses_underfunded_witness :
  fst (TokenTransfer.send_token Examples.hexAddress Examples.anyWallet nat jsstring
         Examples.countingTransfer Examples.countingWait Examples.eighteen Examples.mon
         MoreExamples.poor Examples.wholeUnits Examples.plainUnits
         Examples.env Examples.start Examples.token
         [JsString Examples.alice; JsString Examples.bob] (js "5"))
  = Examples.start.
Proof.
  assert (Examples.token <> []) as Ht by discriminate.
  exact (proj1 (send_token_refuses_underfunded_batch
                  Examples.hexAddress Examples.anyWallet nat jsstring
                  Examples.countingTransfer Examples.countingWait Examples.eighteen
                  Examples.mon MoreExamples.poor Examples.wholeUnits Examples.plainUnits
                  Examples.env Examples.start Examples.token
                  [JsString Examples.alice; JsString Examples.bob] (js "5")
                  (js "0x01") (js "0x00000000000000000000000000000000000000aa")
                  18%Z 1%Z [toLowerCase Examples.alice; Examples.bob] 1%Z
                  Ht eq_refl eq_refl eq_refl eq_refl eq_refl eq_refl eq_refl)).
Defined.

Lemma empty_batch_witness :
  Examples.sendTokens_v1 Examples.start Examples.token [] 5
  = (Examples.start, Throw (js "Recipients must be a non-empty array of addresses")).
Proof.
  assert (bad_token Examples.hexAddress Examples.token = false) as Ht by reflexivity.
  exact (proj1 (proj2 (empty_batch_is_rejected_by_sendTokens_only
                         Examples.hexAddress Examples.anyWallet nat jsstring
                         Examples.countingTransfer Examples.countingWait Examples.eighteen
                         Examples.mon Examples.rich Examples.wholeUnits Examples.plainUnits
                         Examples.env Examples.start Examples.token 5 (js "5") Ht))).
Defined.

Lemma sendTokens_rejects_non_positive_witness :
  Examples.sendTokens_v1 Examples.start Examples.token [JsString Examples.bob] 0
  = (Examples.start, Throw (js "Amount must be greater than 0"))
  /\ Examples.sendTokens Examples.env Examples.start Examples.token [JsString Examples.bob] 0
     = (Examples.start, Throw (js "Amount must be greater than 0"))
  /\ TokenTools.sendTokens Examples.hexAddress MoreExamples.walletOfKey nat jsstring
       Examples.countingTransfer Examples.countingWait None Examples.start Examples.token
       [JsString Examples.bob] 0
     = (Examples.start, Throw (js "Amount must be greater than 0")).
Proof.
  assert (0 <= 0)%Z as Hle by lia.
  pose proof (sendTokens_rejects_non_positive_amount
                Examples.hexAddress Examples.anyWallet
                MoreExamples.walletOfKey nat jsstring
                Examples.countingTransfer Examples.countingWait
                Examples.env None Examples.start Examples.token
                [JsString Examples.bob] 0 Hle) as (_ & _ & _ & H1 & H2 & H3).
  split; [|split].
  - apply (H1 [Examples.bob]); [discriminate | reflexivity | reflexivity].
  - apply (H2 (js "0x01") (js "0x00000000000000000000000000000000000000aa")
              [Examples.bob]); try reflexivity. discriminate.
  - apply (H3 [Examples.bob]); [discriminate | reflexivity | reflexivity].
Defined.

Lemma simple_sendTokens_witness :
  TokenTools.validate Examples.hexAddress Examples.token
    [JsString Examples.bob; JsString Examples.burn] 5
  = Return [Examples.bob; Examples.burn]
  /\ TokenTools.sendTokens Examples.hexAddress MoreExamples.walletOfKey nat jsstring
       Examples.countingTransfer Examples.countingWait None Examples.start Examples.token
       [JsString Examples.bob; JsString Examples.burn] 5
     = run_batch nat jsstring Examples.countingTransfer Examples.countingWait
         Examples.start [Examples.bob; Examples.burn] 5.
Proof.
  assert (TokenTools.validate Examples.hexAddress Examples.token
            [JsString Examples.bob; JsString Examples.burn] 5
          = Return [Examples.bob; Examples.burn]) as Hv by reflexivity.
  split; [exact Hv|].
  apply (proj2 (proj2 (simple_sendTokens_reads_results_by_text
                         Examples.hexAddress MoreExamples.walletOfKey nat jsstring
                         Examples.countingTransfer Examples.countingWait
                         None Examples.start Examples.token
                         [JsString Examples.bob; JsString Examples.burn] 5
                         [Examples.bob; Examples.burn]
                         (js "0x00000000000000000000000000000000000000aa") Hv eq_refl))).
  repeat constructor; discriminate.
Defined.

End TokenToolsFacts.

(** ** Facts on check-contract-version.js *)

Module VersionCheckFacts.
Import VersionNormalizer VersionCheck RegexFacts.

(** The version of a directive that reads [pragma solidity 0.8.28;]. *)
Lemma required_capture s before segs after :
  search pragmaRegex s = Some (before, segs, after) ->
  concat segs = requiredPragma ->
  pragmaMatch s = Some (js "0.8.28").
Proof.
  intros E Hc. unfold pragmaMatch. rewrite E.
  destruct (search_sound _ _ _ _ _ E) as (_ & Hm & _). rewrite Hc in Hm.
  assert (match_here pragmaRegex (requiredPragma ++ after)
          = Some ([["p"]; ["r"]; ["a"]; ["g"]; ["m"]; ["a"]; [" "];
                   ["s"]; ["o"]; ["l"]; ["i"]; ["d"]; ["i"]; ["t"]; ["y"]; [" "];
                   js "0.8.28"; [";"]]%char, after)) as Hr by reflexivity.
  rewrite Hr in Hm. by inversion Hm.
Qed.

Lemma forceVersion_first_directive (source : js_value) :
  pragmaMatch (forceVersion source) = Some (js "0.8.28").
Proof.
  destruct (usable source) as [s|] eqn:Hu.
  - apply VersionNormalizerFacts.usable_inv in Hu as [Hs ->].
    destruct (search pragmaRegex s) as [[[before segs] after]|] eqn:E.
    + rewrite (VersionNormalizerFacts.forceVersion_replaces s before segs after Hs E).
      destruct (VersionNormalizerFacts.search_after_replacement _ _ _ _ E)
        as (segs' & E' & Hc).
      by apply (required_capture _ _ _ _ E').
    + rewrite (VersionNormalizerFacts.forceVersion_inserts s Hs E).
      destruct (VersionNormalizerFacts.search_top s) as (segs & E' & Hc).
      by apply (required_capture _ _ _ _ E').
  - assert (forceVersion source = fallbackSource) as ->
      by (unfold forceVersion; by rewrite Hu).
    vm_compute. reflexivity.
Qed.

Lemma checkVersion_of_required (s : jsstring) :
  pragmaMatch s = Some (js "0.8.28") ->
  checkVersion (JsString s)
  = {| valid := true; error := None; fix_ := None; currentVersion := None;
       version := Some (js "0.8.28") |}.
Proof.
  intros H. unfold checkVersion.
  assert (s <> []) as Hs by (intros ->; vm_compute in H; discriminate).
  rewrite VersionNormalizerFacts.usable_string by done. rewrite H.
  reflexivity.
Qed.

(** *** Main properties *)

(** X23: whatever forceVersion returns passes checkVersion of
    check-contract-version.js, for every input, a string or not: the
    leftmost directive of the text is [pragma solidity 0.8.28;]. *)
Theorem forceVersion_passes_checkVersion (source : js_value) :
  checkVersion (JsString (forceVersion source))
  = {| valid := true; error := None; fix_ := None; currentVersion := None;
       version := Some (js "0.8.28") |}.
Proof. apply checkVersion_of_required, forceVersion_first_directive. Qed.

(** X24: fixVersion of check-contract-version.js throws on an input
    that is empty or not a string, where forceCorrectVersion falls back to
    a contract of its own, and returns what forceCorrectVersion returns on
    every other input.  When the source has a directive, or has neither a
    directive nor an SPDX license comment, the text returned passes
    checkVersion. *)
Theorem fixVersion_passes_checkVersion (source : js_value) :
  (usable source = None ->
   fixVersion source = Throw (js "Invalid input: source code must be a string"))
  /\ (forall s,
        usable source = Some s ->
        fixVersion source = Return (forceCorrectVersion source)
        /\ (pragmaMatch s <> None \/ spdxMatch s = None ->
            valid (checkVersion (JsString (forceCorrectVersion source))) = true)).
Proof.
  unfold fixVersion, forceCorrectVersion. split; [by intros ->|].
  intros s Hu. rewrite Hu. split.
  - destruct (pragmaMatch s); [done|]. by destruct (spdxMatch s).
  - intros H.
    assert (match pragmaMatch s with
            | Some _ => replace_regex pragmaRegex pragmaGroups s requiredPragma
            | None =>
                match spdxMatch s with
                | Some m => replace_string s m (m ++ js "\npragma solidity 0.8.28;\n")
                | None => js "pragma solidity 0.8.28;\n\n" ++ s
                end
            end = forceVersion source) as ->.
    { unfold forceVersion. rewrite Hu.
      destruct (pragmaMatch s); [done|]. destruct H as [H|H]; [done|]. by rewrite H. }
    by rewrite (checkVersion_of_required _ (forceVersion_first_directive source)).
Qed.

End VersionCheckFacts.

(** ** More on forceCorrectVersion *)

Module ForceCorrectVersionFacts.
Import VersionNormalizer RegexFacts.

(** A replacement text that ends with a line feed and a text without
    dollar sign: the patterns of the replacement do not reach into that
    text (no capture groups). *)
Lemma expand_keeps_tail (matched before after tail : jsstring) :
  dollar_free tail = true ->
  forall n t, length t <= n ->
    expand [] matched before after (t ++ nl :: tail)
    = expand [] matched before after (t ++ [nl]) ++ tail.
Proof.
  intros Htail.
  assert (forall x, expand [] matched before after (nl :: x)
                    = nl :: expand [] matched before after x) as Hnl by reflexivity.
  assert (expand [] matched before after tail = tail) as Ht
    by (by apply expand_dollar_free).
  induction n as [|n IH]; intros t Hlen.
  - destruct t; [|cbn in Hlen; lia]. cbn [app]. by rewrite !Hnl, Ht.
  - destruct t as [|c t]; [cbn [app]; by rewrite !Hnl, Ht|].
    cbn [length] in Hlen. cbn [app expand].
    destruct (Ascii.eqb c "$") eqn:Ec;
      [|rewrite (IH t) by lia; reflexivity].
    destruct t as [|d t].
    + cbn [app]. change (Ascii.eqb nl "$") with false.
      change (Ascii.eqb nl "&") with false. change (Ascii.eqb nl "`") with false.
      change (Ascii.eqb nl "'") with false. change (is_digit nl) with false.
      cbv iota. rewrite !Hnl. by rewrite Ht.
    + cbn [length] in Hlen. cbn [app].
      destruct (Ascii.eqb d "$"); [rewrite (IH t) by lia; reflexivity|].
      destruct (Ascii.eqb d "&"); [rewrite (IH t) by lia; by rewrite <- app_assoc|].
      destruct (Ascii.eqb d "`"); [rewrite (IH t) by lia; by rewrite <- app_assoc|].
      destruct (Ascii.eqb d "'"); [rewrite (IH t) by lia; by rewrite <- app_assoc|].
      assert (expand [] matched before after (d :: t ++ nl :: tail)
              = expand [] matched before after (d :: t ++ [nl]) ++ tail) as Hd
        by (apply (IH (d :: t)); cbn; lia).
      destruct (is_digit d); [|by rewrite Hd].
      assert (forall k, capture_ref [] k = None) as Hcap
        by (intros [|[|k]]; reflexivity).
      rewrite !Hcap.
      destruct t as [|e t]; cbn [app] in Hd |- *.
      * change (is_digit nl) with false. cbv iota. by rewrite Hd.
      * destruct (is_digit e); rewrite ?Hcap; by rewrite Hd.
Qed.

(** *** Main properties *)

(** X14: the text that forceCorrectVersion returns holds the directive
    [pragma solidity 0.8.28;], for every input: a string or not, with or
    without directive, with or without SPDX license comment, whatever the
    characters of that comment. *)
Theorem forceCorrectVersion_has_directive (source : js_value) :
  includes (forceCorrectVersion source) requiredPragma = true.
Proof.
  unfold forceCorrectVersion.
  destruct (usable source) as [s|] eqn:Hu; [|vm_compute; reflexivity].
  unfold pragmaMatch, replace_regex.
  destruct (search pragmaRegex s) as [[[before segs] after]|] eqn:E.
  - rewrite VersionNormalizerFacts.expand_required. apply includes_app.
  - unfold spdxMatch.
    destruct (search spdxRegex s) as [[[before segs] after]|] eqn:Es.
    + unfold replace_string.
      rewrite (VersionNormalizerFacts.find_sub_leftmost _ _ _ _ _ Es).
      destruct (search_sound _ _ _ _ _ Es) as (_ & Hm & _).
      destruct (match_here_sound _ _ _ _ Hm) as [Hok _].
      destruct (VersionNormalizerFacts.spdx_ends_line _ Hok) as (m0 & Hm0).
      rewrite Hm0 at 2.
      assert ((m0 ++ [nl]) ++ js "\npragma solidity 0.8.28;\n"
              = (m0 ++ [nl]) ++ nl :: (requiredPragma ++ [nl])) as -> by reflexivity.
      assert (((m0 ++ [nl]) ++ nl :: requiredPragma ++ [nl])
              = (m0 ++ [nl]) ++ nl :: (requiredPragma ++ [nl])) as _ by reflexivity.
      rewrite (expand_keeps_tail _ _ _ (requiredPragma ++ [nl]) eq_refl
                 (length (m0 ++ [nl])) (m0 ++ [nl]) (le_n _)).
      set (x := expand [] (concat segs) before after ((m0 ++ [nl]) ++ [nl])).
      replace (before ++ (x ++ requiredPragma ++ [nl]) ++ after)
        with ((before ++ x) ++ requiredPragma ++ ([nl] ++ after))
        by (by rewrite <- !app_assoc).
      apply includes_app.
    + change (js "pragma solidity 0.8.28;\n\n" ++ s)
        with ([] ++ requiredPragma ++ (nl :: nl :: s)).
      apply includes_app.
Qed.

End ForceCorrectVersionFacts.
